(** * Portfolio website script (js/main.js): a shallow embedding

    The script attaches independent UI controllers to a static page.  Each
    controller is embedded below as pure functions over the part of the
    document it reads and writes.  The page markup is not part of the script:
    it enters every definition as data (lists of elements in document order),
    and what a property needs from the markup is a named hypothesis.

    JavaScript strings that the script inspects character by character (form
    field values) are sequences of UTF-16 code units; identifiers, labels and
    messages that are only compared or stored are Rocq strings.  Pixel
    coordinates are rationals: comparisons are those of the script, the
    rounding of IEEE doubles is not modelled.  Timers run on a logical
    millisecond clock. *)

From Stdlib Require Import String Ascii List ZArith NArith QArith Qminmax Bool Lia Lqa Arith.
From stdpp Require Import gmap strings list fin_maps.
Import ListNotations.
Local Open Scope string_scope.
Local Open Scope list_scope.
Set Warnings "-clear-no-such-hyp".

(** ** JavaScript strings, whitespace and [String.prototype.trim] *)

Module JS.

Definition code_unit := N.
Definition jsstring := list code_unit.

(** A string literal of the script, as code units. *)
Definition lit (s : string) : jsstring :=
  map N_of_ascii (list_ascii_of_string s).

(** ECMAScript WhiteSpace and LineTerminator code points: the characters
    removed by [trim] and matched by the regular expression class [\s]. *)
Definition is_ws (c : code_unit) : bool :=
  ((9 <=? c) && (c <=? 13) || (c =? 32) || (c =? 160) || (c =? 0x1680)
   || (0x2000 <=? c) && (c <=? 0x200A)
   || (c =? 0x2028) || (c =? 0x2029) || (c =? 0x202F) || (c =? 0x205F)
   || (c =? 0x3000) || (c =? 0xFEFF))%N.

Fixpoint trimStart (s : jsstring) : jsstring :=
  match s with
  | c :: s' => if is_ws c then trimStart s' else s
  | [] => []
  end.

Definition trimEnd (s : jsstring) : jsstring := rev (trimStart (rev s)).

Definition trim (s : jsstring) : jsstring := trimEnd (trimStart s).

(** Truthiness of a string value: only the empty string is falsy. *)
Definition truthy (s : jsstring) : bool :=
  match s with [] => false | _ => true end.

(** [s.trim() === ''] *)
Definition blank (s : jsstring) : bool := negb (truthy (trim s)).

End JS.

(** ** Regular expressions

    The one regular expression of the script is anchored at both ends and has
    no flags, so [RegExp.prototype.test] asks whether the whole string is in
    its language.  Membership is decided with derivatives. *)

Module Regex.
Import JS.

Inductive regex : Type :=
| Void
| Eps
| Class (p : code_unit -> bool)
| Seq (r1 r2 : regex)
| Alt (r1 r2 : regex)
| Star (r : regex).

Definition Chr (c : code_unit) : regex := Class (N.eqb c).
Definition Plus (r : regex) : regex := Seq r (Star r).

Fixpoint nullable (r : regex) : bool :=
  match r with
  | Void => false
  | Eps => true
  | Class _ => false
  | Seq r1 r2 => nullable r1 && nullable r2
  | Alt r1 r2 => nullable r1 || nullable r2
  | Star _ => true
  end.

Fixpoint deriv (c : code_unit) (r : regex) : regex :=
  match r with
  | Void => Void
  | Eps => Void
  | Class p => if p c then Eps else Void
  | Seq r1 r2 =>
      if nullable r1
      then Alt (Seq (deriv c r1) r2) (deriv c r2)
      else Seq (deriv c r1) r2
  | Alt r1 r2 => Alt (deriv c r1) (deriv c r2)
  | Star r1 => Seq (deriv c r1) (Star r1)
  end.

Fixpoint test (r : regex) (s : jsstring) : bool :=
  match s with
  | [] => nullable r
  | c :: s' => test (deriv c r) s'
  end.

(** The language of a regular expression. *)
Inductive matches : regex -> jsstring -> Prop :=
| MEps : matches Eps []
| MClass p c : p c = true -> matches (Class p) [c]
| MSeq r1 r2 s1 s2 : matches r1 s1 -> matches r2 s2 -> matches (Seq r1 r2) (s1 ++ s2)
| MAltL r1 r2 s : matches r1 s -> matches (Alt r1 r2) s
| MAltR r1 r2 s : matches r2 s -> matches (Alt r1 r2) s
| MStarNil r : matches (Star r) []
| MStarCons r s1 s2 : matches r s1 -> matches (Star r) s2 -> matches (Star r) (s1 ++ s2).

End Regex.

(** ** [classList]: the ordered token set of an element's class attribute *)

Module ClassList.

Definition contains (cl : list string) (tok : string) : bool :=
  existsb (String.eqb tok) cl.

Definition add (tok : string) (cl : list string) : list string :=
  if contains cl tok then cl else cl ++ [tok].

Definition remove (tok : string) (cl : list string) : list string :=
  List.filter (fun t => negb (String.eqb tok t)) cl.

(** [classList.toggle(tok)] *)
Definition toggle (tok : string) (cl : list string) : list string :=
  if contains cl tok then remove tok cl else add tok cl.

(** [classList.toggle(tok, force)] *)
Definition toggleForce (tok : string) (force : bool) (cl : list string) : list string :=
  if force then add tok cl else remove tok cl.

End ClassList.

(** ** Timers

    [setTimeout] appends to the list of pending timers, kept in creation
    order.  The clock advances one millisecond at a time; a tick runs, in
    creation order, the callbacks that have become due.  Every delay in the
    script is positive, so the callbacks due at a tick were all set for that
    millisecond and creation order is the order in which the browser runs
    them.  A callback that sets a timer adds it to the pending list of the
    world it runs in. *)

Module Timers.

Section World.
Context {D A : Type}.

Record world : Type := World {
  now : nat;
  pending : list (nat * A);
  dom : D
}.

Definition setTimeout (a : A) (delay : nat) (w : world) : world :=
  {| now := now w; pending := pending w ++ [(now w + delay, a)]; dom := dom w |}.

Definition withDom (f : D -> D) (w : world) : world :=
  {| now := now w; pending := pending w; dom := f (dom w) |}.

Definition isDue (t : nat) (p : nat * A) : bool := (fst p <=? t)%nat.

Variable fire : A -> world -> world.

Definition tick (w : world) : world :=
  let t := S (now w) in
  fold_left (fun w' p => fire (snd p) w')
            (List.filter (isDue t) (pending w))
            {| now := t;
               pending := List.filter (fun p => negb (isDue t p)) (pending w);
               dom := dom w |}.

Definition advance (ms : nat) (w : world) : world := Nat.iter ms tick w.
End World.

Arguments world : clear implicits.

End Timers.

(** ** Numbers: the quotient of two finite doubles

    Division by zero gives an infinity or NaN; every comparison with NaN is
    false. *)

Module JSNum.

Inductive num : Type :=
| Fin (q : Q)
| PosInf
| NegInf
| NaN.

Definition Qlt_bool (x y : Q) : bool := negb (Qle_bool y x).

Definition div (a b : Q) : num :=
  if Qeq_bool b 0%Q then
    if Qlt_bool 0%Q a then PosInf else if Qlt_bool a 0%Q then NegInf else NaN
  else Fin (a / b).

(** [x >= t] for a finite [t] *)
Definition ge (x : num) (t : Q) : bool :=
  match x with
  | Fin q => Qle_bool t q
  | PosInf => true
  | NegInf => false
  | NaN => false
  end.

End JSNum.

(** ** Utility: [isElementInViewport] *)

Record Rect : Type := { top : Q; bottom : Q }.

(** [element] is a node of the page, never null at the call sites modelled
    here; [rect] is its [getBoundingClientRect()]. *)
Definition isElementInViewport (innerHeight : Q) (rect : Rect) (threshold : Q) : bool :=
  let elementHeight := (bottom rect - top rect)%Q in
  let visibleHeight := (Qmin (bottom rect) innerHeight - Qmax (top rect) 0%Q)%Q in
  JSNum.ge (JSNum.div visibleHeight elementHeight) threshold.

(** ** Navigation *)

Module Navigation.

(** A [section[id]] element as the scroll handler sees it. *)
Record SectionEl : Type := { id : string; rect : Rect }.

(** What the handlers read from the window at the time they run. *)
Record Viewport : Type := {
  innerHeight : Q;
  pageYOffset : Q;
  sections : list SectionEl
}.

(** A [.nav-link] element; [href] is [getAttribute('href')]. *)
Record Link : Type := { href : option string; classList : list string }.

Record t : Type := {
  activeSection : option string;     (* null until the first update *)
  scrollThreshold : Q;
  navbar : list string;              (* class list of #navbar *)
  navLinks : list Link
}.

Definition updateActiveNavLink (sectionId : string) (links : list Link) : list Link :=
  map (fun link =>
         let cl := ClassList.remove "active" (classList link) in
         {| href := href link;
            classList :=
              if bool_decide (href link = Some (String.append "#" sectionId))
              then ClassList.add "active" cl else cl |})
      links.

(** The section the [forEach] loop leaves in [current]. *)
Definition currentSection (vp : Viewport) : string :=
  fold_left (fun current section =>
               if isElementInViewport (innerHeight vp) (rect section) (3 # 10)
               then id section else current)
            (sections vp) "".

Definition updateActiveSection (vp : Viewport) (nav : t) : t :=
  let current := currentSection vp in
  if bool_decide (Some current = activeSection nav) then nav
  else {| activeSection := Some current;
          scrollThreshold := scrollThreshold nav;
          navbar := navbar nav;
          navLinks := updateActiveNavLink current (navLinks nav) |}.

Definition handleNavbarScroll (vp : Viewport) (nav : t) : t :=
  let scrolled := JSNum.Qlt_bool (scrollThreshold nav) (pageYOffset vp) in
  {| activeSection := activeSection nav;
     scrollThreshold := scrollThreshold nav;
     navbar := ClassList.toggleForce "scrolled" scrolled (navbar nav);
     navLinks := navLinks nav |}.

(** [new Navigation()]: the constructor and [init], on the page as loaded. *)
Definition create (vp : Viewport) (navbarClasses : list string) (links : list Link) : t :=
  handleNavbarScroll vp
    (updateActiveSection vp
       {| activeSection := None; scrollThreshold := 100%Q;
          navbar := navbarClasses; navLinks := links |}).

(** The body of the throttled scroll listener. *)
Definition onScroll (vp : Viewport) (nav : t) : t :=
  updateActiveSection vp (handleNavbarScroll vp nav).

(** The state after load and a series of scroll recomputations. *)
Definition run (vp0 : Viewport) (navbarClasses : list string) (links : list Link)
    (scrolls : list Viewport) : t :=
  fold_left (fun nav vp => onScroll vp nav) scrolls (create vp0 navbarClasses links).

Definition isActive (l : Link) : bool := ClassList.contains (classList l) "active".


(** The links whose [href] is [h]. *)
Definition linksTo (h : string) (links : list Link) : list Link :=
  List.filter (fun l => bool_decide (href l = Some h)) links.

(** Markup: no two navigation links point to the same target. *)
Definition oneLinkPerTarget (links : list Link) : Prop :=
  forall h, length (linksTo h links) <= 1.

(** The links marked active are those of section [current]. *)
Definition marks (current : string) (links : list Link) : Prop :=
  forall l, In l links ->
    (isActive l = true <-> href l = Some (String.append "#" current)).

End Navigation.

(** ** Scroll management *)

Module ScrollManager.

(** [backToTop] is the class list of [#backToTop], absent when the page has
    no such element. *)
Definition updateBackToTop (pageYOffset : Q) (backToTop : option (list string))
    : option (list string) :=
  let scrolled := JSNum.Qlt_bool 500%Q pageYOffset in
  match backToTop with
  | Some cl => Some (ClassList.toggleForce "visible" scrolled cl)
  | None => None
  end.

End ScrollManager.

(** ** Form management *)

Module FormManager.
Import JS Timers.

(** An element of the document that carries a [name] attribute.  The list of
    these elements, in document order, is what
    [document.querySelector('[name="..."]')] searches.  [inForm] marks the
    text controls ([input], [textarea]) of [#contact-form]: they contribute
    to its [FormData] and are cleared by [reset()].  [parent] identifies the
    parent node. *)
Record Element : Type := {
  name : string;
  value : jsstring;
  defaultValue : jsstring;
  required : bool;
  inForm : bool;
  parent : nat;
  borderColor : string
}.

(** The submit button of the form. *)
Record Button : Type := { innerHTML : string; disabled : bool }.

(** The part of the document the form controller touches.  [errorDivs] are
    the [.error-message] elements in document order, each with the parent
    node that contains it and its text; parent nodes of named elements are
    taken not to be nested in one another.  [banners] are the
    [.success-message] elements placed before the form, in document order,
    identified by a creation number. *)
Record Page : Type := {
  elements : list Element;
  errorDivs : list (nat * string);
  submitBtn : option Button;
  banners : list nat;
  nextId : nat
}.

(** Timer callbacks: the closure of [handleContactForm], which captured
    [originalText], and the closure of [showFormSuccess], which captured the
    banner it created. *)
Inductive Action : Type :=
| SubmitDone (originalText : string)
| RemoveBanner (successDiv : nat).

Definition World : Type := world Page Action.

(** The character class [[^\s@]]; 64 is the code of the at sign, 46 of the
    full stop. *)
Definition notSpaceAt (c : code_unit) : bool := negb (is_ws c || (c =? 64)%N).

(** [/^[^\s@]+@[^\s@]+\.[^\s@]+$/] *)
Definition emailRegex : Regex.regex :=
  Regex.Seq (Regex.Plus (Regex.Class notSpaceAt))
    (Regex.Seq (Regex.Chr 64%N)
       (Regex.Seq (Regex.Plus (Regex.Class notSpaceAt))
          (Regex.Seq (Regex.Chr 46%N) (Regex.Plus (Regex.Class notSpaceAt))))).

Definition isValidEmail (email : jsstring) : bool := Regex.test emailRegex email.

Definition setBorderColor (c : string) (e : Element) : Element :=
  {| name := name e; value := value e; defaultValue := defaultValue e;
     required := required e; inForm := inForm e; parent := parent e;
     borderColor := c |}.

Definition setValue (v : jsstring) (e : Element) : Element :=
  {| name := name e; value := v; defaultValue := defaultValue e;
     required := required e; inForm := inForm e; parent := parent e;
     borderColor := borderColor e |}.

Definition hasName (n : string) (e : Element) : bool := String.eqb (name e) n.

(** Index of the element [document.querySelector('[name="n"]')] returns. *)
Fixpoint queryName (n : string) (es : list Element) : option nat :=
  match es with
  | [] => None
  | e :: es' => if hasName n e then Some 0 else option_map S (queryName n es')
  end.

(** Remove the element [parentNode.querySelector('.error-message')] returns,
    if any. *)
Fixpoint removeFirstError (parentNode : nat) (ds : list (nat * string))
    : list (nat * string) :=
  match ds with
  | [] => []
  | d :: ds' =>
      if (fst d =? parentNode)%nat then ds' else d :: removeFirstError parentNode ds'
  end.

Definition withElements (f : list Element -> list Element) (p : Page) : Page :=
  {| elements := f (elements p); errorDivs := errorDivs p;
     submitBtn := submitBtn p; banners := banners p; nextId := nextId p |}.

Definition withErrorDivs (f : list (nat * string) -> list (nat * string)) (p : Page) : Page :=
  {| elements := elements p; errorDivs := f (errorDivs p);
     submitBtn := submitBtn p; banners := banners p; nextId := nextId p |}.

Definition withSubmitBtn (f : option Button -> option Button) (p : Page) : Page :=
  {| elements := elements p; errorDivs := errorDivs p;
     submitBtn := f (submitBtn p); banners := banners p; nextId := nextId p |}.

Definition showFieldError (fieldName : string) (message : string) (p : Page) : Page :=
  match queryName fieldName (elements p) with
  | None => p
  | Some i =>
      match elements p !! i with
      | None => p
      | Some field =>
          withErrorDivs
            (fun ds => removeFirstError (parent field) ds ++ [(parent field, message)])
            (withElements (alter (setBorderColor "#ef4444") i) p)
      end
  end.

(** [field] is the index of the element in [elements]. *)
Definition clearFieldError (field : nat) (p : Page) : Page :=
  match elements p !! field with
  | None => p
  | Some e =>
      withErrorDivs (removeFirstError (parent e))
        (withElements (alter (setBorderColor "") field) p)
  end.

(** [Object.fromEntries(new FormData(form).entries())]: one entry per
    control, a later entry replacing an earlier one of the same name. *)
Definition formData (p : Page) : list (string * jsstring) :=
  map (fun e => (name e, value e)) (List.filter inForm (elements p)).

Definition fromEntries (entries : list (string * jsstring)) : gmap string jsstring :=
  fold_left (fun m kv => <[fst kv := snd kv]> m) entries ∅.

(** [!data[field] || data[field].trim() === ''] *)
Definition missing (v : option jsstring) : bool :=
  match v with
  | None => true
  | Some s => negb (truthy s) || blank s
  end.

Definition requiredFields : list string := ["name"; "email"; "subject"; "message"].

Definition msgRequired : string := "This field is required".
Definition msgEmail : string := "Please enter a valid email address".

Definition validateForm (data : gmap string jsstring) (p : Page) : bool * Page :=
  let r :=
    fold_left
      (fun (acc : bool * Page) field =>
         if missing (data !! field)
         then (false, showFieldError field msgRequired (snd acc))
         else acc)
      requiredFields (true, p) in
  match data !! "email" with
  | Some email =>
      if truthy email && negb (isValidEmail email)
      then (false, showFieldError "email" msgEmail (snd r))
      else r
  | None => r
  end.

Definition validateField (field : nat) (p : Page) : bool * Page :=
  match elements p !! field with
  | None => (true, p)
  | Some e =>
      let value := trim (value e) in
      let fieldName := name e in
      let p1 := clearFieldError field p in
      if required e && negb (truthy value)
      then (false, showFieldError fieldName msgRequired p1)
      else if String.eqb fieldName "email" && truthy value && negb (isValidEmail value)
      then (false, showFieldError fieldName msgEmail p1)
      else (true, p1)
  end.

Definition showFormSuccess (w : World) : World :=
  let successDiv := nextId (dom w) in
  setTimeout (RemoveBanner successDiv) 5000
    (withDom (fun p =>
                {| elements := elements p; errorDivs := errorDivs p;
                   submitBtn := submitBtn p;
                   banners := banners p ++ [successDiv];
                   nextId := S successDiv |}) w).

(** [form.reset()] *)
Definition reset (p : Page) : Page :=
  withElements
    (map (fun e => if inForm e then setValue (defaultValue e) e else e)) p.

Definition quote : string := String (ascii_of_nat 34) EmptyString.

Definition busyLabel : string :=
  String.concat quote ["<i class="; "fas fa-spinner fa-spin"; "></i> Sending..."].

(** The submit listener.  A page without a submit button makes
    [submitBtn.innerHTML] throw, which ends the handler. *)
Definition handleContactForm (w : World) : World :=
  let data := fromEntries (formData (dom w)) in
  let r := validateForm data (dom w) in
  let w1 := withDom (fun _ => snd r) w in
  if negb (fst r) then w1
  else
    match submitBtn (dom w1) with
    | None => w1
    | Some btn =>
        let originalText := innerHTML btn in
        setTimeout (SubmitDone originalText) 2000
          (withDom
             (withSubmitBtn (fun _ => Some {| innerHTML := busyLabel; disabled := true |}))
             w1)
    end.

Definition fire (a : Action) (w : World) : World :=
  match a with
  | SubmitDone originalText =>
      withDom
        (fun p =>
           withSubmitBtn
             (option_map (fun _ => {| innerHTML := originalText; disabled := false |}))
             (reset p))
        (showFormSuccess w)
  | RemoveBanner successDiv =>
      withDom
        (fun p =>
           {| elements := elements p; errorDivs := errorDivs p;
              submitBtn := submitBtn p;
              banners := List.filter (fun b => negb (b =? successDiv)%nat) (banners p);
              nextId := nextId p |})
        w
  end.

(** The blur and input listeners of a control. *)
Definition onBlur (field : nat) (w : World) : World :=
  withDom (fun p => snd (validateField field p)) w.

Definition onInput (field : nat) (typed : jsstring) (w : World) : World :=
  withDom (fun p => clearFieldError field (withElements (alter (setValue typed) field) p)) w.

(** The inline errors shown for the element at index [field]: the texts of
    the [.error-message] elements in its parent node. *)
Definition errorsIn (parentNode : nat) (ds : list (nat * string)) : list string :=
  map snd (List.filter (fun d => (fst d =? parentNode)%nat) ds).

Definition errorsOf (p : Page) (field : nat) : list string :=
  match elements p !! field with
  | None => []
  | Some e => errorsIn (parent e) (errorDivs p)
  end.

Definition fieldValue (p : Page) (field : nat) : jsstring :=
  match elements p !! field with
  | None => []
  | Some e => value e
  end.

(** The page as loaded, and what can happen to it. *)
Definition load (es : list Element) (ds : list (nat * string)) (btn : option Button)
    : World :=
  {| now := 0; pending := [];
     dom := {| elements := es; errorDivs := ds; submitBtn := btn;
               banners := []; nextId := 0 |} |}.

Inductive Event : Type :=
| Submit
| Blur (field : nat)
| Input (field : nat) (typed : jsstring)
| Tick.

Definition step (w : World) (ev : Event) : World :=
  match ev with
  | Submit => handleContactForm w
  | Blur field => onBlur field w
  | Input field typed => onInput field typed w
  | Tick => tick fire w
  end.

Definition run (w : World) (events : list Event) : World := fold_left step events w.

(** *** What the properties ask of the markup *)

(** The control of the contact form named [n] is the element at position
    [i], and no other element of the document carries that name. *)
Definition isField (p : Page) (n : string) (i : nat) : Prop :=
  (exists e, elements p !! i = Some e /\ name e = n /\ inForm e = true) /\
  (forall j e, elements p !! j = Some e -> name e = n -> j = i).

Definition parentOf (p : Page) (i : nat) : option nat :=
  option_map parent (elements p !! i).

(** The four controls exist, each in a parent node of its own. *)
Record Markup (p : Page) (iName iEmail iSubject iMessage : nat) : Prop := {
  markup_name : isField p "name" iName;
  markup_email : isField p "email" iEmail;
  markup_subject : isField p "subject" iSubject;
  markup_message : isField p "message" iMessage;
  markup_parents :
    NoDup [parentOf p iName; parentOf p iEmail; parentOf p iSubject; parentOf p iMessage]
}.

(** *** The email shape in words

    A non-empty local part, an at sign, a non-empty domain part, a full stop
    and a non-empty top-level part, the three parts free of whitespace and
    at signs. *)
Definition emailShape (email : jsstring) : Prop :=
  exists loc dom tld : jsstring,
    email = loc ++ [64%N] ++ dom ++ [46%N] ++ tld /\
    loc <> [] /\ dom <> [] /\ tld <> [] /\
    forallb notSpaceAt loc = true /\
    forallb notSpaceAt dom = true /\
    forallb notSpaceAt tld = true.

(** A field fails validation on submit when it is blank or, for the email
    field, not of the email shape. *)
Definition failing (n : string) (v : jsstring) : bool :=
  blank v || (String.eqb n "email" && negb (isValidEmail v)).


(** What no handler of the form changes in an element. *)
Definition static (e : Element) : string * bool * bool * nat * jsstring :=
  (name e, required e, inForm e, parent e, defaultValue e).

(** [p'] differs from [p] in border colours and error messages at most:
    same controls with the same values, same button, same banners. *)
Definition unchanged (p p' : Page) : Prop :=
  map static (elements p') = map static (elements p) /\
  map value (elements p') = map value (elements p) /\
  submitBtn p' = submitBtn p /\
  banners p' = banners p /\
  nextId p' = nextId p.

(** What [showFieldError] does to the messages of the parent node: the first
    one goes, the new one comes last. *)
Definition replaceError (message : string) (shown : list string) : list string :=
  tl shown ++ [message].

Definition showIf (b : bool) (fieldName message : string) (p : Page) : Page :=
  if b then showFieldError fieldName message p else p.

(** [data.email && !this.isValidEmail(data.email)] *)
Definition badEmail (v : option jsstring) : bool :=
  match v with
  | Some email => truthy email && negb (isValidEmail email)
  | None => false
  end.

End FormManager.

(** ** Animation: reveal on scroll *)

Module AnimationManager.

(** An element of the page with the inline styles the controller writes. *)
Record El : Type := {
  classes : list string;
  opacity : string;
  transform : string;
  transition : string
}.

Record Options : Type := { threshold : Q; rootMargin : string }.

Definition options : Options :=
  {| threshold := 1 # 10; rootMargin := "0px 0px -50px 0px" |}.

(** [observed] is the set of observation targets of [this.observer];
    elements are named by their position in the document. *)
Record t : Type := {
  observerOptions : Options;
  els : list El;
  observed : gset nat
}.

Record Entry : Type := { target : nat; isIntersecting : bool }.

Definition hide (e : El) : El :=
  {| classes := classes e; opacity := "0"; transform := "translateY(30px)";
     transition := "opacity 0.6s ease, transform 0.6s ease" |}.

Definition reveal (e : El) : El :=
  {| classes := classes e; opacity := "1"; transform := "translateY(0)";
     transition := transition e |}.

Definition animateElement (element : nat) (s : t) : t :=
  {| observerOptions := observerOptions s;
     els := alter reveal element (els s);
     observed := observed s ∖ {[element]} |}.

(** The callback handed to [new IntersectionObserver]. *)
Definition callback (entries : list Entry) (s : t) : t :=
  fold_left (fun s' entry =>
               if isIntersecting entry then animateElement (target entry) s' else s')
            entries s.

Definition elementsToObserve : list string :=
  ["project-card"; "timeline-item"; "skill-item"; "contact-method";
   "about-text"; "hero-content"].

(** [document.querySelectorAll('.' + cls)], as positions in document order. *)
Definition querySelectorAll (cls : string) (page : list El) : list nat :=
  List.filter
    (fun i => match page !! i with
              | Some e => ClassList.contains (classes e) cls
              | None => false
              end)
    (seq 0 (length page)).

Definition observeElements (s : t) : t :=
  fold_left
    (fun s1 selector =>
       fold_left
         (fun s2 element =>
            {| observerOptions := observerOptions s2;
               els := alter hide element (els s2);
               observed := observed s2 ∪ {[element]} |})
         (querySelectorAll selector (els s1)) s1)
    elementsToObserve s.

(** [setupIntersectionObserver] on the page as loaded. *)
Definition setupIntersectionObserver (page : list El) : t :=
  observeElements {| observerOptions := options; els := page; observed := ∅ |}.

(** What the browser guarantees of one notification: it reports on current
    observation targets only, one entry for each. *)
Definition delivered (s : t) (entries : list Entry) : Prop :=
  NoDup (map target entries) /\ Forall (fun e => target e ∈ observed s) entries.

(** A series of notifications, each delivered in the state the previous
    ones left. *)
Fixpoint notifications (s : t) (batches : list (list Entry)) : Prop :=
  match batches with
  | [] => True
  | entries :: rest => delivered s entries /\ notifications (callback entries s) rest
  end.

Definition runCallbacks (batches : list (list Entry)) (s : t) : t :=
  fold_left (fun s' entries => callback entries s') batches s.

(** How many times the callback calls [animateElement] on [element] over a
    series of notifications. *)
Definition animations (element : nat) (batches : list (list Entry)) : nat :=
  length (List.filter (fun e => isIntersecting e && (target e =? element)%nat)
                      (concat batches)).

Definition revealed (s : t) (element : nat) : Prop :=
  (element ∉ observed s) /\
  exists e, els s !! element = Some e /\ opacity e = "1" /\ transform e = "translateY(0)".

(** Every observation target is an element of the page. *)
Definition targetsExist (s : t) : Prop :=
  forall element, element ∈ observed s -> element < length (els s).

End AnimationManager.

(** ** Project gallery: filtering *)

Module ProjectGallery.
Import Timers.

(** A [.project-card]; [category] is [dataset.category], absent when the
    card has no [data-category] attribute. *)
Record Card : Type := {
  category : option string;
  display : string;
  opacity : string;
  transform : string
}.

(** A [.filter-btn]; [filter] is [dataset.filter]. *)
Record FilterBtn : Type := { filter : option string; classList : list string }.

Record Page : Type := {
  filterButtons : list FilterBtn;
  projectCards : list Card
}.

Inductive Action : Type :=
| Show (card : nat)
| Hide (card : nat).

Definition World : Type := world Page Action.

Definition withCard (f : Card -> Card) (card : nat) (p : Page) : Page :=
  {| filterButtons := filterButtons p;
     projectCards := alter f card (projectCards p) |}.

Definition setDisplay (d : string) (c : Card) : Card :=
  {| category := category c; display := d; opacity := opacity c;
     transform := transform c |}.

Definition setLook (o t : string) (c : Card) : Card :=
  {| category := category c; display := display c; opacity := o; transform := t |}.

(** The body of [projectCards.forEach] for one card. *)
Definition filterCard (filter : option string) (w : World) (card : nat) : World :=
  match projectCards (dom w) !! card with
  | None => w
  | Some c =>
      if bool_decide (filter = Some "all") || bool_decide (category c = filter)
      then setTimeout (Show card) 50 (withDom (withCard (setDisplay "block") card) w)
      else setTimeout (Hide card) 300 (withDom (withCard (setLook "0" "scale(0.8)") card) w)
  end.

Definition activate (btn : nat) (buttons : list FilterBtn) : list FilterBtn :=
  alter (fun b => {| filter := filter b;
                     classList := ClassList.add "active" (classList b) |})
        btn
        (map (fun b => {| filter := filter b;
                          classList := ClassList.remove "active" (classList b) |})
             buttons).

(** The click listener of the filter button at position [btn]. *)
Definition onClick (btn : nat) (w : World) : World :=
  match filterButtons (dom w) !! btn with
  | None => w
  | Some b =>
      fold_left (filterCard (filter b))
        (seq 0 (length (projectCards (dom w))))
        (withDom (fun p => {| filterButtons := activate btn (filterButtons p);
                              projectCards := projectCards p |}) w)
  end.

Definition fire (a : Action) (w : World) : World :=
  match a with
  | Show card => withDom (withCard (setLook "1" "scale(1)") card) w
  | Hide card => withDom (withCard (setDisplay "none") card) w
  end.

(** The condition of the [if] in the filter loop. *)
Definition shown (filter : option string) (c : Card) : bool :=
  bool_decide (filter = Some "all") || bool_decide (category c = filter).




End ProjectGallery.

(** ** Theme management *)

Module ThemeManager.

(** [dataTheme] is the [data-theme] attribute of the document element. *)
Record t : Type := {
  currentTheme : string;
  dataTheme : option string;
  localStorage : gmap string string
}.

Definition applyTheme (tm : t) : t :=
  {| currentTheme := currentTheme tm;
     dataTheme := Some (currentTheme tm);
     localStorage := localStorage tm |}.

(** [new ThemeManager()] on a freshly loaded document. *)
Definition create (markupTheme : option string) (storage : gmap string string) : t :=
  applyTheme
    {| currentTheme :=
         match storage !! "theme" with
         | Some s => if String.eqb s "" then "light" else s
         | None => "light"
         end;
       dataTheme := markupTheme;
       localStorage := storage |}.

Definition toggleTheme (tm : t) : t :=
  let tm1 :=
    applyTheme
      {| currentTheme := if String.eqb (currentTheme tm) "light" then "dark" else "light";
         dataTheme := dataTheme tm;
         localStorage := localStorage tm |} in
  {| currentTheme := currentTheme tm1;
     dataTheme := dataTheme tm1;
     localStorage := <["theme" := currentTheme tm1]> (localStorage tm1) |}.

(** What can happen to the page: a click on the toggle, a scroll update
    (no scroll listener touches the theme), a reload of the page. *)
Inductive Event : Type :=
| Toggle
| Scroll
| Reload (markupTheme : option string).

Definition step (tm : t) (ev : Event) : t :=
  match ev with
  | Toggle => toggleTheme tm
  | Scroll => tm
  | Reload markupTheme => create markupTheme (localStorage tm)
  end.

Definition known (theme : string) : Prop := theme = "light" \/ theme = "dark".

(** Under its key the storage holds nothing, the empty string, or what the
    script itself writes there. *)
Definition storageOk (storage : gmap string string) : Prop :=
  match storage !! "theme" with
  | Some s => s = "" \/ known s
  | None => True
  end.

Definition run (markupTheme : option string) (storage : gmap string string)
    (events : list Event) : t :=
  fold_left step events (create markupTheme storage).

(** What every step keeps true. *)
Definition themeInv (tm : t) : Prop :=
  known (currentTheme tm) /\
  dataTheme tm = Some (currentTheme tm) /\
  storageOk (localStorage tm).

End ThemeManager.

(** ** Sample pages *)

Module Examples.
Import Timers.

(** Two cards, two filter buttons, nothing pending. *)
Definition gallery : ProjectGallery.World :=
  {| now := 0; pending := [];
     dom :=
       {| ProjectGallery.filterButtons :=
            [ {| ProjectGallery.filter := Some "web"; ProjectGallery.classList := [] |};
              {| ProjectGallery.filter := Some "design"; ProjectGallery.classList := [] |} ];
          ProjectGallery.projectCards :=
            [ {| ProjectGallery.category := Some "web"; ProjectGallery.display := "";
                 ProjectGallery.opacity := ""; ProjectGallery.transform := "" |};
              {| ProjectGallery.category := Some "design"; ProjectGallery.display := "";
                 ProjectGallery.opacity := ""; ProjectGallery.transform := "" |} ] |} |}.


(** A contact form with its four controls, each in a wrapper of its own,
    and a submit button. *)
Definition control (n : string) (v : JS.jsstring) (wrapper : nat) : FormManager.Element :=
  {| FormManager.name := n; FormManager.value := v; FormManager.defaultValue := [];
     FormManager.required := true; FormManager.inForm := true;
     FormManager.parent := wrapper; FormManager.borderColor := "" |}.

Definition contactForm (vName vEmail vSubject vMessage : JS.jsstring)
    : FormManager.World :=
  FormManager.load
    [control "name" vName 10; control "email" vEmail 11;
     control "subject" vSubject 12; control "message" vMessage 13]
    []
    (Some {| FormManager.innerHTML := "Send Message"; FormManager.disabled := false |}).

(** A page of three sections, each 600 px high, in a window 900 px high,
    scrolled by 300 px: the first two sections are half visible, the third
    is below the window. *)
Definition threeSections : Navigation.Viewport :=
  {| Navigation.innerHeight := 900;
     Navigation.pageYOffset := 300;
     Navigation.sections :=
       [ {| Navigation.id := "home"; Navigation.rect := {| top := -300; bottom := 300 |} |};
         {| Navigation.id := "about"; Navigation.rect := {| top := 300; bottom := 900 |} |};
         {| Navigation.id := "contact";
            Navigation.rect := {| top := 900; bottom := 1500 |} |} ] |}.

Definition threeLinks : list Navigation.Link :=
  [ {| Navigation.href := Some "#home"; Navigation.classList := ["nav-link"; "active"] |};
    {| Navigation.href := Some "#about"; Navigation.classList := ["nav-link"] |};
    {| Navigation.href := Some "#contact"; Navigation.classList := ["nav-link"] |} ].

(** A page with a project card and a heading. *)
Definition twoElements : list AnimationManager.El :=
  [ {| AnimationManager.classes := ["project-card"]; AnimationManager.opacity := "";
       AnimationManager.transform := ""; AnimationManager.transition := "" |};
    {| AnimationManager.classes := ["section-title"]; AnimationManager.opacity := "";
       AnimationManager.transform := ""; AnimationManager.transition := "" |} ].

End Examples.

(** ** Utilities: [throttle]

    The function handed to [throttle] is represented by the record of its
    calls: the time of each call and the arguments passed on. *)

Module Throttle.
Import Timers.

Record State (Arg : Type) : Type := {
  inThrottle : bool;
  calls : list (nat * Arg)
}.
Arguments inThrottle {Arg} _.
Arguments calls {Arg} _.

(** The one timer callback: [() => inThrottle = false]. *)
Inductive Action : Type := Release.

Definition World (Arg : Type) : Type := world (State Arg) Action.

(** [throttle(func, limit)], created at time [t0]; [inThrottle] starts
    undefined, which is falsy. *)
Definition create {Arg : Type} (t0 : nat) : World Arg :=
  {| now := t0; pending := []; dom := {| inThrottle := false; calls := [] |} |}.

(** A call of the function [throttle] returns. *)
Definition call {Arg : Type} (limit : nat) (args : Arg) (w : World Arg) : World Arg :=
  if inThrottle (dom w) then w
  else
    setTimeout Release limit
      (withDom (fun s => {| inThrottle := true;
                            calls := calls s ++ [(now w, args)] |}) w).

Definition fire {Arg : Type} (a : Action) (w : World Arg) : World Arg :=
  withDom (fun s => {| inThrottle := false; calls := calls s |}) w.

Inductive Event (Arg : Type) : Type :=
| Call (args : Arg)
| Tick.
Arguments Call {Arg} _.
Arguments Tick {Arg}.

Definition step {Arg : Type} (limit : nat) (w : World Arg) (ev : Event Arg) : World Arg :=
  match ev with
  | Call args => call limit args w
  | Tick => tick fire w
  end.

Definition run {Arg : Type} (limit t0 : nat) (events : list (Event Arg)) : World Arg :=
  fold_left (step limit) events (create t0).

(** The time of the latest call passed on, if any. *)
Definition lastCall {Arg : Type} (s : State Arg) : option nat :=
  option_map fst (List.last (map Some (calls s)) None).

(** Successive calls passed on are at least [limit] apart. *)
Fixpoint spaced {Arg : Type} (limit : nat) (l : list (nat * Arg)) : Prop :=
  match l with
  | [] => True
  | c :: rest =>
      match rest with
      | [] => True
      | c' :: _ => fst c + limit <= fst c'
      end /\ spaced limit rest
  end.

(** What every step keeps true. *)
Definition inv {Arg : Type} (limit : nat) (w : World Arg) : Prop :=
  spaced limit (calls (dom w)) /\
  match lastCall (dom w) with
  | None => inThrottle (dom w) = false /\ pending w = []
  | Some t =>
      if inThrottle (dom w)
      then pending w = [(t + limit, Release)] /\ t <= now w /\
           (now w < t + limit \/ now w = t)
      else pending w = [] /\ t + limit <= now w
  end.

End Throttle.

(** ** Utilities: [debounce]

    The function handed to [debounce] is represented by the record of its
    calls.  [timeout] holds the number [setTimeout] returned, [None] when it
    is undefined or null; timer numbers are positive, hence truthy. *)

Module Debounce.
Import Timers.

Record State (Arg : Type) : Type := {
  timeout : option nat;
  nextTimer : nat;
  calls : list (nat * Arg)
}.
Arguments timeout {Arg} _.
Arguments nextTimer {Arg} _.
Arguments calls {Arg} _.

(** The timer callback [later] of the call that set timer [id] with
    arguments [args]. *)
Inductive Action (Arg : Type) : Type := Later (id : nat) (args : Arg).
Arguments Later {Arg} _ _.

Definition timerId {Arg : Type} (a : Action Arg) : nat :=
  match a with Later id _ => id end.

Definition World (Arg : Type) : Type := world (State Arg) (Action Arg).

Definition create {Arg : Type} (t0 : nat) : World Arg :=
  {| now := t0; pending := [];
     dom := {| timeout := None; nextTimer := 1; calls := [] |} |}.

(** [clearTimeout(timeout)]: nothing happens for undefined or null. *)
Definition clearTimeout {Arg : Type} (id : option nat) (q : list (nat * Action Arg))
    : list (nat * Action Arg) :=
  match id with
  | None => q
  | Some i => List.filter (fun p => negb (timerId (snd p) =? i)%nat) q
  end.

(** A call of [executedFunction]. *)
Definition call {Arg : Type} (wait : nat) (immediate : bool) (args : Arg)
    (w : World Arg) : World Arg :=
  let callNow :=
    immediate && match timeout (dom w) with Some _ => false | None => true end in
  let id := nextTimer (dom w) in
  {| now := now w;
     pending := clearTimeout (timeout (dom w)) (pending w) ++ [(now w + wait, Later id args)];
     dom := {| timeout := Some id;
               nextTimer := S id;
               calls := if callNow then calls (dom w) ++ [(now w, args)]
                        else calls (dom w) |} |}.

Definition fire {Arg : Type} (immediate : bool) (a : Action Arg) (w : World Arg)
    : World Arg :=
  match a with
  | Later _ args =>
      withDom (fun s => {| timeout := None;
                           nextTimer := nextTimer s;
                           calls := if immediate then calls s
                                    else calls s ++ [(now w, args)] |}) w
  end.

Inductive Event (Arg : Type) : Type :=
| Call (args : Arg)
| Tick.
Arguments Call {Arg} _.
Arguments Tick {Arg}.

Definition step {Arg : Type} (wait : nat) (immediate : bool) (w : World Arg)
    (ev : Event Arg) : World Arg :=
  match ev with
  | Call args => call wait immediate args w
  | Tick => tick (fire immediate) w
  end.

Definition run {Arg : Type} (wait : nat) (immediate : bool) (t0 : nat)
    (events : list (Event Arg)) : World Arg :=
  fold_left (step wait immediate) events (create t0).

(** What every step keeps true: the pending timer, if there is one, is the
    one [timeout] names, and it is not overdue. *)
Definition inv {Arg : Type} (w : World Arg) : Prop :=
  match timeout (dom w) with
  | None => pending w = []
  | Some id =>
      exists due args, pending w = [(due, Later id args)] /\ now w <= due
  end.

End Debounce.

(** ** Navigation: the mobile menu *)

Module MobileMenu.

(** [navToggle] and [navMenu] are the class lists of [#nav-toggle] and
    [#nav-menu], [bodyOverflow] is [document.body.style.overflow]. *)
Record t : Type := {
  isMenuOpen : bool;
  navToggle : list string;
  navMenu : list string;
  bodyOverflow : string
}.

(** The constructor leaves the page as the markup has it. *)
Definition create (toggleClasses menuClasses : list string) (overflow : string) : t :=
  {| isMenuOpen := false; navToggle := toggleClasses; navMenu := menuClasses;
     bodyOverflow := overflow |}.

Definition toggleMobileMenu (m : t) : t :=
  let open := negb (isMenuOpen m) in
  {| isMenuOpen := open;
     navToggle := ClassList.toggle "active" (navToggle m);
     navMenu := ClassList.toggle "active" (navMenu m);
     bodyOverflow := if open then "hidden" else "" |}.

Definition closeMobileMenu (m : t) : t :=
  {| isMenuOpen := false;
     navToggle := ClassList.remove "active" (navToggle m);
     navMenu := ClassList.remove "active" (navMenu m);
     bodyOverflow := "" |}.

(** [handleNavClick]: [href] is the attribute of the link clicked,
    [targetFound] tells whether [document.querySelector(href)] returned an
    element (which is then scrolled to); a selector that is not valid makes
    it throw, which ends the handler as a null result does. *)
Definition handleNavClick (href : option string) (targetFound : bool) (m : t) : t :=
  match href with
  | None => m
  | Some h =>
      if negb (String.prefix "#" h) then m
      else if targetFound then closeMobileMenu m else m
  end.

(** The click listener of the document; [inNavbar] is
    [DOM.navbar.contains(e.target)]. *)
Definition onDocumentClick (inNavbar : bool) (m : t) : t :=
  if isMenuOpen m && negb inNavbar then closeMobileMenu m else m.

(** The keydown listener of the document. *)
Definition onKeyDown (key : string) (m : t) : t :=
  if String.eqb key "Escape" && isMenuOpen m then closeMobileMenu m else m.

(** A click runs the listener of the element clicked and then, as the
    event bubbles, the listener of the document. *)
Inductive Event : Type :=
| ClickToggle (inNavbar : bool)
| ClickNavLink (href : option string) (targetFound : bool) (inNavbar : bool)
| ClickElsewhere (inNavbar : bool)
| KeyDown (key : string).

Definition step (m : t) (ev : Event) : t :=
  match ev with
  | ClickToggle inNavbar => onDocumentClick inNavbar (toggleMobileMenu m)
  | ClickNavLink href targetFound inNavbar =>
      onDocumentClick inNavbar (handleNavClick href targetFound m)
  | ClickElsewhere inNavbar => onDocumentClick inNavbar m
  | KeyDown key => onKeyDown key m
  end.

Definition run (toggleClasses menuClasses : list string) (overflow : string)
    (events : list Event) : t :=
  fold_left step events (create toggleClasses menuClasses overflow).

(** The flag, the two classes and the scroll lock agree. *)
Definition synced (m : t) : Prop :=
  ClassList.contains (navToggle m) "active" = isMenuOpen m /\
  ClassList.contains (navMenu m) "active" = isMenuOpen m /\
  (bodyOverflow m = "hidden" <-> isMenuOpen m = true).

End MobileMenu.

(** ** Animation: the typewriter *)

Module Typewriter.
Import JS Timers.

(** [textContent] of [.hero-subtitle], and the variables [text] and [i] of
    the closure. *)
Record State : Type := {
  textContent : jsstring;
  text : jsstring;
  i : nat
}.

Inductive Action : Type := TypeWriter.

(** No state when the page has no [.hero-subtitle]. *)
Definition World : Type := world (option State) Action.

(** [text.charAt(i)]: the empty string beyond the end. *)
Definition charAt (s : jsstring) (k : nat) : jsstring :=
  match s !! k with
  | Some c => [c]
  | None => []
  end.

(** [setupTypewriter] at time [t0]; [subtitle] is the text of the element,
    if the page has one. *)
Definition setupTypewriter (t0 : nat) (subtitle : option jsstring) : World :=
  match subtitle with
  | None => {| now := t0; pending := []; dom := None |}
  | Some txt =>
      setTimeout TypeWriter 1000
        {| now := t0; pending := [];
           dom := Some {| textContent := []; text := txt; i := 0 |} |}
  end.

Definition fire (a : Action) (w : World) : World :=
  match dom w with
  | None => w
  | Some s =>
      if (i s <? length (text s))%nat
      then setTimeout TypeWriter 100
             (withDom (fun _ => Some {| textContent := textContent s ++ charAt (text s) (i s);
                                        text := text s;
                                        i := S (i s) |}) w)
      else w
  end.

Definition shownText (w : World) : jsstring :=
  match dom w with
  | None => []
  | Some s => textContent s
  end.

End Typewriter.

(** ** Performance and accessibility *)

Module PerformanceManager.

(** *** Keyboard navigation

    [elements] are the class lists of the elements of the document, in
    document order; the body is the element at position [bodyIx]. *)
Record Page : Type := {
  elements : list (list string);
  bodyIx : nat
}.

Definition body (p : Page) : list string := default [] (elements p !! bodyIx p).

(** An update of [document.body.classList]. *)
Definition onBody (f : list string -> list string) (p : Page) : Page :=
  {| elements := alter f (bodyIx p) (elements p); bodyIx := bodyIx p |}.

Definition isActiveModal (cl : list string) : bool :=
  ClassList.contains cl "modal" && ClassList.contains cl "active".

(** Remove [active] from the element
    [document.querySelector('.modal.active')] returns, if any. *)
Fixpoint closeFirstModal (els : list (list string)) : list (list string) :=
  match els with
  | [] => []
  | cl :: rest =>
      if isActiveModal cl then ClassList.remove "active" cl :: rest
      else cl :: closeFirstModal rest
  end.

Definition onKeyDown (key : string) (p : Page) : Page :=
  let p1 :=
    if String.eqb key "Tab" then onBody (ClassList.add "keyboard-navigation") p else p in
  if String.eqb key "Escape"
  then {| elements := closeFirstModal (elements p1); bodyIx := bodyIx p1 |}
  else p1.

Definition onMouseDown (p : Page) : Page :=
  onBody (ClassList.remove "keyboard-navigation") p.

Inductive Event : Type :=
| KeyDown (key : string)
| MouseDown.

Definition step (p : Page) (ev : Event) : Page :=
  match ev with
  | KeyDown key => onKeyDown key p
  | MouseDown => onMouseDown p
  end.

Definition run (p : Page) (events : list Event) : Page := fold_left step events p.

Definition isTab (ev : Event) : bool :=
  match ev with KeyDown key => String.eqb key "Tab" | MouseDown => false end.

Definition isEscape (ev : Event) : bool :=
  match ev with KeyDown key => String.eqb key "Escape" | MouseDown => false end.

Definition isMouseDown (ev : Event) : bool :=
  match ev with KeyDown _ => false | MouseDown => true end.

(** The body carries the class [keyboard-navigation]. *)
Definition keyboardMode (p : Page) : bool :=
  ClassList.contains (body p) "keyboard-navigation".

Definition activeModals (p : Page) : nat :=
  length (List.filter isActiveModal (elements p)).

(** *** Lazy images

    An [img] element: the [src] and [data-src] attributes and the class
    list.  Images are named by their position among the images of the
    document. *)
Record Img : Type := {
  src : option string;
  dataSrc : option string;
  classList : list string
}.

Record Lazy : Type := {
  imgs : list Img;
  observed : gset nat
}.

Record Entry : Type := { target : nat; isIntersecting : bool }.

(** [img.src = img.dataset.src]; an absent attribute reads as undefined. *)
Definition loadImg (img : Img) : Img :=
  {| src := Some (match dataSrc img with Some u => u | None => "undefined" end);
     dataSrc := dataSrc img;
     classList := ClassList.remove "lazy" (classList img) |}.

Definition callback (entries : list Entry) (s : Lazy) : Lazy :=
  fold_left
    (fun s' entry =>
       if isIntersecting entry
       then {| imgs := alter loadImg (target entry) (imgs s');
               observed := observed s' ∖ {[target entry]} |}
       else s')
    entries s.

(** [document.querySelectorAll('img[data-src]')] *)
Definition deferred (page : list Img) : list nat :=
  List.filter
    (fun k => match page !! k with
              | Some img => match dataSrc img with Some _ => true | None => false end
              | None => false
              end)
    (seq 0 (length page)).

Definition lazyLoadImages (page : list Img) : Lazy :=
  fold_left (fun s k => {| imgs := imgs s; observed := observed s ∪ {[k]} |})
            (deferred page) {| imgs := page; observed := ∅ |}.

Definition runCallbacks (batches : list (list Entry)) (s : Lazy) : Lazy :=
  fold_left (fun s' entries => callback entries s') batches s.

(** Image [k] is reported as intersecting somewhere in the notifications. *)
Definition intersects (k : nat) (batches : list (list Entry)) : bool :=
  existsb (fun e => isIntersecting e && (target e =? k)%nat) (concat batches).

End PerformanceManager.

(** ** Further notions for the form and the reveal animation *)

Module FormInvariants.
Import Timers FormManager.

(** No parent node holds more than one error message. *)
Definition atMostOne (ds : list (nat * string)) : Prop :=
  forall parentNode, length (errorsIn parentNode ds) <= 1.

(** The form has a text control named [n]. *)
Definition hasControl (n : string) (p : Page) : bool :=
  existsb (fun e => inForm e && hasName n e) (elements p).

Definition isSubmitDone (p : nat * Action) : bool :=
  match snd p with SubmitDone _ => true | RemoveBanner _ => false end.

Definition isDisabled (p : Page) : bool :=
  match submitBtn p with Some b => disabled b | None => false end.

(** A disabled button has the callback of a submit pending, such callbacks
    are due by [deadline], and every pending timer lies in the future. *)
Definition notStuck (deadline : nat) (w : World) : Prop :=
  (isDisabled (dom w) = true -> existsb isSubmitDone (pending w) = true) /\
  Forall (fun p => isSubmitDone p = true -> fst p <= deadline) (pending w) /\
  Forall (fun p => now w < fst p) (pending w).

End FormInvariants.

Module RevealSetup.
Import AnimationManager.

(** The element carries one of the classes [observeElements] looks for. *)
Definition watched (e : El) : bool :=
  existsb (ClassList.contains (classes e)) elementsToObserve.

(** No entry of the notifications reports the element as intersecting. *)
Definition neverIntersects (element : nat) (batches : list (list Entry)) : Prop :=
  Forall (Forall (fun e => isIntersecting e = true -> target e <> element)) batches.

End RevealSetup.

(** ** More sample pages *)

Module MoreExamples.

Definition twoImages : list PerformanceManager.Img :=
  [ {| PerformanceManager.src := None;
       PerformanceManager.dataSrc := Some "assets/images/a.png";
       PerformanceManager.classList := ["lazy"] |};
    {| PerformanceManager.src := Some "assets/images/b.png";
       PerformanceManager.dataSrc := None;
       PerformanceManager.classList := [] |} ].

(** The sample contact form without its subject control. *)
Definition formWithoutSubject (vName vEmail vMessage : JS.jsstring) : FormManager.World :=
  FormManager.load
    [Examples.control "name" vName 10; Examples.control "email" vEmail 11;
     Examples.control "message" vMessage 13]
    []
    (Some {| FormManager.innerHTML := "Send Message"; FormManager.disabled := false |}).

End MoreExamples.

(** * Properties *)

(** ** Strings *)

Section StringFacts.
Import JS.

Lemma trimStart_nil_iff (s : jsstring) : trimStart s = [] <-> forallb is_ws s = true.
Proof.
  induction s as [|c s IH]; simpl; [tauto|].
  destruct (is_ws c); simpl; [exact IH|].
  split; discriminate.
Qed.

Lemma trimStart_suffix (s : jsstring) : exists pre, s = pre ++ trimStart s.
Proof.
  induction s as [|c s [pre IH]]; simpl.
  - now exists [].
  - destruct (is_ws c).
    + exists (c :: pre). simpl. now f_equal.
    + now exists [].
Qed.

(** [s.trim() === ''] holds exactly of the strings made of whitespace. *)
Lemma blank_iff (s : jsstring) : blank s = true <-> forallb is_ws s = true.
Proof.
  unfold blank, trim, trimEnd.
  assert (E : forall l : jsstring, negb (truthy l) = true <-> l = []).
  { intros [|x l]; simpl; split; congruence. }
  rewrite E. split.
  - intros H. apply (f_equal (@rev code_unit)) in H. rewrite rev_involutive in H.
    simpl in H. apply trimStart_nil_iff in H.
    rewrite forallb_forall in H.
    destruct (trimStart_suffix s) as [pre Hpre].
    destruct (trimStart s) as [|c r] eqn:Ets.
    + now apply trimStart_nil_iff.
    + exfalso.
      assert (Hc : is_ws c = true).
      { apply H. apply in_rev. rewrite rev_involutive. now left. }
      clear - Ets Hc.
      induction s as [|x s IH]; simpl in Ets; [discriminate|].
      destruct (is_ws x) eqn:Ex; [auto|]. congruence.
  - intros H. apply trimStart_nil_iff in H. now rewrite H.
Qed.

Lemma truthy_false_iff (s : jsstring) : truthy s = false <-> s = [].
Proof. destruct s; simpl; split; congruence. Qed.
End StringFacts.

(** ** Regular expressions: the matcher decides the language *)

Section RegexFacts.
Import JS Regex.

Lemma nullable_matches (r : regex) : nullable r = true <-> matches r [].
Proof.
  induction r as [| |p|r1 IH1 r2 IH2|r1 IH1 r2 IH2|r IH]; simpl.
  - split; [discriminate|]. intros H; inversion H.
  - split; [constructor|reflexivity].
  - split; [discriminate|]. intros H; inversion H.
  - rewrite andb_true_iff, IH1, IH2. split.
    + intros [H1 H2]. change (@nil code_unit) with (@nil code_unit ++ []).
      now constructor.
    + intros H. inversion H as [| |? ? s1 s2 H1 H2 E1 E2| | | |]; subst.
      apply app_eq_nil in E2 as [-> ->]. now split.
  - rewrite orb_true_iff, IH1, IH2. split.
    + intros [H|H]; [now apply MAltL|now apply MAltR].
    + intros H; inversion H; subst; auto.
  - split; [constructor|reflexivity].
Qed.

Lemma matches_star_cons (r : regex) (c : code_unit) (s : jsstring) :
  matches (Star r) (c :: s) ->
  exists s1 s2, s = s1 ++ s2 /\ matches r (c :: s1) /\ matches (Star r) s2.
Proof.
  intros H. remember (Star r) as r' eqn:Er. remember (c :: s) as s' eqn:Es.
  revert s Es.
  induction H as [| | | | | |r0 s1 s2 H1 _ H2 IH2]; intros t Es; try discriminate.
  injection Er as ->.
  destruct s1 as [|x s1]; simpl in Es.
  - now apply IH2.
  - injection Es as -> <-. now exists s1, s2.
Qed.

Lemma deriv_matches (r : regex) (c : code_unit) (s : jsstring) :
  matches (deriv c r) s <-> matches r (c :: s).
Proof.
  revert s.
  induction r as [| |p|r1 IH1 r2 IH2|r1 IH1 r2 IH2|r IH]; intros s; simpl.
  - split; intros H; inversion H.
  - split; intros H; inversion H.
  - destruct (p c) eqn:Ep; split; intros H; inversion H; subst.
    + now constructor.
    + constructor.
    + congruence.
  - assert (Hseq : matches (Seq (deriv c r1) r2) s ->
                   matches (Seq r1 r2) (c :: s)).
    { intros H. inversion H as [| |? ? s1 s2 H1 H2 E1 E2| | | |]; subst.
      apply IH1 in H1. change (c :: s1 ++ s2) with ((c :: s1) ++ s2).
      now constructor. }
    assert (Hinv : matches (Seq r1 r2) (c :: s) ->
                   matches (Seq (deriv c r1) r2) s \/
                   (matches r1 [] /\ matches (deriv c r2) s)).
    { intros H. inversion H as [| |? ? s1 s2 H1 H2 E1 E2| | | |]; subst.
      destruct s1 as [|x s1]; simpl in E2.
      - right. subst s2. split; [assumption|now apply IH2].
      - injection E2 as -> <-. left. constructor; [now apply IH1|assumption]. }
    destruct (nullable r1) eqn:En.
    + split.
      * intros H. inversion H; subst; [now apply Hseq|].
        apply nullable_matches in En.
        change (c :: s) with ([] ++ c :: s). constructor; [assumption|now apply IH2].
      * intros H. destruct (Hinv H) as [H'|[_ H']];
          [now apply MAltL|now apply MAltR].
    + split; [exact Hseq|].
      intros H. destruct (Hinv H) as [H'|[H' _]]; [assumption|].
      apply nullable_matches in H'. congruence.
  - split.
    + intros H; inversion H; subst;
        [apply MAltL; now apply IH1|apply MAltR; now apply IH2].
    + intros H; inversion H; subst;
        [apply MAltL; now apply IH1|apply MAltR; now apply IH2].
  - split.
    + intros H. inversion H as [| |? ? s1 s2 H1 H2 E1 E2| | | |]; subst.
      apply IH in H1. change (c :: s1 ++ s2) with ((c :: s1) ++ s2).
      now constructor.
    + intros H. apply matches_star_cons in H as (s1 & s2 & -> & H1 & H2).
      constructor; [now apply IH|assumption].
Qed.

Theorem test_matches (r : regex) (s : jsstring) : test r s = true <-> matches r s.
Proof.
  revert r. induction s as [|c s IH]; intros r; simpl.
  - apply nullable_matches.
  - rewrite IH. apply deriv_matches.
Qed.

(** One or more characters of a class. *)
Lemma matches_star_class (p : code_unit -> bool) (s : jsstring) :
  matches (Star (Class p)) s <-> forallb p s = true.
Proof.
  split.
  - intros H. remember (Star (Class p)) as r eqn:Er.
    induction H as [| | | | | |r0 s1 s2 H1 _ H2 IH2]; try discriminate; [reflexivity|].
    injection Er as ->. inversion H1; subst. simpl.
    rewrite IH2 by reflexivity. rewrite andb_true_r. assumption.
  - induction s as [|c s IH]; simpl; intros H; [constructor|].
    apply andb_true_iff in H as [Hc Hs].
    change (c :: s) with ([c] ++ s). constructor; [now constructor|auto].
Qed.

Lemma matches_plus_class (p : code_unit -> bool) (s : jsstring) :
  matches (Plus (Class p)) s <-> s <> [] /\ forallb p s = true.
Proof.
  unfold Plus. split.
  - intros H. inversion H as [| |? ? s1 s2 H1 H2 E1 E2| | | |]; subst.
    inversion H1; subst. apply matches_star_class in H2. simpl.
    split; [discriminate|]. now rewrite H2, andb_true_r.
  - intros [Hne H]. destruct s as [|c s]; [congruence|].
    simpl in H. apply andb_true_iff in H as [Hc Hs].
    change (c :: s) with ([c] ++ s).
    constructor; [now constructor|now apply matches_star_class].
Qed.

Lemma matches_chr (c : code_unit) (s : jsstring) : matches (Chr c) s <-> s = [c].
Proof.
  unfold Chr. split.
  - intros H. inversion H as [|p x Hx| | | | |]; subst.
    apply N.eqb_eq in Hx. now subst.
  - intros ->. constructor. apply N.eqb_refl.
Qed.
End RegexFacts.

(** ** The email check *)

Section EmailFacts.
Import JS Regex FormManager.

Lemma matches_seq (r1 r2 : regex) (s : jsstring) :
  matches (Seq r1 r2) s <->
  exists s1 s2, s = s1 ++ s2 /\ matches r1 s1 /\ matches r2 s2.
Proof.
  split.
  - intros H. inversion H; subst. eauto.
  - intros (s1 & s2 & -> & H1 & H2). now constructor.
Qed.

(** The regular expression accepts exactly the strings of the email shape. *)
Lemma isValidEmail_shape (email : jsstring) :
  isValidEmail email = true <-> emailShape email.
Proof.
  unfold isValidEmail, emailShape, emailRegex. rewrite test_matches. split.
  - intros H.
    apply matches_seq in H as (loc & r1 & -> & Hloc & H).
    apply matches_seq in H as (at_ & r2 & -> & Hat & H).
    apply matches_seq in H as (dom & r3 & -> & Hdom & H).
    apply matches_seq in H as (dot & tld & -> & Hdot & Htld).
    apply matches_chr in Hat as ->. apply matches_chr in Hdot as ->.
    apply matches_plus_class in Hloc as [? ?].
    apply matches_plus_class in Hdom as [? ?].
    apply matches_plus_class in Htld as [? ?].
    exists loc, dom, tld. tauto.
  - intros (loc & dom & tld & -> & Hl & Hd & Ht & Fl & Fd & Ft).
    repeat (apply MSeq);
      try (apply matches_plus_class; split; assumption);
      apply matches_chr; reflexivity.
Qed.

(** A blank value is never a valid email. *)
Lemma isValidEmail_blank (v : jsstring) : blank v = true -> isValidEmail v = false.
Proof.
  intros Hb. apply blank_iff in Hb.
  destruct (isValidEmail v) eqn:E; [|reflexivity].
  apply isValidEmail_shape in E as (loc & dom & tld & -> & Hl & _ & _ & Fl & _).
  destruct loc as [|c loc]; [congruence|].
  simpl in Hb, Fl. unfold notSpaceAt in Fl.
  destruct (is_ws c); simpl in *; congruence.
Qed.
End EmailFacts.

(** ** Class lists *)

Section ClassListFacts.
Import ClassList.

Lemma contains_app (cl1 cl2 : list string) (tok : string) :
  contains (cl1 ++ cl2) tok = contains cl1 tok || contains cl2 tok.
Proof. unfold contains. apply existsb_app. Qed.

Lemma contains_add_same (tok : string) (cl : list string) :
  contains (add tok cl) tok = true.
Proof.
  unfold add. destruct (contains cl tok) eqn:E; [assumption|].
  rewrite contains_app, E. simpl. now rewrite String.eqb_refl.
Qed.

Lemma contains_remove_same (tok : string) (cl : list string) :
  contains (remove tok cl) tok = false.
Proof.
  unfold contains, remove. induction cl as [|t cl IH]; simpl; [reflexivity|].
  destruct (String.eqb tok t) eqn:E; simpl; [assumption|].
  now rewrite E.
Qed.

Lemma contains_toggleForce (tok : string) (force : bool) (cl : list string) :
  contains (toggleForce tok force cl) tok = force.
Proof.
  destruct force; simpl; [apply contains_add_same|apply contains_remove_same].
Qed.
End ClassListFacts.

(** ** Back to top *)

Section BackToTop.
Import ScrollManager.

Lemma Qlt_bool_iff (x y : Q) : JSNum.Qlt_bool x y = true <-> (x < y)%Q.
Proof.
  unfold JSNum.Qlt_bool. rewrite negb_true_iff, <- not_true_iff_false, Qle_bool_iff.
  split; [apply Qnot_le_lt|apply Qlt_not_le].
Qed.

(** C4.  After [updateBackToTop] runs at scroll position [y], the
    back-to-top control carries the class [visible] if and only if
    [y > 500]; at exactly 500 it does not, at 501 it does. *)
Theorem C4_back_to_top_visible_iff_beyond_500 (y : Q) (cl : list string) :
  (exists cl',
      updateBackToTop y (Some cl) = Some cl' /\
      (ClassList.contains cl' "visible" = true <-> (500 < y)%Q)) /\
  (exists cl',
      updateBackToTop 500 (Some cl) = Some cl' /\
      ClassList.contains cl' "visible" = false) /\
  (exists cl',
      updateBackToTop 501 (Some cl) = Some cl' /\
      ClassList.contains cl' "visible" = true).
Proof.
  unfold updateBackToTop. repeat split.
  - eexists. split; [reflexivity|].
    rewrite contains_toggleForce. apply Qlt_bool_iff.
  - eexists. split; [reflexivity|]. now rewrite contains_toggleForce.
  - eexists. split; [reflexivity|]. now rewrite contains_toggleForce.
Qed.
End BackToTop.

(** ** Theme *)

Section Theme.
Import ThemeManager.

Lemma create_inv (markupTheme : option string) (storage : gmap string string) :
  storageOk storage -> themeInv (create markupTheme storage).
Proof.
  unfold storageOk, themeInv, create, applyTheme, known. simpl.
  intros H. split; [|split; [reflexivity|exact H]].
  destruct (storage !! "theme") as [s|]; [|now left].
  destruct H as [->|H]; [now left|].
  destruct (String.eqb_spec s ""); [now left|assumption].
Qed.

Lemma toggleTheme_inv (tm : t) : themeInv (toggleTheme tm).
Proof.
  unfold themeInv, toggleTheme, applyTheme, storageOk, known. simpl.
  rewrite lookup_insert_eq.
  destruct (String.eqb (currentTheme tm) "light"); auto.
Qed.

Lemma step_inv (tm : t) (ev : Event) : themeInv tm -> themeInv (step tm ev).
Proof.
  intros H. destruct ev as [| |m]; simpl.
  - apply toggleTheme_inv.
  - exact H.
  - apply create_inv. apply H.
Qed.

Lemma run_inv (markupTheme : option string) (storage : gmap string string)
    (events : list Event) :
  storageOk storage -> themeInv (run markupTheme storage events).
Proof.
  intros H. unfold run.
  assert (H0 := create_inv markupTheme storage H).
  revert H0. generalize (create markupTheme storage).
  induction events as [|ev events IH]; intros tm Htm; simpl; [exact Htm|].
  apply IH. now apply step_inv.
Qed.

(** C5, as stated, fails: the constructor takes whatever non-empty
    string the storage holds under [theme] as the theme. *)
Lemma C5_counterexample_foreign_stored_value :
  let tm := create None (<["theme" := "blue"]> ∅) in
  currentTheme tm = "blue" /\ dataTheme tm = Some "blue" /\
  ~ known (currentTheme tm).
Proof.
  vm_compute. split; [reflexivity|split; [reflexivity|]].
  intros [H|H]; discriminate H.
Qed.

(** C5, amended.  When the storage holds under [theme] nothing, the empty
    string, [light] or [dark] at load, then after initialization and after
    any series of toggles, scroll updates and reloads the theme of the
    controller is [light] or [dark] and is the value of the [data-theme]
    attribute, and the storage still holds such a value; an absent key
    gives [light] at load; a toggle maps [light] to [dark] and [dark] to
    [light]. *)
Theorem C5_theme_is_light_or_dark (markupTheme : option string)
    (storage : gmap string string) (events : list Event) :
  storageOk storage ->
  let tm := run markupTheme storage events in
  (currentTheme tm = "light" \/ currentTheme tm = "dark") /\
  dataTheme tm = Some (currentTheme tm) /\
  storageOk (localStorage tm) /\
  (storage !! "theme" = None -> currentTheme (create markupTheme storage) = "light") /\
  (currentTheme tm = "light" -> currentTheme (toggleTheme tm) = "dark") /\
  (currentTheme tm = "dark" -> currentTheme (toggleTheme tm) = "light").
Proof.
  intros H tm. destruct (run_inv markupTheme storage events H) as (Hk & Hd & Hs).
  fold tm in Hk, Hd, Hs.
  repeat split; try assumption.
  - unfold create. simpl. now intros ->.
  - unfold toggleTheme. simpl. now intros ->.
  - unfold toggleTheme. simpl. now intros ->.
Qed.

(** A page loaded with an empty storage, toggled twice around a reload. *)
Lemma C5_theme_is_light_or_dark_witness :
  storageOk ∅ /\
  let tm := run None ∅ [Toggle; Scroll; Reload None; Toggle] in
  (currentTheme tm = "light" \/ currentTheme tm = "dark") /\
  dataTheme tm = Some (currentTheme tm) /\
  storageOk (localStorage tm) /\
  ((∅ : gmap string string) !! "theme" = None -> currentTheme (create None ∅) = "light") /\
  (currentTheme tm = "light" -> currentTheme (toggleTheme tm) = "dark") /\
  (currentTheme tm = "dark" -> currentTheme (toggleTheme tm) = "light").
Proof.
  split; [exact I|].
  apply (C5_theme_is_light_or_dark None ∅ [Toggle; Scroll; Reload None; Toggle]).
  exact I.
Defined.
End Theme.

(** ** Navigation: the active section and its link *)

Section ActiveSection.
Import Navigation.

Lemma updateActiveNavLink_href (current : string) (links : list Link) :
  map href (updateActiveNavLink current links) = map href links.
Proof. unfold updateActiveNavLink. rewrite map_map. reflexivity. Qed.

Lemma updateActiveNavLink_marks (current : string) (links : list Link) :
  marks current (updateActiveNavLink current links).
Proof.
  intros l Hl. unfold updateActiveNavLink in Hl.
  apply in_map_iff in Hl as (l0 & <- & _). unfold isActive. simpl.
  destruct (bool_decide_reflect (href l0 = Some (String.append "#" current))) as [E|E].
  - rewrite contains_add_same. tauto.
  - rewrite contains_remove_same. split; [discriminate|]. intros H. now destruct E.
Qed.

(** After an update the active section is the one the loop selected, and
    the link classes agree with it, provided they agreed with the section
    recorded before (or none was recorded yet). *)
Lemma updateActiveSection_spec (vp : Viewport) (nav : t) :
  (forall cur, activeSection nav = Some cur -> marks cur (navLinks nav)) ->
  let nav' := updateActiveSection vp nav in
  activeSection nav' = Some (currentSection vp) /\
  marks (currentSection vp) (navLinks nav') /\
  map href (navLinks nav') = map href (navLinks nav).
Proof.
  intros H. unfold updateActiveSection.
  destruct (bool_decide_reflect (Some (currentSection vp) = activeSection nav)) as [E|E];
    simpl.
  - split; [now symmetry|]. split; [|reflexivity]. apply H. now symmetry.
  - split; [reflexivity|]. split.
    + apply updateActiveNavLink_marks.
    + apply updateActiveNavLink_href.
Qed.

Lemma run_snoc (vp0 : Viewport) (cls : list string) (links : list Link)
    (scrolls : list Viewport) (vp : Viewport) :
  run vp0 cls links (scrolls ++ [vp]) = onScroll vp (run vp0 cls links scrolls).
Proof. unfold run. now rewrite fold_left_app. Qed.

Lemma run_spec (vp0 : Viewport) (cls : list string) (links : list Link)
    (scrolls : list Viewport) :
  let nav := run vp0 cls links scrolls in
  let vp := List.last scrolls vp0 in
  activeSection nav = Some (currentSection vp) /\
  marks (currentSection vp) (navLinks nav) /\
  map href (navLinks nav) = map href links.
Proof.
  induction scrolls as [|vp scrolls IH] using rev_ind.
  - simpl. unfold run, create. simpl.
    apply (updateActiveSection_spec vp0
             {| activeSection := None; scrollThreshold := 100;
                navbar := cls; navLinks := links |}).
    simpl. discriminate.
  - rewrite run_snoc, List.last_last. simpl in IH. destruct IH as (Ha & Hm & Hh).
    unfold onScroll.
    destruct (updateActiveSection_spec vp
                (handleNavbarScroll vp (run vp0 cls links scrolls))) as (Ha' & Hm' & Hh').
    { simpl. intros cur Hcur. rewrite Ha in Hcur. injection Hcur as <-. exact Hm. }
    simpl. split; [exact Ha'|]. split; [exact Hm'|].
    rewrite Hh'. exact Hh.
Qed.

Lemma linksTo_length_href (h : string) (links1 links2 : list Link) :
  map href links1 = map href links2 ->
  length (linksTo h links1) = length (linksTo h links2).
Proof.
  revert links2. induction links1 as [|l1 links1 IH]; intros [|l2 links2] E;
    try discriminate; [reflexivity|].
  injection E as E1 E2. unfold linksTo in *. simpl. rewrite E1.
  destruct (bool_decide (href l2 = Some h)); simpl; auto.
Qed.

Lemma filter_ext_marks (current : string) (links : list Link) :
  marks current links ->
  List.filter isActive links = linksTo (String.append "#" current) links.
Proof.
  intros H. unfold linksTo. apply filter_ext_in. intros l Hl.
  specialize (H l Hl).
  destruct (bool_decide_reflect (href l = Some (String.append "#" current))) as [E|E].
  - now apply H.
  - destruct (isActive l); [|reflexivity]. destruct E. now apply H.
Qed.

(** C6.  On a page whose navigation links have pairwise different targets,
    after the update on load and after every scroll recomputation at most
    one navigation link carries the class [active]. *)
Theorem C6_at_most_one_active_link (vp0 : Viewport) (cls : list string)
    (links : list Link) (scrolls : list Viewport) :
  oneLinkPerTarget links ->
  length (List.filter isActive (navLinks (run vp0 cls links scrolls))) <= 1.
Proof.
  intros H. destruct (run_spec vp0 cls links scrolls) as (_ & Hm & Hh).
  rewrite (filter_ext_marks _ _ Hm).
  rewrite (linksTo_length_href _ _ _ Hh). apply H.
Qed.


End ActiveSection.

(** ** Reveal on scroll *)

Section Reveal.
Import AnimationManager.

Lemma animateElement_length (i : nat) (s : t) :
  length (els (animateElement i s)) = length (els s).
Proof. unfold animateElement. simpl. apply length_alter. Qed.

Lemma callback_cons (entry : Entry) (entries : list Entry) (s : t) :
  callback (entry :: entries) s =
  callback entries
    (if isIntersecting entry then animateElement (target entry) s else s).
Proof. reflexivity. Qed.

Lemma callback_length (entries : list Entry) (s : t) :
  length (els (callback entries s)) = length (els s).
Proof.
  revert s. induction entries as [|entry entries IH]; intros s; [reflexivity|].
  rewrite callback_cons, IH.
  destruct (isIntersecting entry); [apply animateElement_length|reflexivity].
Qed.

Lemma callback_observed_subset (entries : list Entry) (s : t) :
  observed (callback entries s) ⊆ observed s.
Proof.
  revert s. induction entries as [|entry entries IH]; intros s; [set_solver|].
  rewrite callback_cons. etransitivity; [apply IH|].
  destruct (isIntersecting entry); simpl; set_solver.
Qed.

Lemma animateElement_revealed (i : nat) (s : t) :
  i < length (els s) -> revealed (animateElement i s) i.
Proof.
  intros Hi. split; [simpl; set_solver|].
  destruct (lookup_lt_is_Some_2 (els s) i Hi) as [e He].
  exists (reveal e). simpl. rewrite list_lookup_alter_eq, He. now split.
Qed.

(** No call of the callback takes an element out of the revealed state. *)
Lemma callback_revealed (entries : list Entry) (s : t) (i : nat) :
  revealed s i -> revealed (callback entries s) i.
Proof.
  revert s. induction entries as [|entry entries IH]; intros s H; [exact H|].
  rewrite callback_cons. apply IH.
  destruct (isIntersecting entry); [|exact H].
  destruct H as (Hobs & e & He & Ho & Ht).
  split; [simpl; set_solver|].
  destruct (decide (target entry = i)) as [->|Hne].
  - exists (reveal e). simpl. rewrite list_lookup_alter_eq, He. now split.
  - exists e. simpl. rewrite list_lookup_alter_ne by exact Hne. now split.
Qed.

Lemma runCallbacks_revealed (batches : list (list Entry)) (s : t) (i : nat) :
  revealed s i -> revealed (runCallbacks batches s) i.
Proof.
  revert s. induction batches as [|entries batches IH]; intros s H; [exact H|].
  simpl. apply IH. now apply callback_revealed.
Qed.

Lemma callback_reveals (entries : list Entry) (s : t) (i : nat) :
  In {| target := i; isIntersecting := true |} entries ->
  i < length (els s) ->
  revealed (callback entries s) i.
Proof.
  revert s. induction entries as [|entry entries IH]; intros s Hin Hi; [destruct Hin|].
  rewrite callback_cons. destruct Hin as [->|Hin].
  - simpl. apply callback_revealed. now apply animateElement_revealed.
  - apply IH; [exact Hin|].
    destruct (isIntersecting entry); [now rewrite animateElement_length|exact Hi].
Qed.

Lemma callback_targetsExist (entries : list Entry) (s : t) :
  targetsExist s -> targetsExist (callback entries s).
Proof.
  intros H i Hi. rewrite callback_length. apply H.
  now apply (callback_observed_subset entries s).
Qed.

Lemma observeElements_targetsExist (s : t) :
  targetsExist s -> targetsExist (observeElements s).
Proof.
  unfold observeElements. generalize elementsToObserve. intros selectors.
  revert s. induction selectors as [|sel selectors IH]; intros s H; [exact H|].
  simpl. apply IH. clear IH.
  assert (G : forall (l : list nat) (s2 : t),
             targetsExist s2 -> Forall (fun j => j < length (els s2)) l ->
             targetsExist
               (fold_left
                  (fun s2 element =>
                     {| observerOptions := observerOptions s2;
                        els := alter hide element (els s2);
                        observed := observed s2 ∪ {[element]} |}) l s2)).
  { induction l as [|j l IHl]; intros s2 H2 Hl; [exact H2|].
    simpl. inversion Hl as [|? ? Hj Hl']; subst. apply IHl.
    - intros i Hi. simpl in *. rewrite length_alter.
      apply elem_of_union in Hi as [Hi|Hi]; [now apply H2|].
      apply elem_of_singleton in Hi. now subst.
    - simpl. rewrite length_alter. exact Hl'. }
  apply G; [exact H|].
  apply List.Forall_forall. intros j Hj. unfold querySelectorAll in Hj.
  apply filter_In in Hj as [Hj _]. apply in_seq in Hj. lia.
Qed.

Lemma setup_targetsExist (page : list El) :
  targetsExist (setupIntersectionObserver page).
Proof.
  apply observeElements_targetsExist. intros i Hi. simpl in Hi. set_solver.
Qed.

Lemma setup_options (page : list El) :
  observerOptions (setupIntersectionObserver page) = options.
Proof.
  unfold setupIntersectionObserver, observeElements.
  generalize elementsToObserve. intros selectors.
  assert (G : forall s, observerOptions
                          (fold_left
                             (fun s1 selector =>
                                fold_left
                                  (fun s2 element =>
                                     {| observerOptions := observerOptions s2;
                                        els := alter hide element (els s2);
                                        observed := observed s2 ∪ {[element]} |})
                                  (querySelectorAll selector (els s1)) s1)
                             selectors s) = observerOptions s).
  { induction selectors as [|sel selectors IH]; intros s; [reflexivity|].
    simpl. rewrite IH. generalize (querySelectorAll sel (els s)). intros l.
    revert s. induction l as [|j l IHl]; intros s; [reflexivity|].
    simpl. now rewrite IHl. }
  now rewrite G.
Qed.

Lemma runCallbacks_app (b1 b2 : list (list Entry)) (s : t) :
  runCallbacks (b1 ++ b2) s = runCallbacks b2 (runCallbacks b1 s).
Proof. unfold runCallbacks. apply fold_left_app. Qed.

Lemma runCallbacks_targetsExist (batches : list (list Entry)) (s : t) :
  targetsExist s -> targetsExist (runCallbacks batches s).
Proof.
  revert s. induction batches as [|entries batches IH]; intros s H; [exact H|].
  simpl. apply IH. now apply callback_targetsExist.
Qed.

Lemma notifications_app (b1 b2 : list (list Entry)) (s : t) :
  notifications s (b1 ++ b2) <->
  notifications s b1 /\ notifications (runCallbacks b1 s) b2.
Proof.
  revert s. induction b1 as [|entries b1 IH]; intros s; simpl; [tauto|].
  rewrite IH. tauto.
Qed.

Lemma delivered_unobserved (s : t) (entries : list Entry) (i : nat) :
  i ∉ observed s -> delivered s entries ->
  Forall (fun e => target e <> i) entries.
Proof.
  intros Hi [_ H]. eapply List.Forall_impl; [|exact H].
  intros e He E. simpl in He. rewrite E in He. contradiction.
Qed.

(** An element that is no longer observed is in no later notification. *)
Lemma notifications_unobserved (batches : list (list Entry)) (s : t) (i : nat) :
  i ∉ observed s -> notifications s batches ->
  Forall (Forall (fun e => target e <> i)) batches.
Proof.
  revert s. induction batches as [|entries batches IH]; intros s Hi H; [constructor|].
  destruct H as [Hd Hn]. constructor.
  - now apply (delivered_unobserved s).
  - apply (IH (callback entries s)); [|exact Hn].
    intros Hc. apply Hi. now apply (callback_observed_subset entries s).
Qed.

Lemma animations_cons (i : nat) (entries : list Entry) (batches : list (list Entry)) :
  animations i (entries :: batches) =
  animations i [entries] + animations i batches.
Proof.
  unfold animations. simpl. rewrite app_nil_r, List.filter_app. apply length_app.
Qed.

Lemma animations_none (i : nat) (batches : list (list Entry)) :
  Forall (Forall (fun e => target e <> i)) batches -> animations i batches = 0.
Proof.
  induction 1 as [|entries batches He _ IH]; [reflexivity|].
  rewrite animations_cons, IH, Nat.add_0_r.
  unfold animations. simpl. rewrite app_nil_r.
  induction He as [|e entries Hne _ IHe]; [reflexivity|].
  simpl. apply Nat.eqb_neq in Hne. rewrite Hne, andb_false_r. exact IHe.
Qed.

Lemma animations_one_batch (i : nat) (entries : list Entry) :
  NoDup (map target entries) ->
  animations i [entries] <= 1 /\
  (animations i [entries] = 0 \/
   In {| target := i; isIntersecting := true |} entries).
Proof.
  unfold animations. simpl. rewrite app_nil_r.
  induction entries as [|e entries IH]; intros Hnd; [simpl; auto|].
  simpl in Hnd. inversion Hnd as [|? ? Hnot Hnd']; subst.
  specialize (IH Hnd'). simpl.
  destruct (isIntersecting e) eqn:Ei; simpl.
  - destruct (Nat.eqb_spec (target e) i) as [E|E]; simpl.
    + assert (Hz : Forall (fun e' => target e' <> i) entries).
      { apply List.Forall_forall. intros e' He' Et. apply Hnot.
        apply list_elem_of_In, in_map_iff. exists e'. split; [congruence|exact He']. }
      pose proof (animations_none i [entries]) as Hn.
      unfold animations in Hn. simpl in Hn. rewrite app_nil_r in Hn.
      rewrite Hn by (constructor; [exact Hz|constructor]).
      split; [lia|]. right. left. destruct e; simpl in *; congruence.
    + destruct IH as [IH1 [IH2|IH2]]; (split; [exact IH1|]); auto.
  - destruct IH as [IH1 [IH2|IH2]]; (split; [exact IH1|]); auto.
Qed.

Lemma animations_at_most_once (batches : list (list Entry)) (s : t) (i : nat) :
  targetsExist s -> notifications s batches -> animations i batches <= 1.
Proof.
  revert s. induction batches as [|entries batches IH]; intros s Hs H; [unfold animations; simpl; lia|].
  destruct H as [[Hnd Hobs] Hn]. rewrite animations_cons.
  destruct (animations_one_batch i entries Hnd) as [Hle [Hz|Hin]].
  - rewrite Hz. simpl. apply (IH (callback entries s)); [|exact Hn].
    now apply callback_targetsExist.
  - assert (Hi : i < length (els s)).
    { apply Hs. rewrite List.Forall_forall in Hobs. apply (Hobs _ Hin). }
    destruct (callback_reveals entries s i Hin Hi) as [Hun _].
    rewrite (animations_none i batches); [lia|].
    now apply (notifications_unobserved batches (callback entries s)).
Qed.

(** C9.  The observer is created with threshold 10% and a bottom margin of
    -50px.  Over any series of notifications the browser delivers, the
    callback reveals an observed element at most once; from the
    notification in which the element first intersects on, the element is
    unobserved and has the revealed style, whatever notifications follow,
    and none of them is about it. *)
Theorem C9_reveal_fires_at_most_once (page : list El)
    (batches : list (list Entry)) (element : nat) :
  let s0 := setupIntersectionObserver page in
  notifications s0 batches ->
  observerOptions s0 = {| threshold := 1 # 10; rootMargin := "0px 0px -50px 0px" |} /\
  animations element batches <= 1 /\
  forall before entries after,
    batches = before ++ entries :: after ->
    In {| target := element; isIntersecting := true |} entries ->
    revealed (runCallbacks (before ++ [entries]) s0) element /\
    revealed (runCallbacks batches s0) element /\
    Forall (Forall (fun e => target e <> element)) after.
Proof.
  intros s0 H. split; [apply setup_options|]. split.
  - apply (animations_at_most_once batches s0); [apply setup_targetsExist|exact H].
  - intros before entries after -> Hin.
    change (before ++ entries :: after) with (before ++ [entries] ++ after) in *.
    rewrite app_assoc in *.
    apply notifications_app in H as [H1 H2].
    apply notifications_app in H1 as [H0 [[_ Hobs] _]].
    assert (Hr : revealed (runCallbacks (before ++ [entries]) s0) element).
    { rewrite runCallbacks_app. simpl. apply callback_reveals; [exact Hin|].
      apply (runCallbacks_targetsExist before s0 (setup_targetsExist page)).
      rewrite List.Forall_forall in Hobs. apply (Hobs _ Hin). }
    split; [exact Hr|]. split.
    + rewrite runCallbacks_app. now apply runCallbacks_revealed.
    + apply (notifications_unobserved after (runCallbacks (before ++ [entries]) s0) element);
        [apply Hr|exact H2].
Qed.
End Reveal.

(** ** Timers *)

Section TimerFacts.
Import Timers.
Context {D A : Type}.
Variable fire : A -> world D A -> world D A.

Lemma advance_S (n : nat) (w : world D A) :
  advance fire (S n) w = tick fire (advance fire n w).
Proof. reflexivity. Qed.

Lemma advance_add (a b : nat) (w : world D A) :
  advance fire (a + b) w = advance fire b (advance fire a w).
Proof. unfold advance. rewrite Nat.add_comm. apply Nat.iter_add. Qed.

Lemma filter_none {X : Type} (f : X -> bool) (l : list X) :
  Forall (fun x => f x = false) l -> List.filter f l = [].
Proof.
  induction 1 as [|x l Hx _ IH]; [reflexivity|]. simpl. now rewrite Hx.
Qed.

Lemma filter_all {X : Type} (f : X -> bool) (l : list X) :
  Forall (fun x => f x = true) l -> List.filter f l = l.
Proof.
  induction 1 as [|x l Hx _ IH]; [reflexivity|]. simpl. now rewrite Hx, IH.
Qed.

End TimerFacts.

(** ** Project filtering *)

Section Filtering.
Import Timers ProjectGallery.

Local Abbreviation cards w := (projectCards (dom w)).

Lemma fire_frame (a : Action) (w : World) :
  now (fire a w) = now w /\ pending (fire a w) = pending w /\
  filterButtons (dom (fire a w)) = filterButtons (dom w).
Proof. destruct a; simpl; auto. Qed.
















End Filtering.

(** ** The contact form: messages and markup *)

Section FormMessages.
Import JS Timers FormManager.

Lemma map_alter_same {X Y : Type} (f : X -> Y) (g : X -> X) (i : nat) (l : list X) :
  (forall x, f (g x) = f x) -> map f (alter g i l) = map f l.
Proof.
  intros H. revert i. induction l as [|x l IH]; intros [|i]; simpl; try reflexivity.
  - now rewrite H.
  - f_equal. apply (IH i).
Qed.

Lemma unchanged_refl (p : Page) : unchanged p p.
Proof. repeat split. Qed.

Lemma unchanged_trans (p1 p2 p3 : Page) :
  unchanged p1 p2 -> unchanged p2 p3 -> unchanged p1 p3.
Proof.
  intros (A1 & A2 & A3 & A4 & A5) (B1 & B2 & B3 & B4 & B5).
  repeat split; congruence.
Qed.

Lemma showFieldError_unchanged (n msg : string) (p : Page) :
  unchanged p (showFieldError n msg p).
Proof.
  unfold showFieldError. destruct (queryName n (elements p)) as [i|]; [|apply unchanged_refl].
  destruct (elements p !! i) as [e|]; [|apply unchanged_refl].
  repeat split; simpl; apply map_alter_same; reflexivity.
Qed.

Lemma clearFieldError_unchanged (i : nat) (p : Page) :
  unchanged p (clearFieldError i p).
Proof.
  unfold clearFieldError. destruct (elements p !! i) as [e|]; [|apply unchanged_refl].
  repeat split; simpl; apply map_alter_same; reflexivity.
Qed.

(** Lookups see the same static part in unchanged pages. *)
Lemma unchanged_lookup (p p' : Page) (i : nat) (e' : Element) :
  unchanged p p' -> elements p' !! i = Some e' ->
  exists e, elements p !! i = Some e /\ static e = static e' /\ value e = value e'.
Proof.
  intros (Hs & Hv & _) He.
  assert (H1 : map static (elements p) !! i = Some (static e')).
  { rewrite <- Hs. change (map static (elements p')) with (static <$> elements p').
    now rewrite list_lookup_fmap, He. }
  assert (H2 : map value (elements p) !! i = Some (value e')).
  { rewrite <- Hv. change (map value (elements p')) with (value <$> elements p').
    now rewrite list_lookup_fmap, He. }
  change (map static (elements p)) with (static <$> elements p) in H1.
  change (map value (elements p)) with (value <$> elements p) in H2.
  rewrite list_lookup_fmap in H1. rewrite list_lookup_fmap in H2.
  destruct (elements p !! i) as [e|]; [|discriminate].
  simpl in H1, H2. exists e. split; [reflexivity|]. split; congruence.
Qed.

Lemma unchanged_sym (p p' : Page) : unchanged p p' -> unchanged p' p.
Proof. intros (A1 & A2 & A3 & A4 & A5). repeat split; congruence. Qed.

Lemma unchanged_parentOf (p p' : Page) (i : nat) :
  unchanged p p' -> parentOf p' i = parentOf p i.
Proof.
  intros H. unfold parentOf.
  destruct (elements p' !! i) as [e'|] eqn:E'.
  - destruct (unchanged_lookup p p' i e' H E') as (e & -> & Hs & _).
    simpl. unfold static in Hs. congruence.
  - destruct (elements p !! i) as [e|] eqn:E; [|reflexivity].
    destruct (unchanged_lookup p' p i e (unchanged_sym _ _ H) E) as (e' & He' & _).
    congruence.
Qed.

Lemma unchanged_isField (p p' : Page) (n : string) (i : nat) :
  unchanged p p' -> isField p n i -> isField p' n i.
Proof.
  intros H [(e & He & Hn & Hf) Hu]. split.
  - destruct (unchanged_lookup p' p i e (unchanged_sym _ _ H) He) as (e' & He' & Hs & _).
    exists e'. unfold static in Hs. split; [exact He'|]. split; congruence.
  - intros j e' He' Hn'.
    destruct (unchanged_lookup p p' j e' H He') as (e0 & He0 & Hs & _).
    apply (Hu j e0 He0). unfold static in Hs. congruence.
Qed.

(** [querySelector] finds the control that alone carries the name. *)
Lemma queryName_isField (p : Page) (n : string) (i : nat) :
  isField p n i -> queryName n (elements p) = Some i.
Proof.
  intros [(e & He & Hn & _) Hu]. revert i e He Hn Hu.
  generalize (elements p). intros es.
  induction es as [|e0 es IH]; intros i e He Hn Hu; [discriminate|].
  simpl. unfold hasName. destruct (String.eqb_spec (name e0) n) as [E0|E0].
  - f_equal. apply (Hu 0 e0); [reflexivity|exact E0].
  - destruct i as [|i]; [simpl in He; congruence|].
    simpl in He. rewrite (IH i e He Hn); [reflexivity|].
    intros j e' He' Hn'. specialize (Hu (S j) e' He' Hn'). lia.
Qed.

Lemma errorsIn_removeFirst_same (k : nat) (ds : list (nat * string)) :
  errorsIn k (removeFirstError k ds) = tl (errorsIn k ds).
Proof.
  unfold errorsIn. induction ds as [|d ds IH]; simpl; [reflexivity|].
  destruct (Nat.eqb_spec (fst d) k) as [E|E]; simpl; [reflexivity|].
  apply Nat.eqb_neq in E. now rewrite E.
Qed.

Lemma errorsIn_removeFirst_other (k k' : nat) (ds : list (nat * string)) :
  k' <> k -> errorsIn k' (removeFirstError k ds) = errorsIn k' ds.
Proof.
  intros Hne. unfold errorsIn. induction ds as [|d ds IH]; simpl; [reflexivity|].
  destruct (Nat.eqb_spec (fst d) k) as [E|E]; simpl.
  - assert (E' : (fst d =? k')%nat = false) by (apply Nat.eqb_neq; congruence).
    now rewrite E'.
  - destruct (fst d =? k')%nat; simpl; now rewrite IH.
Qed.

Lemma errorsIn_snoc (k k' : nat) (m : string) (ds : list (nat * string)) :
  errorsIn k' (ds ++ [(k, m)]) =
  errorsIn k' ds ++ (if (k =? k')%nat then [m] else []).
Proof.
  unfold errorsIn. rewrite List.filter_app, map_app. simpl.
  now destruct (k =? k')%nat.
Qed.

(** The messages of a field after [showFieldError] on the field named
    [n]: replaced in the parent node of that field, untouched in every
    other parent node. *)
Lemma showFieldError_errors (p : Page) (n msg : string) (i j : nat) :
  isField p n i ->
  errorsOf (showFieldError n msg p) j =
  if bool_decide (parentOf p j = parentOf p i)
  then replaceError msg (errorsOf p j) else errorsOf p j.
Proof.
  intros Hf. pose proof (showFieldError_unchanged n msg p) as Hu.
  pose proof (unchanged_parentOf _ _ j Hu) as Hpj.
  unfold showFieldError in *. rewrite (queryName_isField p n i Hf) in *.
  destruct Hf as [(e & He & _) _]. rewrite He in *.
  unfold errorsOf, parentOf in *. simpl in *. rewrite He. simpl.
  destruct (alter (setBorderColor "#ef4444") i (elements p) !! j) as [e'|] eqn:E';
    destruct (elements p !! j) as [ej|] eqn:Ej; simpl in *; try discriminate.
  - injection Hpj as ->. rewrite errorsIn_snoc.
    destruct (bool_decide_reflect (Some (parent ej) = Some (parent e))) as [E|E].
    + injection E as ->. rewrite errorsIn_removeFirst_same, Nat.eqb_refl. reflexivity.
    + assert (Hne : parent ej <> parent e) by congruence.
      rewrite errorsIn_removeFirst_other by exact Hne.
      assert (E2 : (parent e =? parent ej)%nat = false) by (apply Nat.eqb_neq; congruence).
      rewrite E2. apply app_nil_r.
  - reflexivity.
Qed.

Lemma fromEntries_snoc (es : list (string * jsstring)) (kv : string * jsstring) :
  fromEntries (es ++ [kv]) = <[fst kv := snd kv]> (fromEntries es).
Proof. unfold fromEntries. now rewrite fold_left_app. Qed.

Lemma fromEntries_unique (es : list (string * jsstring)) (k : string) (v : jsstring) :
  In (k, v) es -> (forall v', In (k, v') es -> v' = v) ->
  fromEntries es !! k = Some v.
Proof.
  induction es as [|[k' v'] es IH] using rev_ind; intros Hin Hu; [destruct Hin|].
  rewrite fromEntries_snoc. simpl.
  destruct (decide (k' = k)) as [->|Hne].
  - rewrite lookup_insert_eq. f_equal. apply Hu. apply in_or_app. right. now left.
  - rewrite lookup_insert_ne by exact Hne. apply IH.
    + apply in_app_or in Hin as [Hin|[Hin|[]]]; [exact Hin|congruence].
    + intros v0 Hv0. apply Hu. apply in_or_app. now left.
Qed.

(** The form data holds, under the name of a control, its value. *)
Lemma data_isField (p : Page) (n : string) (i : nat) :
  isField p n i -> fromEntries (formData p) !! n = Some (fieldValue p i).
Proof.
  intros [(e & He & Hn & Hf) Hu]. unfold fieldValue. rewrite He.
  apply fromEntries_unique.
  - unfold formData. apply in_map_iff. exists e. split; [now rewrite Hn|].
    apply filter_In. split; [|exact Hf].
    apply list_elem_of_In. now apply list_elem_of_lookup_2 in He.
  - intros v' Hv'. unfold formData in Hv'.
    apply in_map_iff in Hv' as (e' & Ee' & Hin'). apply filter_In in Hin' as [Hin' _].
    apply list_elem_of_In, list_elem_of_lookup_1 in Hin' as [j Hj].
    injection Ee' as En' <-.
    assert (j = i) by (now apply (Hu j e')). subst j. congruence.
Qed.

Lemma missing_Some (v : jsstring) : missing (Some v) = blank v.
Proof. destruct v; reflexivity. Qed.

(** [validateForm] as a chain of conditional [showFieldError] calls. *)
Lemma validateForm_unfold (data : gmap string jsstring) (p : Page) :
  validateForm data p =
  (negb (missing (data !! "name") || missing (data !! "email")
         || missing (data !! "subject") || missing (data !! "message")
         || badEmail (data !! "email")),
   showIf (badEmail (data !! "email")) "email" msgEmail
     (showIf (missing (data !! "message")) "message" msgRequired
        (showIf (missing (data !! "subject")) "subject" msgRequired
           (showIf (missing (data !! "email")) "email" msgRequired
              (showIf (missing (data !! "name")) "name" msgRequired p))))).
Proof.
  unfold validateForm, requiredFields, badEmail, showIf. cbn [fold_left fst snd].
  destruct (data !! "email") as [email|];
    repeat match goal with
           | |- context [if ?b then _ else _] => destruct b; cbn [fst snd]
           end; reflexivity.
Qed.

Lemma showIf_unchanged (b : bool) (n msg : string) (p : Page) :
  unchanged p (showIf b n msg p).
Proof. destruct b; [apply showFieldError_unchanged|apply unchanged_refl]. Qed.

Lemma showIf_errors (p0 p : Page) (b : bool) (n msg : string) (i j : nat) :
  unchanged p0 p -> isField p0 n i ->
  errorsOf (showIf b n msg p) j =
  if b && bool_decide (parentOf p0 j = parentOf p0 i)
  then replaceError msg (errorsOf p j) else errorsOf p j.
Proof.
  intros Hu Hf. destruct b; [|reflexivity]. simpl.
  rewrite (showFieldError_errors p n msg i j) by (now apply (unchanged_isField p0 p)).
  now rewrite !(unchanged_parentOf p0 p).
Qed.

Lemma Markup_parents (p : Page) (iN iE iS iM : nat) :
  Markup p iN iE iS iM ->
  parentOf p iN <> parentOf p iE /\ parentOf p iN <> parentOf p iS /\
  parentOf p iN <> parentOf p iM /\ parentOf p iE <> parentOf p iS /\
  parentOf p iE <> parentOf p iM /\ parentOf p iS <> parentOf p iM.
Proof.
  intros [_ _ _ _ H].
  apply NoDup_cons in H as [H1 H]. apply NoDup_cons in H as [H2 H].
  apply NoDup_cons in H as [H3 _].
  repeat split; intros E; rewrite E in *; set_solver.
Qed.

(** What the validation of a submit returns and shows. *)
Lemma validateForm_spec (p : Page) (iN iE iS iM : nat) :
  Markup p iN iE iS iM ->
  let vN := fieldValue p iN in
  let vE := fieldValue p iE in
  let vS := fieldValue p iS in
  let vM := fieldValue p iM in
  let r := validateForm (fromEntries (formData p)) p in
  fst r = negb (blank vN || blank vE || blank vS || blank vM
                || truthy vE && negb (isValidEmail vE)) /\
  unchanged p (snd r) /\
  errorsOf (snd r) iN =
    (if blank vN then replaceError msgRequired (errorsOf p iN) else errorsOf p iN) /\
  errorsOf (snd r) iE =
    (let shown := if blank vE then replaceError msgRequired (errorsOf p iE)
                  else errorsOf p iE in
     if truthy vE && negb (isValidEmail vE) then replaceError msgEmail shown
     else shown) /\
  errorsOf (snd r) iS =
    (if blank vS then replaceError msgRequired (errorsOf p iS) else errorsOf p iS) /\
  errorsOf (snd r) iM =
    (if blank vM then replaceError msgRequired (errorsOf p iM) else errorsOf p iM).
Proof.
  intros Hm vN vE vS vM r. subst r. rewrite validateForm_unfold.
  destruct (Markup_parents p iN iE iS iM Hm) as (D1 & D2 & D3 & D4 & D5 & D6).
  destruct Hm as [HN HE HS HM _].
  rewrite (data_isField p "name" iN HN), (data_isField p "email" iE HE),
    (data_isField p "subject" iS HS), (data_isField p "message" iM HM).
  rewrite !missing_Some. fold vN vE vS vM. cbn [fst snd badEmail].
  set (p1 := showIf (blank vN) "name" msgRequired p).
  set (p2 := showIf (blank vE) "email" msgRequired p1).
  set (p3 := showIf (blank vS) "subject" msgRequired p2).
  set (p4 := showIf (blank vM) "message" msgRequired p3).
  assert (U1 : unchanged p p1) by apply showIf_unchanged.
  assert (U2 : unchanged p p2)
    by (eapply unchanged_trans; [exact U1|apply showIf_unchanged]).
  assert (U3 : unchanged p p3)
    by (eapply unchanged_trans; [exact U2|apply showIf_unchanged]).
  assert (U4 : unchanged p p4)
    by (eapply unchanged_trans; [exact U3|apply showIf_unchanged]).
  split; [reflexivity|].
  split; [eapply unchanged_trans; [exact U4|apply showIf_unchanged]|].
  repeat split;
    rewrite (showIf_errors p p4 _ _ _ iE _ U4 HE);
    subst p4; rewrite (showIf_errors p p3 _ _ _ iM _ U3 HM);
    subst p3; rewrite (showIf_errors p p2 _ _ _ iS _ U2 HS);
    subst p2; rewrite (showIf_errors p p1 _ _ _ iE _ U1 HE);
    subst p1; rewrite (showIf_errors p p _ _ _ iN _ (unchanged_refl p) HN);
    rewrite ?(bool_decide_eq_true_2 (parentOf p iN = parentOf p iN) eq_refl),
      ?(bool_decide_eq_true_2 (parentOf p iE = parentOf p iE) eq_refl),
      ?(bool_decide_eq_true_2 (parentOf p iS = parentOf p iS) eq_refl),
      ?(bool_decide_eq_true_2 (parentOf p iM = parentOf p iM) eq_refl),
      ?(bool_decide_eq_false_2 (parentOf p iN = parentOf p iE)),
      ?(bool_decide_eq_false_2 (parentOf p iN = parentOf p iS)),
      ?(bool_decide_eq_false_2 (parentOf p iN = parentOf p iM)),
      ?(bool_decide_eq_false_2 (parentOf p iE = parentOf p iN)),
      ?(bool_decide_eq_false_2 (parentOf p iE = parentOf p iS)),
      ?(bool_decide_eq_false_2 (parentOf p iE = parentOf p iM)),
      ?(bool_decide_eq_false_2 (parentOf p iS = parentOf p iN)),
      ?(bool_decide_eq_false_2 (parentOf p iS = parentOf p iE)),
      ?(bool_decide_eq_false_2 (parentOf p iS = parentOf p iM)),
      ?(bool_decide_eq_false_2 (parentOf p iM = parentOf p iN)),
      ?(bool_decide_eq_false_2 (parentOf p iM = parentOf p iE)),
      ?(bool_decide_eq_false_2 (parentOf p iM = parentOf p iS));
    rewrite ?andb_true_r, ?andb_false_r; try congruence; reflexivity.
Qed.
End FormMessages.

(** ** The contact form: a submit that fails validation *)

Section FormRejected.
Import JS Timers FormManager.

Lemma in_replaceError (msg : string) (l : list string) : In msg (replaceError msg l).
Proof. unfold replaceError. apply in_or_app. right. now left. Qed.

(** A submit that fails validation ends the handler there. *)
Lemma handleContactForm_invalid (w : World) :
  fst (validateForm (fromEntries (formData (dom w))) (dom w)) = false ->
  handleContactForm w =
  withDom (fun _ => snd (validateForm (fromEntries (formData (dom w))) (dom w))) w.
Proof. intros H. unfold handleContactForm. now rewrite H. Qed.

(** C1.  On a page with the four controls, each in a parent node of its
    own, a submit with at least one of the four values empty ends before
    any busy state or timer: the pending timers, the values of the
    controls, the submit button and the banners are as before, and every
    field that fails validation has an inline error in its parent node. *)
Theorem C1_submit_with_empty_field_aborts (w : World) (iN iE iS iM : nat) :
  Markup (dom w) iN iE iS iM ->
  (exists i, In i [iN; iE; iS; iM] /\ fieldValue (dom w) i = []) ->
  let w' := handleContactForm w in
  now w' = now w /\
  pending w' = pending w /\
  map value (elements (dom w')) = map value (elements (dom w)) /\
  submitBtn (dom w') = submitBtn (dom w) /\
  banners (dom w') = banners (dom w) /\
  forall n i,
    In (n, i) [("name", iN); ("email", iE); ("subject", iS); ("message", iM)] ->
    failing n (fieldValue (dom w) i) = true ->
    exists msg, (msg = msgRequired \/ msg = msgEmail) /\
                In msg (errorsOf (dom w') i).
Proof.
  intros Hm (i0 & Hi0 & Hv0) w'.
  destruct (validateForm_spec (dom w) iN iE iS iM Hm) as (Hr & Hu & EN & EE & ES & EM).
  assert (Hfalse : fst (validateForm (fromEntries (formData (dom w))) (dom w)) = false).
  { rewrite Hr. apply negb_false_iff.
    destruct Hi0 as [<-|[<-|[<-|[<-|[]]]]]; rewrite Hv0; simpl;
      rewrite ?orb_true_r; reflexivity. }
  subst w'. rewrite (handleContactForm_invalid w Hfalse). simpl.
  destruct Hu as (_ & U2 & U3 & U4 & _).
  repeat (split; [assumption || reflexivity|]).
  intros n i Hin Hfail.
  destruct Hin as [E|[E|[E|[E|[]]]]]; injection E as <- <-; unfold failing in Hfail;
    simpl in Hfail; rewrite ?orb_false_r in Hfail.
  - rewrite EN, Hfail. exists msgRequired. split; [now left|apply in_replaceError].
  - rewrite EE. cbv zeta.
    destruct (truthy (fieldValue (dom w) iE) && negb (isValidEmail (fieldValue (dom w) iE)))
      eqn:Hbad.
    + exists msgEmail. split; [now right|apply in_replaceError].
    + assert (Hb : blank (fieldValue (dom w) iE) = true).
      { destruct (blank (fieldValue (dom w) iE)) eqn:Hb; [reflexivity|].
        simpl in Hfail. rewrite Hfail, andb_true_r in Hbad.
        apply truthy_false_iff in Hbad. rewrite Hbad in Hb. discriminate. }
      rewrite Hb. exists msgRequired. split; [now left|apply in_replaceError].
  - rewrite ES, Hfail. exists msgRequired. split; [now left|apply in_replaceError].
  - rewrite EM, Hfail. exists msgRequired. split; [now left|apply in_replaceError].
Qed.
End FormRejected.

(** ** The contact form: a submit that passes validation *)

Section FormAccepted.
Import JS Timers FormManager.



(** *** What one callback does *)






(** *** What one tick does *)

Section Invariant.
Variable P : World -> Prop.
Variable R : Action -> Prop.
Hypothesis P_fire : forall a w, R a -> P w -> P (fire a w).
Hypothesis P_base : forall w t q,
    P w -> incl q (pending w) -> P {| now := t; pending := q; dom := dom w |}.

Lemma fold_fire_inv (l : list (nat * Action)) (w : World) :
  Forall (fun p => R (snd p)) l -> P w ->
  P (fold_left (fun w' p => fire (snd p) w') l w).
Proof.
  intros Hl. revert w. induction Hl as [|p l Hp _ IH]; intros w Hw; [exact Hw|].
  simpl. apply IH. now apply P_fire.
Qed.



End Invariant.

(** *** Banner numbers stay fresh *)








(** *** The submit and its two timers *)



End FormAccepted.

(** ** The contact form: email shape and whitespace *)

Section FormEmail.
Import JS Timers FormManager.

Lemma contactForm_Markup (vN vE vS vM : jsstring) :
  Markup (dom (Examples.contactForm vN vE vS vM)) 0 1 2 3.
Proof.
  assert (F : forall n i,
             In (n, i) [("name", 0); ("email", 1); ("subject", 2); ("message", 3)] ->
             isField (dom (Examples.contactForm vN vE vS vM)) n i).
  { intros n i Hin. split.
    - destruct Hin as [E|[E|[E|[E|[]]]]]; injection E as <- <-;
        eexists; (split; [reflexivity|split; reflexivity]).
    - intros [|[|[|[|j]]]] e He Hn; simpl in He; try discriminate;
        injection He as <-; simpl in Hn; subst n;
        destruct Hin as [E|[E|[E|[E|[]]]]]; try discriminate E;
        injection E as <-; reflexivity. }
  split; try (apply F; simpl; tauto).
  simpl. repeat constructor; set_solver.
Qed.

(** C2, as stated, fails: a name of one space is not empty, yet the
    submit shows the required-field error on the name field too. *)
Lemma C2_counterexample_whitespace_name :
  let w := Examples.contactForm (lit " ") (lit "abc") (lit "Hi") (lit "Hello") in
  fieldValue (dom w) 0 <> [] /\ fieldValue (dom w) 2 <> [] /\
  fieldValue (dom w) 3 <> [] /\
  isValidEmail (fieldValue (dom w) 1) = false /\
  errorsOf (dom w) 0 = [] /\
  errorsOf (dom (handleContactForm w)) 0 = [msgRequired] /\
  errorsOf (dom (handleContactForm w)) 1 = [msgEmail].
Proof.
  vm_compute. repeat split; discriminate.
Qed.

(** C2, amended.  On a page with the four controls, each in a parent node
    of its own, a submit in which name, subject and message are not blank
    (not empty after trimming) and the email value is not of the email
    shape is blocked: no timer is set, values, button and banners stay as
    they are.  The parent node of the email field gets an inline error as
    its last message (the email message for a value that is not blank, the
    required message for an empty one), and the messages shown for the
    other three fields are those shown before the submit. *)
Theorem C2_bad_email_blocks_with_error_on_email_only (w : World)
    (iN iE iS iM : nat) :
  Markup (dom w) iN iE iS iM ->
  blank (fieldValue (dom w) iN) = false ->
  blank (fieldValue (dom w) iS) = false ->
  blank (fieldValue (dom w) iM) = false ->
  ~ emailShape (fieldValue (dom w) iE) ->
  let w' := handleContactForm w in
  now w' = now w /\
  pending w' = pending w /\
  map value (elements (dom w')) = map value (elements (dom w)) /\
  submitBtn (dom w') = submitBtn (dom w) /\
  banners (dom w') = banners (dom w) /\
  (exists shown msg,
      errorsOf (dom w') iE = shown ++ [msg] /\
      (msg = msgRequired \/ msg = msgEmail) /\
      (blank (fieldValue (dom w) iE) = false -> msg = msgEmail) /\
      (fieldValue (dom w) iE = [] -> msg = msgRequired)) /\
  errorsOf (dom w') iN = errorsOf (dom w) iN /\
  errorsOf (dom w') iS = errorsOf (dom w) iS /\
  errorsOf (dom w') iM = errorsOf (dom w) iM.
Proof.
  intros Hm HN HS HM HE w'.
  assert (Hinv : isValidEmail (fieldValue (dom w) iE) = false).
  { destruct (isValidEmail (fieldValue (dom w) iE)) eqn:E; [|reflexivity].
    destruct HE. now apply isValidEmail_shape. }
  destruct (validateForm_spec (dom w) iN iE iS iM Hm) as (Hr & Hu & EN & EE & ES & EM).
  rewrite HN in EN. rewrite HS in ES. rewrite HM in EM.
  rewrite HN, HS, HM, Hinv in Hr. rewrite Hinv in EE. cbv zeta in EE.
  simpl in Hr, EE. rewrite andb_true_r in Hr, EE. rewrite orb_false_r in Hr.
  assert (Hfalse : fst (validateForm (fromEntries (formData (dom w))) (dom w)) = false).
  { rewrite Hr. destruct (fieldValue (dom w) iE) as [|c v]; [reflexivity|].
    simpl. now rewrite orb_true_r. }
  subst w'. rewrite (handleContactForm_invalid w Hfalse). simpl.
  destruct Hu as (_ & U2 & U3 & U4 & _).
  repeat (split; [assumption || reflexivity|]).
  split; [|now repeat split].
  rewrite EE. destruct (fieldValue (dom w) iE) as [|c v] eqn:Ev.
  - simpl. unfold replaceError. exists (tl (errorsOf (dom w) iE)), msgRequired.
    repeat split; auto. discriminate.
  - simpl. unfold replaceError. eexists _, msgEmail.
    repeat split; auto. discriminate.
Qed.

(** The sample form with the email value [abc]. *)
Lemma C2_bad_email_blocks_with_error_on_email_only_witness :
  let w := Examples.contactForm (lit "Ann") (lit "abc") (lit "Hi") (lit "Hello") in
  Markup (dom w) 0 1 2 3 /\
  blank (fieldValue (dom w) 0) = false /\
  ~ emailShape (fieldValue (dom w) 1) /\
  errorsOf (dom (handleContactForm w)) 0 = errorsOf (dom w) 0.
Proof.
  intros w.
  assert (Hm : Markup (dom w) 0 1 2 3) by apply contactForm_Markup.
  assert (HE : ~ emailShape (fieldValue (dom w) 1)).
  { intros H. apply isValidEmail_shape in H. vm_compute in H. discriminate H. }
  split; [exact Hm|]. split; [reflexivity|]. split; [exact HE|].
  apply (C2_bad_email_blocks_with_error_on_email_only w 0 1 2 3 Hm
           eq_refl eq_refl eq_refl HE).
Defined.

(** On blur, a required control with a blank value gets the required
    message. *)
Lemma validateField_blank (p : Page) (i : nat) (e : Element) :
  elements p !! i = Some e ->
  isField p (name e) i ->
  required e = true ->
  blank (value e) = true ->
  fst (validateField i p) = false /\
  exists shown, errorsOf (snd (validateField i p)) i = shown ++ [msgRequired].
Proof.
  intros He Hf Hr Hb. unfold validateField. rewrite He, Hr.
  unfold blank in Hb. apply negb_true_iff in Hb. rewrite Hb. simpl.
  split; [reflexivity|].
  rewrite (showFieldError_errors (clearFieldError i p) (name e) msgRequired i i).
  - rewrite bool_decide_eq_true_2 by reflexivity. unfold replaceError. eauto.
  - apply (unchanged_isField p); [apply clearFieldError_unchanged|exact Hf].
Qed.

(** C10 at the failing input.  The email control holds one no-break
    space (code 160), or one space; the other fields are filled in.  The
    value is blank, and on blur the field shows the required message.  On
    submit the required message is shown and at once replaced: the field
    ends with the email message alone. *)
Theorem C10_blank_email_on_submit_shows_email_message :
  let w := Examples.contactForm (lit "Ann") [160%N] (lit "Hi") (lit "Hello") in
  let w' := Examples.contactForm (lit "Ann") (lit " ") (lit "Hi") (lit "Hello") in
  blank (fieldValue (dom w) 1) = true /\
  errorsOf (dom (onBlur 1 w)) 1 = [msgRequired] /\
  errorsOf (dom (handleContactForm w)) 1 = [msgEmail] /\
  blank (fieldValue (dom w') 1) = true /\
  errorsOf (dom (onBlur 1 w')) 1 = [msgRequired] /\
  errorsOf (dom (handleContactForm w')) 1 = [msgEmail].
Proof. vm_compute. repeat split. Qed.
End FormEmail.

(** ** Sample runs *)

Section SampleRuns.
Import JS Timers.

(** The sample form with an empty name. *)
Lemma C1_submit_with_empty_field_aborts_witness :
  let w := Examples.contactForm [] (lit "ann@example.org") (lit "Hi") (lit "Hello") in
  FormManager.Markup (dom w) 0 1 2 3 /\
  (exists i, In i [0; 1; 2; 3] /\ FormManager.fieldValue (dom w) i = []) /\
  pending (FormManager.handleContactForm w) = pending w /\
  FormManager.submitBtn (dom (FormManager.handleContactForm w))
    = FormManager.submitBtn (dom w).
Proof.
  intros w.
  assert (Hm : FormManager.Markup (dom w) 0 1 2 3) by apply contactForm_Markup.
  assert (He : exists i, In i [0; 1; 2; 3] /\ FormManager.fieldValue (dom w) i = []).
  { exists 0. split; [now left|reflexivity]. }
  split; [exact Hm|]. split; [exact He|].
  destruct (C1_submit_with_empty_field_aborts w 0 1 2 3 Hm He)
    as (_ & Hp & _ & Hb & _).
  split; [exact Hp|exact Hb].
Defined.


Lemma oneLinkPerTarget_NoDup (links : list Navigation.Link) :
  NoDup (map Navigation.href links) -> Navigation.oneLinkPerTarget links.
Proof.
  intros Hnd h. induction links as [|l links IH]; simpl; [lia|].
  simpl in Hnd. apply NoDup_cons in Hnd as [Hl Hnd]. specialize (IH Hnd).
  unfold Navigation.linksTo in *. simpl.
  destruct (bool_decide_reflect (Navigation.href l = Some h)) as [E|E]; [|exact IH].
  simpl. rewrite filter_none; [simpl; lia|].
  apply List.Forall_forall. intros l' Hl'. apply bool_decide_eq_false_2.
  intros E'. apply Hl. rewrite E, <- E'.
  apply list_elem_of_In, in_map. exact Hl'.
Qed.

(** The sample page of three sections and three links, scrolled once. *)
Lemma C6_at_most_one_active_link_witness :
  Navigation.oneLinkPerTarget Examples.threeLinks /\
  length (List.filter Navigation.isActive
            (Navigation.navLinks
               (Navigation.run Examples.threeSections [] Examples.threeLinks
                  [Examples.threeSections]))) <= 1.
Proof.
  assert (H : Navigation.oneLinkPerTarget Examples.threeLinks).
  { apply oneLinkPerTarget_NoDup. simpl. repeat constructor; set_solver. }
  split; [exact H|].
  apply (C6_at_most_one_active_link Examples.threeSections [] Examples.threeLinks
           [Examples.threeSections] H).
Defined.


(** The project card of the sample page intersects once. *)
Lemma C9_reveal_fires_at_most_once_witness :
  let s0 := AnimationManager.setupIntersectionObserver Examples.twoElements in
  let batches := [[ {| AnimationManager.target := 0;
                       AnimationManager.isIntersecting := true |} ]; []] in
  AnimationManager.notifications s0 batches /\
  AnimationManager.animations 0 batches <= 1.
Proof.
  intros s0 batches.
  assert (H : AnimationManager.notifications s0 batches).
  { simpl. split; [split|split; [split; constructor|exact I]].
    - simpl. apply NoDup_singleton.
    - constructor; [|constructor]. simpl.
      apply (bool_decide_unpack _). vm_compute. exact I. }
  split; [exact H|].
  destruct (C9_reveal_fires_at_most_once Examples.twoElements batches 0 H)
    as (_ & Hle & _).
  exact Hle.
Defined.
End SampleRuns.

(** * Further properties of the script *)

(** ** Timers: a world with a single pending timer *)

Section SingleTimer.
Import Timers.
Context {D A : Type}.
Variable fire : A -> world D A -> world D A.

Lemma tick_nothing_due (w : world D A) :
  Forall (fun p => S (now w) < fst p) (pending w) ->
  tick fire w = {| now := S (now w); pending := pending w; dom := dom w |}.
Proof.
  intros H. unfold tick.
  rewrite filter_none, filter_all; [reflexivity| |].
  - eapply List.Forall_impl; [|exact H]. intros p Hp. simpl in Hp. unfold isDue.
    apply negb_true_iff, Nat.leb_gt. exact Hp.
  - eapply List.Forall_impl; [|exact H]. intros p Hp. simpl in Hp. unfold isDue.
    apply Nat.leb_gt. exact Hp.
Qed.

Lemma advance_nothing_due (n : nat) (w : world D A) :
  Forall (fun p => now w + n < fst p) (pending w) ->
  advance fire n w = {| now := now w + n; pending := pending w; dom := dom w |}.
Proof.
  induction n as [|n IH]; intros H.
  - simpl. rewrite Nat.add_0_r. now destruct w.
  - rewrite advance_S, IH.
    + rewrite tick_nothing_due; simpl.
      * f_equal. lia.
      * eapply List.Forall_impl; [|exact H]. intros p Hp. simpl in Hp. lia.
    + eapply List.Forall_impl; [|exact H]. intros p Hp. simpl in Hp. lia.
Qed.

Lemma tick_single_due (w : world D A) (T : nat) (a : A) :
  pending w = [(T, a)] -> T <= S (now w) ->
  tick fire w = fire a {| now := S (now w); pending := []; dom := dom w |}.
Proof.
  intros Hp HT. unfold tick. rewrite Hp. simpl. unfold isDue. simpl.
  apply Nat.leb_le in HT. rewrite HT. reflexivity.
Qed.

(** The single pending timer runs in the tick that reaches its time. *)
Lemma advance_single_timer (w : world D A) (T : nat) (a : A) :
  pending w = [(T, a)] -> now w < T ->
  advance fire (T - now w) w = fire a {| now := T; pending := []; dom := dom w |}.
Proof.
  intros Hp HT.
  replace (T - now w) with (S (T - now w - 1)) by lia.
  rewrite advance_S, advance_nothing_due.
  - rewrite (tick_single_due _ T a); simpl; [|exact Hp|lia].
    f_equal. f_equal. lia.
  - rewrite Hp. repeat constructor. simpl. lia.
Qed.
(** The same for a world written out: one timer due [d] ms from now. *)
Lemma advance_single_after (t d : nat) (a : A) (s : D) :
  0 < d ->
  Timers.advance fire d {| Timers.now := t; Timers.pending := [(t + d, a)]; Timers.dom := s |} =
  fire a {| Timers.now := t + d; Timers.pending := []; Timers.dom := s |}.
Proof.
  intros Hd.
  pose proof (advance_single_timer
                {| Timers.now := t; Timers.pending := [(t + d, a)]; Timers.dom := s |}
                (t + d) a eq_refl) as H.
  simpl in H. replace (t + d - t) with d in H by lia. apply H. lia.
Qed.
End SingleTimer.

(** ** [throttle] *)

Section ThrottleFacts.
Import Timers Throttle.
Context {Arg : Type}.

Lemma lastCall_snoc (s : list (nat * Arg)) (c : nat * Arg) (b : bool) :
  lastCall {| inThrottle := b; calls := s ++ [c] |} = Some (fst c).
Proof.
  unfold lastCall. simpl. rewrite map_app. simpl. now rewrite List.last_last.
Qed.

Lemma spaced_snoc (limit : nat) (l : list (nat * Arg)) (c : nat * Arg) :
  spaced limit l ->
  (forall t, option_map fst (List.last (map Some l) None) = Some t -> t + limit <= fst c) ->
  spaced limit (l ++ [c]).
Proof.
  induction l as [|c0 l IH]; intros Hs Hl; simpl; [auto|].
  destruct Hs as [H0 Hs]. split.
  - destruct l as [|c1 l]; simpl; [|exact H0].
    apply Hl. reflexivity.
  - apply IH; [exact Hs|]. intros t Ht. apply Hl.
    destruct l as [|c1 l]; [discriminate|exact Ht].
Qed.

Lemma throttle_create_inv (limit t0 : nat) : inv limit (@create Arg t0).
Proof. unfold inv. simpl. auto. Qed.

Lemma throttle_call_inv (limit : nat) (args : Arg) (w : World Arg) :
  inv limit w -> inv limit (call limit args w).
Proof.
  intros H. unfold call. destruct (inThrottle (dom w)) eqn:Et; [exact H|].
  destruct H as [Hs Hi]. rewrite Et in Hi.
  unfold inv. simpl. rewrite lastCall_snoc. simpl.
  unfold lastCall in Hi. split.
  - apply spaced_snoc; [exact Hs|]. intros t Ht. simpl. rewrite Ht in Hi. lia.
  - destruct (option_map fst (List.last (map Some (calls (dom w))) None)) as [t|].
    + destruct Hi as [-> _]. repeat split; auto.
    + destruct Hi as [_ ->]. repeat split; auto.
Qed.

Lemma throttle_tick_inv (limit : nat) (w : World Arg) :
  inv limit w -> inv limit (tick fire w).
Proof.
  intros [Hs Hi]. unfold inv.
  destruct (lastCall (dom w)) as [t|] eqn:El.
  - destruct (inThrottle (dom w)) eqn:Et.
    + destruct Hi as (Hp & Hle & Hlt).
      destruct (Nat.le_gt_cases (t + limit) (S (now w))) as [Hdue|Hnot].
      * rewrite (tick_single_due fire w _ _ Hp Hdue). simpl.
        unfold lastCall in *. simpl. rewrite El. simpl. auto.
      * rewrite tick_nothing_due by (rewrite Hp; repeat constructor; simpl; lia).
        simpl. rewrite El, Et. repeat split; auto; lia.
    + destruct Hi as [Hp Hle].
      rewrite tick_nothing_due by (rewrite Hp; constructor).
      simpl. rewrite El, Et. split; [exact Hs|]. split; [exact Hp|lia].
  - destruct Hi as [Et Hp].
    rewrite tick_nothing_due by (rewrite Hp; constructor).
    simpl. rewrite El. auto.
Qed.

Lemma throttle_run_inv (limit t0 : nat) (events : list (Event Arg)) :
  inv limit (run limit t0 events).
Proof.
  unfold run. generalize (throttle_create_inv limit t0). generalize (@create Arg t0).
  induction events as [|ev events IH]; intros w Hw; [exact Hw|].
  simpl. apply IH. destruct ev; simpl; [now apply throttle_call_inv|now apply throttle_tick_inv].
Qed.

(** X15.  Whatever calls and clock ticks a throttled function receives, the
    calls it passes on to the function it wraps are at least [limit]
    milliseconds apart. *)
Theorem X15_throttle_calls_are_spaced (limit t0 : nat) (events : list (Event Arg)) :
  spaced limit (calls (dom (run limit t0 events))).
Proof. apply throttle_run_inv. Qed.

(** X16.  For a positive [limit], a call of the throttled function is passed
    on, with its arguments and at once, exactly when no call was passed on
    in the last [limit] milliseconds; otherwise it is dropped. *)
Theorem X16_throttle_passes_call_when_due (limit t0 : nat) (events : list (Event Arg))
    (args : Arg) :
  0 < limit ->
  let w := run limit t0 events in
  let due := match lastCall (dom w) with
             | None => true
             | Some t => (t + limit <=? now w)%nat
             end in
  calls (dom (call limit args w)) =
  if due then calls (dom w) ++ [(now w, args)] else calls (dom w).
Proof.
  intros Hl w due. destruct (throttle_run_inv limit t0 events) as [_ Hi]. fold w in Hi.
  subst due. unfold call.
  destruct (lastCall (dom w)) as [t|].
  - destruct (inThrottle (dom w)).
    + destruct Hi as (_ & _ & Hlt).
      destruct (Nat.leb_spec (t + limit) (now w)); [lia|reflexivity].
    + destruct Hi as [_ Hle]. apply Nat.leb_le in Hle. now rewrite Hle.
  - destruct Hi as [-> _]. reflexivity.
Qed.

End ThrottleFacts.

(** A call 2 ms after the first is dropped, a call 16 ms after it is passed on. *)
Lemma X16_throttle_passes_call_when_due_witness :
  0 < 16 /\
  Throttle.calls
    (Timers.dom (Throttle.call 16 "b"
                   (Throttle.run 16 0 [Throttle.Call "a"; Throttle.Tick; Throttle.Tick])))
  = [(0, "a")] /\
  Throttle.calls
    (Timers.dom (Throttle.call 16 "b"
                   (Throttle.run 16 0 (Throttle.Call "a" :: repeat Throttle.Tick 16))))
  = [(0, "a"); (16, "b")].
Proof.
  split; [lia|]. split.
  - apply (X16_throttle_passes_call_when_due 16 0
             [Throttle.Call "a"; Throttle.Tick; Throttle.Tick] "b"). lia.
  - apply (X16_throttle_passes_call_when_due 16 0
             (Throttle.Call "a" :: repeat Throttle.Tick 16) "b"). lia.
Defined.

(** ** [debounce] *)

Section DebounceFacts.
Import Timers Debounce.
Context {Arg : Type}.

Lemma debounce_create_inv (t0 : nat) : inv (@create Arg t0).
Proof. reflexivity. Qed.

(** After a call the one pending timer is the timer of that call. *)
Lemma call_pending (wait : nat) (immediate : bool) (args : Arg) (w : World Arg) :
  inv w ->
  pending (call wait immediate args w) =
    [(now w + wait, Later (nextTimer (dom w)) args)].
Proof.
  unfold inv, call. simpl. destruct (timeout (dom w)) as [id|].
  - intros (due & args0 & -> & _). simpl. now rewrite Nat.eqb_refl.
  - now intros ->.
Qed.

Lemma debounce_call_inv (wait : nat) (immediate : bool) (args : Arg) (w : World Arg) :
  inv w -> inv (call wait immediate args w).
Proof.
  intros H. pose proof (call_pending wait immediate args w H) as Hp.
  unfold inv. simpl. exists (now w + wait), args. split; [exact Hp|lia].
Qed.

Lemma debounce_tick_inv (immediate : bool) (w : World Arg) :
  inv w -> inv (tick (fire immediate) w).
Proof.
  unfold inv. destruct (timeout (dom w)) as [id|] eqn:Et.
  - intros (due & args & Hp & Hle).
    destruct (Nat.le_gt_cases due (S (now w))) as [Hdue|Hnot].
    + rewrite (tick_single_due _ w _ _ Hp Hdue). reflexivity.
    + rewrite tick_nothing_due by (rewrite Hp; repeat constructor; simpl; lia).
      simpl. rewrite Et. exists due, args. split; [exact Hp|lia].
  - intros Hp. rewrite tick_nothing_due by (rewrite Hp; constructor).
    simpl. now rewrite Et.
Qed.

Lemma debounce_run_inv (wait : nat) (immediate : bool) (t0 : nat)
    (events : list (Event Arg)) :
  inv (run wait immediate t0 events).
Proof.
  unfold run. generalize (debounce_create_inv t0). generalize (@create Arg t0).
  induction events as [|ev events IH]; intros w Hw; [exact Hw|].
  simpl. apply IH. destruct ev; simpl;
    [now apply debounce_call_inv|now apply debounce_tick_inv].
Qed.

(** A call followed by quiet: nothing for [k < wait] ticks, the timer
    callback in the tick that makes [wait]. *)
Lemma call_then_quiet (wait : nat) (immediate : bool) (args : Arg) (w : World Arg) :
  inv w -> 0 < wait ->
  let w1 := call wait immediate args w in
  (forall k, k < wait ->
     advance (fire immediate) k w1 =
     {| now := now w + k; pending := pending w1; dom := dom w1 |}) /\
  (forall n, wait <= n ->
     advance (fire immediate) n w1 =
     {| now := now w + n; pending := [];
        dom := {| timeout := None;
                  nextTimer := nextTimer (dom w1);
                  calls := if immediate then calls (dom w1)
                           else calls (dom w1) ++ [(now w + wait, args)] |} |}).
Proof.
  intros Hi Hw w1. pose proof (call_pending wait immediate args w Hi) as Hp.
  fold w1 in Hp.
  assert (Hnow : now w1 = now w) by reflexivity.
  split.
  - intros k Hk. rewrite advance_nothing_due; [now rewrite Hnow|].
    rewrite Hp. repeat constructor. simpl. lia.
  - intros n Hn. replace n with ((now w + wait - now w1) + (n - wait)) by lia.
    rewrite advance_add, (advance_single_timer _ w1 _ _ Hp) by lia.
    rewrite advance_nothing_due by (simpl; constructor).
    simpl. f_equal. lia.
Qed.

(** X17.  Without the [immediate] flag and for a positive [wait], a call of
    the debounced function never runs the wrapped function itself.  If no
    further call follows, the wrapped function runs once, [wait]
    milliseconds after the call and with its arguments; an earlier call
    still waiting is cancelled. *)
Theorem X17_debounce_runs_after_quiet (wait t0 : nat) (events : list (Event Arg))
    (args : Arg) :
  0 < wait ->
  let w := run wait false t0 events in
  let w1 := call wait false args w in
  calls (dom w1) = calls (dom w) /\
  (forall k, k < wait -> calls (dom (advance (fire false) k w1)) = calls (dom w)) /\
  (forall n, wait <= n ->
     calls (dom (advance (fire false) n w1)) = calls (dom w) ++ [(now w + wait, args)]).
Proof.
  intros Hw w w1.
  destruct (call_then_quiet wait false args w (debounce_run_inv wait false t0 events) Hw)
    as [H1 H2].
  fold w1 in H1, H2.
  assert (E : calls (dom w1) = calls (dom w)) by reflexivity.
  split; [exact E|]. split.
  - intros k Hk. now rewrite (H1 k Hk).
  - intros n Hn. rewrite (H2 n Hn). simpl. reflexivity.
Qed.

(** X18.  With the [immediate] flag and for a positive [wait], a timer
    callback never runs the wrapped function.  After a call, a call that
    follows within less than [wait] milliseconds is not passed on, and a
    call that follows after [wait] milliseconds or more is passed on at
    once. *)
Theorem X18_debounce_immediate_passes_first_call (wait t0 : nat)
    (events : list (Event Arg)) (args args' : Arg) :
  0 < wait ->
  let w := run wait true t0 events in
  let w1 := call wait true args w in
  (forall n, calls (dom (advance (fire true) n w1)) = calls (dom w1)) /\
  (forall k, k < wait ->
     calls (dom (call wait true args' (advance (fire true) k w1))) = calls (dom w1)) /\
  (forall n, wait <= n ->
     calls (dom (call wait true args' (advance (fire true) n w1))) =
     calls (dom w1) ++ [(now w + n, args')]).
Proof.
  intros Hw w w1.
  destruct (call_then_quiet wait true args w (debounce_run_inv wait true t0 events) Hw)
    as [H1 H2].
  fold w1 in H1, H2. split; [|split].
  - intros n. destruct (Nat.lt_ge_cases n wait) as [Hn|Hn].
    + now rewrite (H1 n Hn).
    + now rewrite (H2 n Hn).
  - intros k Hk. rewrite (H1 k Hk). reflexivity.
  - intros n Hn. rewrite (H2 n Hn). reflexivity.
Qed.
End DebounceFacts.

(** A burst of two calls 3 ms apart, with a wait of 10 ms. *)
Lemma X17_debounce_runs_after_quiet_witness :
  0 < 10 /\
  Debounce.calls
    (Timers.dom
       (Timers.advance (Debounce.fire false) 10
          (Debounce.call 10 false "b"
             (Debounce.run 10 false 0
                [Debounce.Call "a"; Debounce.Tick; Debounce.Tick; Debounce.Tick]))))
  = [(13, "b")].
Proof.
  split; [lia|].
  destruct (X17_debounce_runs_after_quiet 10 0
              [Debounce.Call "a"; Debounce.Tick; Debounce.Tick; Debounce.Tick] "b"
              ltac:(lia)) as (_ & _ & H).
  exact (H 10 (le_n 10)).
Defined.

(** The same burst with the [immediate] flag. *)
Lemma X18_debounce_immediate_passes_first_call_witness :
  0 < 10 /\
  Debounce.calls
    (Timers.dom
       (Debounce.call 10 true "c"
          (Timers.advance (Debounce.fire true) 3
             (Debounce.call 10 true "b" (Debounce.run 10 true 0 [Debounce.Call "a"])))))
  = [(0, "a")].
Proof.
  split; [lia|].
  destruct (X18_debounce_immediate_passes_first_call 10 0 [Debounce.Call "a"] "b" "c"
              ltac:(lia)) as (_ & H & _).
  exact (H 3 ltac:(lia)).
Defined.

(** ** The typewriter *)

Section TypewriterFacts.
Import JS Timers Typewriter.

Lemma setupTypewriter_eq (t0 : nat) (txt : jsstring) :
  setupTypewriter t0 (Some txt) =
  {| now := t0; pending := [(t0 + 1000, TypeWriter)];
     dom := Some {| textContent := []; text := txt; i := 0 |} |}.
Proof. reflexivity. Qed.

(** One run of the timer callback. *)
Lemma fire_types (t : nat) (txt shown : jsstring) (j : nat) (c : N) :
  txt !! j = Some c ->
  fire TypeWriter {| now := t; pending := [];
                     dom := Some {| textContent := shown; text := txt; i := j |} |} =
  {| now := t; pending := [(t + 100, TypeWriter)];
     dom := Some {| textContent := shown ++ [c]; text := txt; i := S j |} |}.
Proof.
  intros Hc. unfold fire. cbn [dom text i textContent].
  destruct (Nat.ltb_spec j (length txt)) as [_|Hge];
    [|apply lookup_lt_Some in Hc; unfold code_unit in *; lia].
  unfold charAt, jsstring, code_unit in *. rewrite Hc. reflexivity.
Qed.

Lemma fire_done (t : nat) (txt shown : jsstring) :
  fire TypeWriter {| now := t; pending := [];
                     dom := Some {| textContent := shown; text := txt; i := length txt |} |} =
  {| now := t; pending := [];
     dom := Some {| textContent := shown; text := txt; i := length txt |} |}.
Proof. unfold fire. simpl. now rewrite Nat.ltb_irrefl. Qed.

(** The world right after the callback has typed character [j]. *)
Lemma typed_prefix (t0 : nat) (txt : jsstring) (j : nat) :
  j < length txt ->
  advance fire (1000 + 100 * j) (setupTypewriter t0 (Some txt)) =
  {| now := t0 + 1000 + 100 * j;
     pending := [(t0 + 1000 + 100 * j + 100, TypeWriter)];
     dom := Some {| textContent := take (S j) txt; text := txt; i := S j |} |}.
Proof.
  intros Hj. induction j as [|j IH].
  - rewrite setupTypewriter_eq. replace (1000 + 100 * 0) with 1000 by lia.
    rewrite advance_single_after by lia.
    destruct (lookup_lt_is_Some_2 txt 0 Hj) as [c Hc].
    rewrite (fire_types _ _ _ _ _ Hc), (take_S_r txt 0 c Hc).
    f_equal; [lia|do 2 f_equal; lia].
  - replace (1000 + 100 * S j) with ((1000 + 100 * j) + 100) by lia.
    rewrite advance_add, IH by lia.
    rewrite advance_single_after by lia.
    destruct (lookup_lt_is_Some_2 txt (S j) Hj) as [c Hc].
    rewrite (fire_types _ _ _ _ _ Hc), (take_S_r txt (S j) c Hc).
    f_equal; [lia|do 2 f_equal; lia].
Qed.

(** The world once the whole text is typed. *)
Lemma typed_all (t0 : nat) (txt : jsstring) :
  advance fire (1000 + 100 * length txt) (setupTypewriter t0 (Some txt)) =
  {| now := t0 + 1000 + 100 * length txt;
     pending := [];
     dom := Some {| textContent := txt; text := txt; i := length txt |} |}.
Proof.
  destruct (length txt) as [|j] eqn:El.
  - rewrite setupTypewriter_eq. replace (1000 + 100 * 0) with 1000 by lia.
    rewrite advance_single_after by lia.
    destruct txt; [|discriminate].
    unfold fire. simpl. f_equal. lia.
  - replace (1000 + 100 * S j) with ((1000 + 100 * j) + 100) by lia.
    rewrite advance_add, typed_prefix by lia.
    rewrite advance_single_after by lia.
    rewrite <- El, firstn_all, fire_done. f_equal. lia.
Qed.

(** X19.  The typewriter empties the subtitle and types it back: [n]
    milliseconds after the setup the subtitle shows nothing before 1000 ms
    and then one more character of the original text for every 100 ms
    begun, up to the whole text; once the text is complete no timer is
    left. *)
Theorem X19_typewriter_types_the_text_back (t0 : nat) (txt : jsstring) (n : nat) :
  let w := advance fire n (setupTypewriter t0 (Some txt)) in
  shownText w = take (if (n <? 1000)%nat then 0 else S ((n - 1000) / 100)) txt /\
  (1000 + 100 * length txt <= n -> shownText w = txt /\ pending w = []).
Proof.
  intros w. subst w.
  assert (Hlate : 1000 + 100 * length txt <= n ->
                  advance fire n (setupTypewriter t0 (Some txt)) =
                  {| now := t0 + n; pending := [];
                     dom := Some {| textContent := txt; text := txt; i := length txt |} |}).
  { intros Hn. replace n with ((1000 + 100 * length txt) + (n - (1000 + 100 * length txt))) at 1 by lia.
    rewrite advance_add, typed_all, advance_nothing_due by (simpl; constructor).
    simpl. f_equal. lia. }
  split; [|intros Hn; rewrite (Hlate Hn); split; reflexivity].
  destruct (Nat.ltb_spec n 1000) as [Hn|Hn].
  - rewrite advance_nothing_due; [reflexivity|].
    simpl. repeat constructor. simpl. lia.
  - set (j := (n - 1000) / 100).
    assert (Hj : 100 * j <= n - 1000 < 100 * S j).
    { subst j. split.
      - apply Nat.Div0.mul_div_le.
      - apply Nat.mul_succ_div_gt. lia. }
    destruct (Nat.lt_ge_cases j (length txt)) as [Hlt|Hge].
    + replace n with ((1000 + 100 * j) + (n - 1000 - 100 * j)) by lia.
      rewrite advance_add, typed_prefix by exact Hlt.
      rewrite advance_nothing_due; [reflexivity|].
      simpl. repeat constructor. simpl. lia.
    + rewrite Hlate by nia. unfold shownText. cbn [dom textContent].
      symmetry. apply take_ge.
      unfold jsstring, code_unit in *. lia.
Qed.
End TypewriterFacts.

(** ** More on class lists *)

Section ClassListMore.
Import ClassList.

Lemma contains_add_other (tok tok' : string) (cl : list string) :
  tok <> tok' -> contains (add tok cl) tok' = contains cl tok'.
Proof.
  intros Hne. unfold add. destruct (contains cl tok); [reflexivity|].
  rewrite contains_app. simpl.
  destruct (String.eqb_spec tok' tok) as [->|_]; [congruence|].
  now rewrite !orb_false_r.
Qed.

Lemma contains_remove_other (tok tok' : string) (cl : list string) :
  tok <> tok' -> contains (remove tok cl) tok' = contains cl tok'.
Proof.
  intros Hne. unfold contains, remove. induction cl as [|t cl IH]; simpl; [reflexivity|].
  destruct (String.eqb_spec tok t) as [<-|Ht]; simpl.
  - destruct (String.eqb_spec tok' tok) as [->|_]; [congruence|exact IH].
  - now rewrite IH.
Qed.

Lemma contains_toggle (tok : string) (cl : list string) :
  contains (toggle tok cl) tok = negb (contains cl tok).
Proof.
  unfold toggle. destruct (contains cl tok) eqn:E; simpl.
  - apply contains_remove_same.
  - apply contains_add_same.
Qed.

Lemma remove_idem (tok : string) (cl : list string) :
  remove tok (remove tok cl) = remove tok cl.
Proof.
  unfold remove. induction cl as [|t cl IH]; simpl; [reflexivity|].
  destruct (String.eqb tok t) eqn:E; simpl; [exact IH|].
  now rewrite E, IH.
Qed.
End ClassListMore.

(** ** The mobile menu *)

Section MobileMenuFacts.
Import ClassList MobileMenu.

Lemma closeMobileMenu_synced (m : t) : synced (closeMobileMenu m).
Proof.
  unfold synced, closeMobileMenu. simpl. rewrite !contains_remove_same.
  repeat split; discriminate.
Qed.

Lemma toggleMobileMenu_synced (m : t) : synced m -> synced (toggleMobileMenu m).
Proof.
  unfold synced, toggleMobileMenu. simpl. intros (H1 & H2 & _).
  rewrite !contains_toggle, H1, H2. repeat split.
  - now destruct (isMenuOpen m).
  - destruct (isMenuOpen m); [discriminate|reflexivity].
Qed.

Lemma onDocumentClick_synced (inNavbar : bool) (m : t) :
  synced m -> synced (onDocumentClick inNavbar m).
Proof.
  unfold onDocumentClick. destruct (isMenuOpen m && negb inNavbar);
    [intros _; apply closeMobileMenu_synced|trivial].
Qed.

Lemma menu_step_synced (m : t) (ev : Event) : synced m -> synced (step m ev).
Proof.
  intros H. destruct ev as [inNavbar|href targetFound inNavbar|inNavbar|key]; simpl.
  - now apply onDocumentClick_synced, toggleMobileMenu_synced.
  - apply onDocumentClick_synced. unfold handleNavClick.
    destruct href as [h|]; [|exact H].
    destruct (negb (String.prefix "#" h)); [exact H|].
    destruct targetFound; [apply closeMobileMenu_synced|exact H].
  - now apply onDocumentClick_synced.
  - unfold onKeyDown. destruct (String.eqb key "Escape" && isMenuOpen m);
      [apply closeMobileMenu_synced|exact H].
Qed.

(** X20.  When the markup has neither the toggle button nor the menu
    marked [active] and the body's overflow style is not [hidden], then
    after every sequence of clicks and key presses the open flag, the
    [active] class of the toggle button, the [active] class of the menu and
    the scroll lock of the body ([overflow: hidden]) agree. *)
Theorem X20_mobile_menu_flag_classes_and_scroll_lock_agree
    (toggleClasses menuClasses : list string) (overflow : string) (events : list Event) :
  contains toggleClasses "active" = false ->
  contains menuClasses "active" = false ->
  overflow <> "hidden" ->
  synced (run toggleClasses menuClasses overflow events).
Proof.
  intros H1 H2 H3. unfold run.
  assert (H0 : synced (create toggleClasses menuClasses overflow)).
  { unfold synced, create. simpl. repeat split; try assumption.
    - intros E. contradiction.
    - discriminate. }
  revert H0. generalize (create toggleClasses menuClasses overflow).
  induction events as [|ev events IH]; intros m Hm; [exact Hm|].
  simpl. apply IH. now apply menu_step_synced.
Qed.

Lemma X20_mobile_menu_flag_classes_and_scroll_lock_agree_witness :
  synced (run ["nav-toggle"] ["nav-menu"] ""
            [ClickToggle true; ClickNavLink (Some "#about") true true;
             ClickToggle true; KeyDown "Enter"; ClickElsewhere false]).
Proof.
  apply X20_mobile_menu_flag_classes_and_scroll_lock_agree;
    [reflexivity|reflexivity|discriminate].
Defined.
End MobileMenuFacts.

(** ** Keyboard navigation *)

Section KeyboardFacts.
Import ClassList PerformanceManager.

Local Abbreviation kn := "keyboard-navigation".

Lemma closeFirstModal_length (els : list (list string)) :
  length (closeFirstModal els) = length els.
Proof.
  induction els as [|cl els IH]; simpl; [reflexivity|].
  destruct (isActiveModal cl); simpl; congruence.
Qed.

(** Closing a modal changes no class but [active]. *)
Lemma closeFirstModal_contains (els : list (list string)) (k : nat) (tok : string) :
  "active" <> tok ->
  (fun cl => contains cl tok) <$> (closeFirstModal els !! k) =
  (fun cl => contains cl tok) <$> (els !! k).
Proof.
  intros Hne. revert k. induction els as [|cl els IH]; intros k; simpl; [reflexivity|].
  destruct (isActiveModal cl); destruct k as [|k]; simpl; try reflexivity.
  - now rewrite contains_remove_other.
  - apply IH.
Qed.

Lemma closeFirstModal_count (els : list (list string)) :
  length (List.filter isActiveModal (closeFirstModal els)) =
  pred (length (List.filter isActiveModal els)).
Proof.
  induction els as [|cl els IH]; simpl; [reflexivity|].
  destruct (isActiveModal cl) eqn:E; simpl.
  - unfold isActiveModal at 1. rewrite contains_remove_same, andb_false_r. reflexivity.
  - rewrite E. exact IH.
Qed.

Lemma alter_count (f : list string -> list string) (k : nat) (els : list (list string)) :
  (forall cl, isActiveModal (f cl) = isActiveModal cl) ->
  length (List.filter isActiveModal (alter f k els)) =
  length (List.filter isActiveModal els).
Proof.
  intros Hf. revert k. induction els as [|cl els IH]; intros k; [reflexivity|].
  destruct k as [|k]; simpl.
  - rewrite Hf. now destruct (isActiveModal cl).
  - specialize (IH k). change (list_alter f k els) with (alter f k els).
    destruct (isActiveModal cl); simpl; now rewrite IH.
Qed.

Lemma keyboardMode_onBody (f : list string -> list string) (p : Page) :
  bodyIx p < length (elements p) ->
  keyboardMode (onBody f p) = contains (f (body p)) kn.
Proof.
  intros Hb. unfold keyboardMode, body, onBody. simpl.
  rewrite list_lookup_alter_eq.
  destruct (lookup_lt_is_Some_2 _ _ Hb) as [cl ->]. reflexivity.
Qed.

Lemma step_bodyIx (p : Page) (ev : Event) :
  bodyIx p < length (elements p) ->
  bodyIx (step p ev) < length (elements (step p ev)).
Proof.
  intros Hb. destruct ev as [key|]; simpl.
  - unfold onKeyDown, onBody.
    destruct (String.eqb key "Tab"), (String.eqb key "Escape"); simpl;
      rewrite ?closeFirstModal_length, ?length_alter; exact Hb.
  - unfold onMouseDown, onBody. simpl. now rewrite length_alter.
Qed.

Lemma run_bodyIx (p : Page) (events : list Event) :
  bodyIx p < length (elements p) ->
  bodyIx (run p events) < length (elements (run p events)).
Proof.
  unfold run. revert p. induction events as [|ev events IH]; intros p Hb; [exact Hb|].
  simpl. apply IH. now apply step_bodyIx.
Qed.

Lemma step_keeps_mode (p : Page) (ev : Event) :
  bodyIx p < length (elements p) ->
  isTab ev = false -> isMouseDown ev = false ->
  keyboardMode (step p ev) = keyboardMode p.
Proof.
  intros Hb Ht Hm. destruct ev as [key|]; [|discriminate]. simpl in *.
  unfold onKeyDown. rewrite Ht.
  destruct (String.eqb key "Escape"); [|reflexivity].
  unfold keyboardMode, body. simpl.
  pose proof (closeFirstModal_contains (elements p) (bodyIx p) kn ltac:(discriminate)) as H.
  destruct (closeFirstModal (elements p) !! bodyIx p), (elements p !! bodyIx p);
    simpl in *; congruence.
Qed.

Lemma step_tab (p : Page) (key : string) :
  bodyIx p < length (elements p) ->
  String.eqb key "Tab" = true ->
  keyboardMode (step p (KeyDown key)) = true.
Proof.
  intros Hb Ht. simpl. unfold onKeyDown. rewrite Ht.
  apply String.eqb_eq in Ht. subst key. simpl.
  rewrite keyboardMode_onBody by exact Hb. apply contains_add_same.
Qed.

Lemma step_mouse (p : Page) : keyboardMode (step p MouseDown) = false.
Proof.
  simpl. unfold onMouseDown, keyboardMode, body, onBody. simpl.
  rewrite list_lookup_alter_eq.
  destruct (elements p !! bodyIx p); simpl; [apply contains_remove_same|reflexivity].
Qed.

(** X21.  The body carries [keyboard-navigation] exactly when the last of
    the Tab presses and mouse presses was a Tab press: after a Tab press
    followed by no mouse press the class is there, after a mouse press
    followed by no Tab press it is not; no other key changes it. *)
Theorem X21_keyboard_mode_follows_last_of_tab_and_mouse
    (p : Page) (before after : list Event) :
  bodyIx p < length (elements p) ->
  (forallb (fun ev => negb (isMouseDown ev)) after = true ->
   keyboardMode (run p (before ++ KeyDown "Tab" :: after)) = true) /\
  (forallb (fun ev => negb (isTab ev)) after = true ->
   keyboardMode (run p (before ++ MouseDown :: after)) = false).
Proof.
  intros Hb. unfold run. rewrite !fold_left_app. simpl fold_left.
  pose proof (run_bodyIx p before Hb) as Hb1. unfold run in Hb1.
  set (p1 := fold_left step before p) in *. split.
  - pose proof (step_tab p1 "Tab" Hb1 eq_refl) as H1.
    pose proof (step_bodyIx p1 (KeyDown "Tab") Hb1) as Hb2.
    simpl step in H1, Hb2. revert H1 Hb2. generalize (onKeyDown "Tab" p1).
    induction after as [|ev after IH]; intros q Hq Hbq Hall; [exact Hq|].
    simpl in Hall. apply andb_prop in Hall as [Hev Hall].
    simpl. apply IH; [|now apply step_bodyIx|exact Hall].
    destruct (isTab ev) eqn:Et.
    + destruct ev as [key|]; [|discriminate]. now apply step_tab.
    + rewrite step_keeps_mode; [exact Hq|exact Hbq|exact Et|].
      now destruct (isMouseDown ev).
  - pose proof (step_mouse p1) as H1.
    pose proof (step_bodyIx p1 MouseDown Hb1) as Hb2.
    simpl step in H1, Hb2. revert H1 Hb2. generalize (onMouseDown p1).
    induction after as [|ev after IH]; intros q Hq Hbq Hall; [exact Hq|].
    simpl in Hall. apply andb_prop in Hall as [Hev Hall].
    simpl. apply IH; [|now apply step_bodyIx|exact Hall].
    destruct (isMouseDown ev) eqn:Em.
    + destruct ev; [discriminate|]. apply step_mouse.
    + rewrite step_keeps_mode; [exact Hq|exact Hbq| |exact Em].
      now destruct (isTab ev).
Qed.

Lemma X21_keyboard_mode_follows_last_of_tab_and_mouse_witness :
  keyboardMode
    (run {| elements := [["no-js"]; []; ["home"]; ["modal"; "active"]]; bodyIx := 2 |}
         ([MouseDown] ++ KeyDown "Tab" :: [KeyDown "Escape"; KeyDown "a"])) = true.
Proof.
  refine (proj1 (X21_keyboard_mode_follows_last_of_tab_and_mouse
                   {| elements := [["no-js"]; []; ["home"]; ["modal"; "active"]];
                      bodyIx := 2 |}
                   [MouseDown] [KeyDown "Escape"; KeyDown "a"] _) _).
  - simpl. lia.
  - reflexivity.
Defined.

(** X22.  Every Escape press takes [active] from one element that has the
    classes [modal] and [active] (none when there is none), and nothing
    else the keyboard and mouse listeners do opens or closes one: after
    any sequence of events the number of active modals is the initial
    number less the number of Escape presses. *)
Theorem X22_each_escape_closes_one_modal (p : Page) (events : list Event) :
  activeModals (run p events) =
  activeModals p - length (List.filter isEscape events).
Proof.
  unfold run. revert p. induction events as [|ev events IH]; intros p; simpl.
  - lia.
  - rewrite IH.
    assert (Hadd : forall cl, isActiveModal (add kn cl) = isActiveModal cl).
    { intros cl. unfold isActiveModal.
      now rewrite !contains_add_other by discriminate. }
    assert (Hrem : forall cl, isActiveModal (remove kn cl) = isActiveModal cl).
    { intros cl. unfold isActiveModal.
      now rewrite !contains_remove_other by discriminate. }
    destruct ev as [key|]; simpl.
    + unfold onKeyDown.
      destruct (String.eqb_spec key "Tab") as [->|Ht].
      * simpl. unfold activeModals, onBody. simpl. rewrite alter_count by exact Hadd. lia.
      * destruct (String.eqb key "Escape"); simpl.
        -- unfold activeModals. simpl. rewrite closeFirstModal_count. lia.
        -- lia.
    + unfold activeModals, onMouseDown, onBody. simpl.
      rewrite alter_count by exact Hrem. lia.
Qed.
End KeyboardFacts.

(** ** Lazy images *)

Section LazyFacts.
Import ClassList PerformanceManager.

Local Abbreviation hit k := (fun e : Entry => isIntersecting e && (target e =? k)%nat).

Lemma loadImg_idem (img : Img) : loadImg (loadImg img) = loadImg img.
Proof. unfold loadImg. simpl. now rewrite remove_idem. Qed.

Lemma deferred_spec (page : list Img) (k : nat) :
  In k (deferred page) <->
  exists img, page !! k = Some img /\ is_Some (dataSrc img).
Proof.
  unfold deferred. rewrite filter_In, in_seq. split.
  - intros [_ H]. destruct (page !! k) as [img|]; [|discriminate].
    exists img. split; [reflexivity|]. destruct (dataSrc img); [eauto|discriminate].
  - intros (img & Hk & [u Hu]). split.
    + apply lookup_lt_Some in Hk. lia.
    + now rewrite Hk, Hu.
Qed.

Lemma observe_all (l : list nat) (s : Lazy) :
  let s' := fold_left (fun s k => {| imgs := imgs s; observed := observed s ∪ {[k]} |}) l s in
  imgs s' = imgs s /\ forall k, k ∈ observed s' <-> k ∈ observed s \/ In k l.
Proof.
  revert s. induction l as [|x l IH]; intros s; simpl.
  - split; [reflexivity|]. intros k. tauto.
  - destruct (IH {| imgs := imgs s; observed := observed s ∪ {[x]} |}) as [H1 H2].
    split; [exact H1|]. intros k. rewrite H2. simpl. set_solver.
Qed.

Lemma lazyLoadImages_spec (page : list Img) :
  imgs (lazyLoadImages page) = page /\
  forall k, k ∈ observed (lazyLoadImages page) <->
            exists img, page !! k = Some img /\ is_Some (dataSrc img).
Proof.
  unfold lazyLoadImages.
  destruct (observe_all (deferred page) {| imgs := page; observed := ∅ |}) as [H1 H2].
  split; [exact H1|]. intros k. rewrite H2, <- deferred_spec. simpl. set_solver.
Qed.

(** One notification, seen from image [k]. *)
Lemma lazy_callback_spec (k : nat) (entries : list Entry) (s : Lazy) (img : Img) :
  imgs s !! k = Some img ->
  let s' := callback entries s in
  imgs s' !! k = Some (if existsb (hit k) entries then loadImg img else img) /\
  (k ∈ observed s' <-> k ∈ observed s /\ existsb (hit k) entries = false) /\
  (loadImg img = img -> loadImg (if existsb (hit k) entries then loadImg img else img)
                        = (if existsb (hit k) entries then loadImg img else img)).
Proof.
  unfold callback. revert s img.
  induction entries as [|e entries IH]; intros s img Hk; simpl.
  - split; [exact Hk|]. split; [tauto|trivial].
  - destruct (isIntersecting e) eqn:Ei; simpl.
    + destruct (Nat.eqb_spec (target e) k) as [Et|Et].
      * destruct (IH {| imgs := alter loadImg (target e) (imgs s);
                        observed := observed s ∖ {[target e]} |} (loadImg img))
          as (H1 & H2 & _).
        { simpl. rewrite Et, list_lookup_alter_eq, Hk. reflexivity. }
        simpl in *. split; [|split].
        -- rewrite H1. rewrite loadImg_idem. now destruct (existsb _ entries).
        -- rewrite H2, Et. set_solver.
        -- intros _. apply loadImg_idem.
      * destruct (IH {| imgs := alter loadImg (target e) (imgs s);
                        observed := observed s ∖ {[target e]} |} img)
          as (H1 & H2 & H3).
        { simpl. rewrite list_lookup_alter_ne by exact Et. exact Hk. }
        simpl in *. split; [exact H1|]. split; [|exact H3].
        rewrite H2. set_solver.
    + apply IH. exact Hk.
Qed.

Lemma lazy_runCallbacks_spec (k : nat) (batches : list (list Entry)) (s : Lazy) (img : Img) :
  imgs s !! k = Some img ->
  let s' := runCallbacks batches s in
  imgs s' !! k = Some (if intersects k batches then loadImg img else img) /\
  (k ∈ observed s' <-> k ∈ observed s /\ intersects k batches = false).
Proof.
  unfold runCallbacks, intersects. revert s img.
  induction batches as [|b batches IH]; intros s img Hk; simpl.
  - split; [exact Hk|tauto].
  - destruct (lazy_callback_spec k b s img Hk) as (H1 & H2 & _).
    destruct (IH (callback b s) _ H1) as [H3 H4].
    rewrite existsb_app. split.
    + rewrite H3. destruct (existsb (hit k) b); simpl; [|reflexivity].
      rewrite loadImg_idem. now destruct (existsb _ (concat batches)).
    + rewrite H4, H2. rewrite orb_false_iff. tauto.
Qed.

(** X23.  Lazy loading, for every image of the page and every sequence of
    observer notifications: an image that no notification reports as
    intersecting is left as it is, and it is observed exactly when it has a
    [data-src] attribute; an image that some notification reports as
    intersecting has its [src] set from [data-src] and the class [lazy]
    removed, and is no longer observed. *)
Theorem X23_lazy_image_loads_when_it_intersects
    (page : list Img) (batches : list (list Entry)) (k : nat) (img : Img) :
  page !! k = Some img ->
  let s := runCallbacks batches (lazyLoadImages page) in
  if intersects k batches
  then imgs s !! k = Some (loadImg img) /\ k ∉ observed s
  else imgs s !! k = Some img /\ (k ∈ observed s <-> is_Some (dataSrc img)).
Proof.
  intros Hk s. destruct (lazyLoadImages_spec page) as [Hi Ho].
  destruct (lazy_runCallbacks_spec k batches (lazyLoadImages page) img) as [H1 H2].
  { now rewrite Hi. }
  fold s in H1, H2. destruct (intersects k batches) eqn:E.
  - split; [exact H1|]. rewrite H2. intros [_ H]. discriminate.
  - split; [exact H1|]. rewrite H2, Ho. split.
    + intros [(img' & Hk' & Hd) _]. congruence.
    + intros Hd. split; [eauto|reflexivity].
Qed.

Lemma X23_lazy_image_loads_when_it_intersects_witness :
  imgs (runCallbacks [[{| target := 0; isIntersecting := false |}];
                      [{| target := 0; isIntersecting := true |}]]
          (lazyLoadImages MoreExamples.twoImages)) !! 0 =
  option_map loadImg (MoreExamples.twoImages !! 0).
Proof.
  exact (proj1 (X23_lazy_image_loads_when_it_intersects MoreExamples.twoImages
                  [[{| target := 0; isIntersecting := false |}];
                   [{| target := 0; isIntersecting := true |}]]
                  0 _ eq_refl)).
Defined.
End LazyFacts.

(** ** [isElementInViewport] *)

Section ViewportFacts.
Local Open Scope Q_scope.

(** For an element of positive height the quotient can be cleared. *)
Lemma inViewport_pos (innerHeight : Q) (rect : Rect) (threshold : Q) :
  top rect < bottom rect ->
  (isElementInViewport innerHeight rect threshold = true <->
   threshold * (bottom rect - top rect) <=
   Qmin (bottom rect) innerHeight - Qmax (top rect) 0).
Proof.
  intros Hpos. unfold isElementInViewport, JSNum.div.
  set (h := bottom rect - top rect).
  set (v := Qmin (bottom rect) innerHeight - Qmax (top rect) 0).
  assert (Hh : 0 < h) by (subst h; lra).
  destruct (Qeq_bool h 0) eqn:E.
  - apply Qeq_bool_iff in E. lra.
  - simpl. rewrite Qle_bool_iff. split; intros H.
    + apply (Qmult_le_r _ _ h Hh) in H.
      assert (E2 : v / h * h == v) by (field; lra).
      now rewrite E2 in H.
    + apply Qle_shift_div_l; assumption.
Qed.

(** X10.  An element of zero height is never in the viewport, whatever the
    threshold: the quotient is then not a number or minus infinity. *)
Theorem X10_zero_height_is_never_in_viewport (innerHeight : Q) (rect : Rect) (threshold : Q) :
  top rect == bottom rect ->
  isElementInViewport innerHeight rect threshold = false.
Proof.
  intros Hz. unfold isElementInViewport, JSNum.div.
  assert (E : Qeq_bool (bottom rect - top rect) 0 = true) by (apply Qeq_bool_iff; lra).
  rewrite E.
  assert (Hv : Qmin (bottom rect) innerHeight - Qmax (top rect) 0 <= 0).
  { pose proof (Q.le_min_l (bottom rect) innerHeight).
    pose proof (Q.le_max_l (top rect) 0). lra. }
  destruct (JSNum.Qlt_bool 0 _) eqn:E1.
  - apply Qlt_bool_iff in E1. lra.
  - now destruct (JSNum.Qlt_bool _ 0).
Qed.

Lemma X10_zero_height_is_never_in_viewport_witness :
  isElementInViewport 800 {| top := 100; bottom := 100 |} 0 = false.
Proof.
  apply X10_zero_height_is_never_in_viewport. reflexivity.
Defined.

(** X11.  For a positive threshold, an element that lies wholly above the
    window (its bottom at or above 0) or wholly below it (its top at or
    below the window's lower edge [innerHeight]) is not in the viewport. *)
Theorem X11_element_outside_window_is_not_in_viewport
    (innerHeight : Q) (rect : Rect) (threshold : Q) :
  top rect <= bottom rect ->
  0 < threshold ->
  bottom rect <= 0 \/ innerHeight <= top rect ->
  isElementInViewport innerHeight rect threshold = false.
Proof.
  intros Hle Hth Hout.
  destruct (Qlt_le_dec (top rect) (bottom rect)) as [Hpos|Hz].
  - apply not_true_iff_false. rewrite inViewport_pos by exact Hpos.
    pose proof (Q.le_min_l (bottom rect) innerHeight).
    pose proof (Q.le_min_r (bottom rect) innerHeight).
    pose proof (Q.le_max_l (top rect) 0).
    pose proof (Q.le_max_r (top rect) 0).
    assert (0 < threshold * (bottom rect - top rect)) by (apply Qmult_lt_0_compat; lra).
    lra.
  - unfold isElementInViewport, JSNum.div.
    assert (E : Qeq_bool (bottom rect - top rect) 0 = true) by (apply Qeq_bool_iff; lra).
    rewrite E.
    assert (Hv : Qmin (bottom rect) innerHeight - Qmax (top rect) 0 <= 0).
    { pose proof (Q.le_min_l (bottom rect) innerHeight).
      pose proof (Q.le_max_l (top rect) 0). lra. }
    destruct (JSNum.Qlt_bool 0 _) eqn:E1.
    + apply Qlt_bool_iff in E1. lra.
    + now destruct (JSNum.Qlt_bool _ 0).
Qed.

Lemma X11_element_outside_window_is_not_in_viewport_witness :
  isElementInViewport 800 {| top := 800; bottom := 1400 |} (3 # 10) = false.
Proof.
  apply X11_element_outside_window_is_not_in_viewport;
    [vm_compute; discriminate|reflexivity|right; vm_compute; discriminate].
Defined.

(** X12.  For a threshold of at most 1, an element of positive height that
    lies wholly inside the window is in the viewport. *)
Theorem X12_element_inside_window_is_in_viewport
    (innerHeight : Q) (rect : Rect) (threshold : Q) :
  0 <= top rect -> top rect < bottom rect -> bottom rect <= innerHeight ->
  threshold <= 1 ->
  isElementInViewport innerHeight rect threshold = true.
Proof.
  intros H0 Hpos Hb Hth. apply inViewport_pos; [exact Hpos|].
  rewrite (proj2 (Q.min_l_iff _ _) Hb), (proj2 (Q.max_l_iff _ _) H0).
  assert (0 <= (1 - threshold) * (bottom rect - top rect)) by (apply Qmult_le_0_compat; lra).
  lra.
Qed.

Lemma X12_element_inside_window_is_in_viewport_witness :
  isElementInViewport 800 {| top := 0; bottom := 800 |} 1 = true.
Proof.
  apply X12_element_inside_window_is_in_viewport;
    [vm_compute; discriminate|reflexivity|vm_compute; discriminate|vm_compute; discriminate].
Defined.


End ViewportFacts.

(** ** More on the contact form *)

Section EmailMore.
Import JS FormManager.

Lemma notSpaceAt_spec (c : code_unit) :
  notSpaceAt c = true -> is_ws c = false /\ c <> 64%N.
Proof.
  unfold notSpaceAt. rewrite negb_true_iff, orb_false_iff, N.eqb_neq. tauto.
Qed.

Lemma notSpaceAt_count (l : list N) :
  @forallb N notSpaceAt l = true -> count_occ N.eq_dec l 64%N = 0.
Proof.
  induction l as [|c l IH]; simpl; [reflexivity|].
  rewrite andb_true_iff. intros [Hc Hl]. apply notSpaceAt_spec in Hc as [_ Hc].
  destruct (N.eq_dec c 64%N); [contradiction|auto].
Qed.

Lemma notSpaceAt_no_ws (l : list N) :
  @forallb N notSpaceAt l = true -> @existsb N is_ws l = false.
Proof.
  induction l as [|c l IH]; simpl; [reflexivity|].
  rewrite andb_true_iff. intros [Hc Hl]. apply notSpaceAt_spec in Hc as [Hc _].
  now rewrite Hc, IH.
Qed.

(** A string that neither starts nor ends with whitespace is its own trim. *)
Lemma trim_id (c c' : code_unit) (s s' : jsstring) :
  is_ws c = false -> is_ws c' = false ->
  c :: s = s' ++ [c'] -> trim (c :: s) = c :: s.
Proof.
  intros Hc Hc' E. unfold trim. simpl trimStart. rewrite Hc.
  unfold trimEnd. rewrite E, rev_unit. simpl trimStart. rewrite Hc'.
  change (c' :: rev s') with ([c'] ++ rev s'). rewrite rev_app_distr, rev_involutive.
  reflexivity.
Qed.

Lemma isValidEmail_facts (v : jsstring) :
  isValidEmail v = true ->
  count_occ N.eq_dec v 64%N = 1 /\
  existsb is_ws v = false /\
  5 <= length v /\
  trim v = v.
Proof.
  intros H. apply isValidEmail_shape in H.
  destruct H as (loc & dm & tld & -> & Hl & Hd & Ht & Fl & Fd & Ft).
  unfold jsstring, code_unit in *.
  split; [|split; [|split]].
  - rewrite !count_occ_app, (notSpaceAt_count _ Fl), (notSpaceAt_count _ Fd),
      (notSpaceAt_count _ Ft). reflexivity.
  - rewrite !existsb_app, (notSpaceAt_no_ws _ Fl), (notSpaceAt_no_ws _ Fd),
      (notSpaceAt_no_ws _ Ft). reflexivity.
  - rewrite !length_app. simpl.
    destruct loc; [congruence|]. destruct dm; [congruence|]. destruct tld; [congruence|].
    simpl. lia.
  - destruct loc as [|c loc]; [congruence|].
    destruct (exists_last Ht) as (tld' & c' & ->).
    simpl in Fl. apply andb_prop in Fl as [Hc _].
    rewrite forallb_app in Ft. apply andb_prop in Ft as [_ Hc'].
    simpl in Hc'. rewrite andb_true_r in Hc'.
    apply notSpaceAt_spec in Hc as [Hc _]. apply notSpaceAt_spec in Hc' as [Hc' _].
    simpl app at 1.
    apply (trim_id c c' _ (c :: loc ++ [64%N] ++ dm ++ [46%N] ++ tld') Hc Hc').
    simpl. f_equal. rewrite <- app_assoc. simpl. do 2 f_equal.
    rewrite <- app_assoc. reflexivity.
Qed.

(** X1.  What the email test asks of a value: a value it accepts holds
    exactly one at sign and no whitespace, is at least five code units long,
    and is left unchanged by [trim]. *)
Theorem X1_accepted_email_has_one_at_sign_and_no_whitespace (v : jsstring) :
  isValidEmail v = true ->
  count_occ N.eq_dec v 64%N = 1 /\
  existsb is_ws v = false /\
  5 <= length v /\
  trim v = v.
Proof. apply isValidEmail_facts. Qed.

Lemma X1_accepted_email_has_one_at_sign_and_no_whitespace_witness :
  isValidEmail (lit "ann@example.org") = true /\
  trim (lit "ann@example.org") = lit "ann@example.org".
Proof.
  split; [reflexivity|].
  apply (X1_accepted_email_has_one_at_sign_and_no_whitespace (lit "ann@example.org")).
  reflexivity.
Defined.
End EmailMore.

Section FormMore.
Import JS Timers FormManager FormInvariants.

(** X2.  With the four controls in the markup, [validateForm] accepts the
    submitted data exactly when the name, the subject and the message are
    not blank and the email value has the email shape. *)
Theorem X2_submit_accepted_iff_fields_filled_and_email_shaped
    (p : Page) (iN iE iS iM : nat) :
  Markup p iN iE iS iM ->
  (fst (validateForm (fromEntries (formData p)) p) = true <->
   blank (fieldValue p iN) = false /\
   emailShape (fieldValue p iE) /\
   blank (fieldValue p iS) = false /\
   blank (fieldValue p iM) = false).
Proof.
  intros Hm. destruct (validateForm_spec p iN iE iS iM Hm) as (Hf & _).
  rewrite Hf, <- isValidEmail_shape. clear Hf.
  pose proof (isValidEmail_blank (fieldValue p iE)) as Hb.
  destruct (blank (fieldValue p iN)), (blank (fieldValue p iS)),
    (blank (fieldValue p iM)); simpl; rewrite ?orb_true_r; simpl;
    try (split; [discriminate|intros (? & ? & ? & ?); discriminate]).
  destruct (isValidEmail (fieldValue p iE)) eqn:Ev.
  - destruct (blank (fieldValue p iE)); [specialize (Hb eq_refl); discriminate|].
    simpl. rewrite andb_false_r. tauto.
  - split; [|intros (? & ? & ? & ?); discriminate].
    destruct (blank (fieldValue p iE)) eqn:Eb; simpl; [discriminate|].
    unfold blank in Eb. rewrite negb_false_iff in Eb.
    assert (Ht : truthy (fieldValue p iE) = true).
    { destruct (fieldValue p iE); [discriminate|reflexivity]. }
    rewrite Ht. discriminate.
Qed.

Lemma X2_submit_accepted_iff_fields_filled_and_email_shaped_witness :
  let p := dom (Examples.contactForm (lit "Ann") (lit "ann@example.org") (lit "Hi")
                  (lit "Hello")) in
  Markup p 0 1 2 3 /\
  (fst (validateForm (fromEntries (formData p)) p) = true <->
   blank (fieldValue p 0) = false /\
   emailShape (fieldValue p 1) /\
   blank (fieldValue p 2) = false /\
   blank (fieldValue p 3) = false).
Proof.
  split; [apply contactForm_Markup|].
  apply X2_submit_accepted_iff_fields_filled_and_email_shaped, contactForm_Markup.
Defined.

(** *** Error messages do not pile up *)

Lemma atMostOne_show (k : nat) (m : string) (ds : list (nat * string)) :
  atMostOne ds -> atMostOne (removeFirstError k ds ++ [(k, m)]).
Proof.
  intros H k'. rewrite errorsIn_snoc, length_app. specialize (H k').
  destruct (Nat.eqb_spec k k') as [<-|Hne].
  - rewrite errorsIn_removeFirst_same. destruct (errorsIn k ds); simpl in *; lia.
  - rewrite errorsIn_removeFirst_other by congruence. simpl. lia.
Qed.

Lemma atMostOne_remove (k : nat) (ds : list (nat * string)) :
  atMostOne ds -> atMostOne (removeFirstError k ds).
Proof.
  intros H k'. specialize (H k'). destruct (Nat.eq_dec k' k) as [->|Hne].
  - rewrite errorsIn_removeFirst_same. destruct (errorsIn k ds); simpl in *; lia.
  - now rewrite errorsIn_removeFirst_other.
Qed.

Lemma showFieldError_atMostOne (n msg : string) (p : Page) :
  atMostOne (errorDivs p) -> atMostOne (errorDivs (showFieldError n msg p)).
Proof.
  intros H. unfold showFieldError. destruct (queryName n (elements p)) as [i|]; [|exact H].
  destruct (elements p !! i) as [e|]; [|exact H]. simpl. now apply atMostOne_show.
Qed.

Lemma clearFieldError_atMostOne (i : nat) (p : Page) :
  atMostOne (errorDivs p) -> atMostOne (errorDivs (clearFieldError i p)).
Proof.
  intros H. unfold clearFieldError. destruct (elements p !! i) as [e|]; [|exact H].
  simpl. now apply atMostOne_remove.
Qed.

Lemma showIf_atMostOne (b : bool) (n msg : string) (p : Page) :
  atMostOne (errorDivs p) -> atMostOne (errorDivs (showIf b n msg p)).
Proof. destruct b; [apply showFieldError_atMostOne|trivial]. Qed.

Lemma validateForm_atMostOne (data : gmap string jsstring) (p : Page) :
  atMostOne (errorDivs p) -> atMostOne (errorDivs (snd (validateForm data p))).
Proof.
  intros H. rewrite validateForm_unfold. cbn [snd].
  repeat apply showIf_atMostOne. exact H.
Qed.

Lemma validateField_atMostOne (i : nat) (p : Page) :
  atMostOne (errorDivs p) -> atMostOne (errorDivs (snd (validateField i p))).
Proof.
  intros H. unfold validateField. destruct (elements p !! i) as [e|] eqn:E; [|exact H].
  pose proof (clearFieldError_atMostOne i p H) as H1.
  destruct (required e && negb (truthy (trim (value e))));
    [now apply showFieldError_atMostOne|].
  destruct (String.eqb (name e) "email" && truthy (trim (value e))
            && negb (isValidEmail (trim (value e))));
    [now apply showFieldError_atMostOne|exact H1].
Qed.

Lemma fire_errorDivs (a : Action) (w : World) :
  errorDivs (dom (fire a w)) = errorDivs (dom w).
Proof. destruct a; reflexivity. Qed.

Lemma handleContactForm_errorDivs (w : World) :
  errorDivs (dom (handleContactForm w)) =
  errorDivs (snd (validateForm (fromEntries (formData (dom w))) (dom w))).
Proof.
  unfold handleContactForm.
  destruct (negb (fst (validateForm (fromEntries (formData (dom w))) (dom w))));
    [reflexivity|].
  simpl. destruct (submitBtn _); reflexivity.
Qed.

Lemma step_atMostOne (w : World) (ev : Event) :
  atMostOne (errorDivs (dom w)) -> atMostOne (errorDivs (dom (step w ev))).
Proof.
  intros H. destruct ev as [|i|i typed|]; simpl.
  - rewrite handleContactForm_errorDivs. now apply validateForm_atMostOne.
  - now apply validateField_atMostOne.
  - now apply clearFieldError_atMostOne.
  - unfold tick.
    apply (fold_fire_inv (fun w => atMostOne (errorDivs (dom w))) (fun _ => True)).
    + intros a w' _. now rewrite fire_errorDivs.
    + apply List.Forall_forall. auto.
    + exact H.
Qed.

(** X3.  Error messages never pile up: when no parent node holds more than
    one error message at the start, none does after any sequence of
    submits, blurs, inputs and clock ticks. *)
Theorem X3_at_most_one_error_message_per_field (w : World) (events : list Event) :
  atMostOne (errorDivs (dom w)) ->
  atMostOne (errorDivs (dom (run w events))).
Proof.
  unfold run. revert w. induction events as [|ev events IH]; intros w H; [exact H|].
  simpl. apply IH. now apply step_atMostOne.
Qed.

Lemma X3_at_most_one_error_message_per_field_witness :
  atMostOne
    (errorDivs
       (dom (run (Examples.contactForm [] (lit "abc") [] (lit "Hello"))
               [Submit; Blur 1; Submit; Input 0 (lit "A"); Tick; Submit]))).
Proof.
  apply X3_at_most_one_error_message_per_field.
  intros k. simpl. lia.
Defined.

(** X4.  Typing into a control stores the typed value and, on a page where
    no parent node holds more than one error message, leaves the control
    without a message and with its border colour reset; the values of the
    other controls, the submit button and the pending timers stay as they
    are. *)
Theorem X4_input_clears_the_message_of_its_field
    (w : World) (i : nat) (typed : jsstring) (e : Element) :
  elements (dom w) !! i = Some e ->
  atMostOne (errorDivs (dom w)) ->
  let w' := onInput i typed w in
  fieldValue (dom w') i = typed /\
  errorsOf (dom w') i = [] /\
  (borderColor <$> elements (dom w') !! i) = Some EmptyString /\
  (forall j, j <> i -> fieldValue (dom w') j = fieldValue (dom w) j) /\
  submitBtn (dom w') = submitBtn (dom w) /\
  pending w' = pending w.
Proof.
  intros He H w'. subst w'. unfold onInput, clearFieldError. simpl.
  rewrite list_lookup_alter_eq, He. simpl.
  unfold fieldValue, errorsOf. simpl.
  rewrite !list_lookup_alter_eq, He. simpl.
  repeat split.
  - rewrite errorsIn_removeFirst_same. specialize (H (parent e)).
    destruct (errorsIn (parent e) (errorDivs (dom w))) as [|m [|m' l]];
      simpl in *; [reflexivity|reflexivity|lia].
  - intros j Hj. now rewrite !list_lookup_alter_ne by congruence.
Qed.

Lemma X4_input_clears_the_message_of_its_field_witness :
  let w := handleContactForm (Examples.contactForm [] (lit "abc") (lit "Hi") (lit "Hello")) in
  errorsOf (dom w) 0 = [msgRequired] /\
  errorsOf (dom (onInput 0 (lit "A") w)) 0 = [].
Proof.
  split; [reflexivity|].
  refine (proj1 (proj2 (X4_input_clears_the_message_of_its_field
                          (handleContactForm
                             (Examples.contactForm [] (lit "abc") (lit "Hi") (lit "Hello")))
                          0 (lit "A") _ eq_refl _))).
  intros k. vm_compute.
  destruct k as [|k]; [lia|]. do 10 (destruct k as [|k]; [lia|]).
  do 2 (destruct k as [|k]; [lia|]). lia.
Defined.
(** *** Blur and submit disagree on a padded email *)

(** X5.  An email value with whitespace around an address of the email
    shape passes the check on blur, which trims the value, but fails the
    check on submit, which tests the value as typed: the submit is rejected
    with the email-format message on the email field. *)
Theorem X5_padded_email_passes_blur_but_fails_submit (p : Page) (iN iE iS iM : nat) :
  Markup p iN iE iS iM ->
  isValidEmail (trim (fieldValue p iE)) = true ->
  trim (fieldValue p iE) <> fieldValue p iE ->
  fst (validateField iE p) = true /\
  fst (validateForm (fromEntries (formData p)) p) = false /\
  errorsOf (snd (validateForm (fromEntries (formData p)) p)) iE =
    replaceError msgEmail (errorsOf p iE).
Proof.
  intros Hm Hv Hne.
  destruct (isValidEmail_facts _ Hv) as (_ & _ & Hlen & _).
  assert (Ht : truthy (trim (fieldValue p iE)) = true).
  { destruct (trim (fieldValue p iE)); [simpl in Hlen; lia|reflexivity]. }
  assert (Hbad : isValidEmail (fieldValue p iE) = false).
  { destruct (isValidEmail (fieldValue p iE)) eqn:E; [|reflexivity].
    destruct (isValidEmail_facts _ E) as (_ & _ & _ & Hid). contradiction. }
  assert (Hty : truthy (fieldValue p iE) = true).
  { destruct (fieldValue p iE); [discriminate|reflexivity]. }
  assert (Hb : blank (fieldValue p iE) = false).
  { unfold blank. now rewrite Ht. }
  split; [|split].
  - destruct (markup_email _ _ _ _ _ Hm) as [(e & He & Hn & _) _].
    unfold fieldValue in Ht, Hv. rewrite He in Ht, Hv.
    unfold validateField. rewrite He, Ht, Hv, Hn. simpl.
    now rewrite andb_false_r.
  - destruct (validateForm_spec p iN iE iS iM Hm) as (Hf & _).
    rewrite Hf, Hty, Hbad. simpl. now rewrite !orb_true_r.
  - destruct (validateForm_spec p iN iE iS iM Hm) as (_ & _ & _ & He & _).
    rewrite He, Hb, Hty, Hbad. reflexivity.
Qed.

Lemma X5_padded_email_passes_blur_but_fails_submit_witness :
  let p := dom (Examples.contactForm (lit "Ann") (lit " ann@example.org") (lit "Hi")
                  (lit "Hello")) in
  fst (validateField 1 p) = true /\
  fst (validateForm (fromEntries (formData p)) p) = false.
Proof.
  destruct (X5_padded_email_passes_blur_but_fails_submit
              (dom (Examples.contactForm (lit "Ann") (lit " ann@example.org") (lit "Hi")
                      (lit "Hello")))
              0 1 2 3 (contactForm_Markup _ _ _ _) eq_refl ltac:(discriminate))
    as (H1 & H2 & _).
  split; assumption.
Defined.

(** *** A form without one of the four controls *)

Lemma fromEntries_None (es : list (string * jsstring)) (k : string) :
  (forall v, ~ In (k, v) es) -> fromEntries es !! k = None.
Proof.
  induction es as [|kv es IH] using rev_ind; intros H.
  - apply lookup_empty.
  - rewrite fromEntries_snoc. destruct kv as [k' v']. simpl.
    rewrite lookup_insert_ne.
    + apply IH. intros v Hin. apply (H v), in_or_app. now left.
    + intros ->. apply (H v'), in_or_app. right. now left.
Qed.

Lemma formData_None (p : Page) (n : string) :
  hasControl n p = false -> fromEntries (formData p) !! n = None.
Proof.
  intros H. apply fromEntries_None. intros v Hin.
  unfold formData in Hin. apply in_map_iff in Hin as (e & He & Hin).
  apply filter_In in Hin as [Hin Hf]. injection He as Hn _.
  assert (Ht : hasControl n p = true); [|congruence].
  unfold hasControl. apply existsb_exists. exists e. split; [exact Hin|].
  unfold hasName. now rewrite Hf, Hn, String.eqb_refl.
Qed.

Lemma validateForm_None (data : gmap string jsstring) (p : Page) (n : string) :
  In n requiredFields -> data !! n = None -> fst (validateForm data p) = false.
Proof.
  intros Hin Hn. rewrite validateForm_unfold. cbn [fst].
  unfold requiredFields in Hin. simpl in Hin.
  destruct Hin as [<-|[<-|[<-|[<-|[]]]]]; rewrite Hn; simpl;
    now rewrite ?orb_true_r.
Qed.

Lemma hasControl_static (n : string) (p p' : Page) :
  map static (elements p') = map static (elements p) ->
  hasControl n p' = hasControl n p.
Proof.
  unfold hasControl. generalize (elements p) (elements p').
  induction l as [|e l IH]; intros [|e' l'] H; try discriminate; [reflexivity|].
  simpl in H. unfold static at 1 3 in H.
  injection H as Hn _ Hi _ _ Hl. simpl. rewrite (IH _ Hl).
  unfold hasName. now rewrite Hn, Hi.
Qed.

Lemma validateForm_unchanged (data : gmap string jsstring) (p : Page) :
  unchanged p (snd (validateForm data p)).
Proof.
  rewrite validateForm_unfold. cbn [snd].
  repeat (eapply unchanged_trans; [|apply showIf_unchanged]). apply unchanged_refl.
Qed.

Lemma validateField_unchanged (i : nat) (p : Page) :
  unchanged p (snd (validateField i p)).
Proof.
  unfold validateField. destruct (elements p !! i) as [e|]; [|apply unchanged_refl].
  pose proof (clearFieldError_unchanged i p) as H1.
  destruct (required e && negb (truthy (trim (value e))));
    [eapply unchanged_trans; [exact H1|apply showFieldError_unchanged]|].
  destruct (String.eqb (name e) "email" && truthy (trim (value e))
            && negb (isValidEmail (trim (value e))));
    [eapply unchanged_trans; [exact H1|apply showFieldError_unchanged]|exact H1].
Qed.

Lemma onInput_frame (i : nat) (typed : jsstring) (w : World) :
  let w' := onInput i typed w in
  map static (elements (dom w')) = map static (elements (dom w)) /\
  submitBtn (dom w') = submitBtn (dom w) /\
  banners (dom w') = banners (dom w) /\
  pending w' = pending w /\ now w' = now w.
Proof.
  simpl. unfold onInput. simpl.
  set (p1 := withElements (alter (setValue typed) i) (dom w)).
  destruct (clearFieldError_unchanged i p1) as (Hs & _ & Hb & Hn & _).
  assert (H1 : map static (elements p1) = map static (elements (dom w))).
  { subst p1. simpl. apply map_alter_same. reflexivity. }
  rewrite Hs, Hb, Hn. repeat split; assumption.
Qed.

(** X6.  When the form lacks a text control for one of the four required
    names, no submit is ever accepted: whatever the values typed, after any
    sequence of submits, blurs, inputs and clock ticks no timer is pending,
    the submit button is as the markup has it and no success banner is
    shown. *)
Theorem X6_form_without_a_required_control_is_never_sent
    (es : list Element) (ds : list (nat * string)) (btn : option Button)
    (n : string) (events : list Event) :
  In n requiredFields ->
  hasControl n (dom (load es ds btn)) = false ->
  let w := run (load es ds btn) events in
  pending w = [] /\ banners (dom w) = [] /\ submitBtn (dom w) = btn.
Proof.
  intros Hn Hc. simpl.
  assert (K : forall w : World,
             pending w = [] /\ banners (dom w) = [] /\ submitBtn (dom w) = btn /\
             hasControl n (dom w) = false ->
             forall ev,
               pending (step w ev) = [] /\ banners (dom (step w ev)) = [] /\
               submitBtn (dom (step w ev)) = btn /\ hasControl n (dom (step w ev)) = false).
  { intros w (Hp & Hb & Hs & Hh) ev. destruct ev as [|i|i typed|]; cbn [step].
    - rewrite handleContactForm_invalid
        by (apply (validateForm_None _ _ n Hn), formData_None, Hh).
      simpl.
      destruct (validateForm_unchanged (fromEntries (formData (dom w))) (dom w))
        as (Hst & _ & Hsb & Hbn & _).
      rewrite Hsb, Hbn, (hasControl_static n _ _ Hst). auto.
    - destruct (validateField_unchanged i (dom w)) as (Hst & _ & Hsb & Hbn & _).
      unfold onBlur, withDom. cbn [dom pending].
      rewrite Hsb, Hbn, (hasControl_static n _ _ Hst). auto.
    - destruct (onInput_frame i typed w) as (Hst & Hsb & Hbn & Hpe & _).
      rewrite Hsb, Hbn, Hpe, (hasControl_static n _ _ Hst). auto.
    - rewrite tick_nothing_due by (rewrite Hp; constructor). simpl. auto. }
  unfold run.
  assert (H0 : pending (load es ds btn) = [] /\ banners (dom (load es ds btn)) = [] /\
               submitBtn (dom (load es ds btn)) = btn /\
               hasControl n (dom (load es ds btn)) = false) by auto.
  revert H0. generalize (load es ds btn).
  induction events as [|ev events IH]; intros w H0.
  - simpl. tauto.
  - simpl. apply IH, K, H0.
Qed.

Lemma X6_form_without_a_required_control_is_never_sent_witness :
  let w := run (MoreExamples.formWithoutSubject (lit "Ann") (lit "ann@example.org")
                  (lit "Hello"))
               [Submit; Tick; Input 0 (lit "Bob"); Blur 1; Submit] in
  pending w = [] /\ banners (dom w) = [] /\
  submitBtn (dom w) = Some {| innerHTML := "Send Message"; disabled := false |}.
Proof.
  apply (X6_form_without_a_required_control_is_never_sent _ _ _ "subject").
  - right. right. now left.
  - reflexivity.
Defined.

(** *** The submit button does not stay disabled *)

Lemma fire_button (a : nat * Action) (w : World) :
  now (fire (snd a) w) = now w /\
  (exists extra,
      pending (fire (snd a) w) = pending w ++ extra /\
      Forall (fun p => fst p = now w + 5000 /\ isSubmitDone p = false) extra) /\
  isDisabled (dom (fire (snd a) w)) =
    (if isSubmitDone a then false else isDisabled (dom w)).
Proof.
  destruct a as [t [txt|b]]; unfold isSubmitDone, isDisabled; simpl.
  - split; [reflexivity|]. split.
    + eexists. split; [reflexivity|]. repeat constructor.
    + now destruct (submitBtn (dom w)).
  - split; [reflexivity|]. split; [|reflexivity].
    exists []. split; [now rewrite app_nil_r|constructor].
Qed.

Lemma fold_fire_button (l : list (nat * Action)) (w : World) :
  let w' := fold_left (fun w' p => fire (snd p) w') l w in
  now w' = now w /\
  (exists extra,
      pending w' = pending w ++ extra /\
      Forall (fun p => fst p = now w + 5000 /\ isSubmitDone p = false) extra) /\
  isDisabled (dom w') = (if existsb isSubmitDone l then false else isDisabled (dom w)).
Proof.
  revert w. induction l as [|a l IH]; intros w; simpl.
  - split; [reflexivity|]. split; [|reflexivity].
    exists []. split; [now rewrite app_nil_r|constructor].
  - destruct (fire_button a w) as (Hn & (ex1 & Hp1 & He1) & Hd).
    destruct (IH (fire (snd a) w)) as (Hn' & (ex2 & Hp2 & He2) & Hd').
    split; [congruence|]. split.
    + exists (ex1 ++ ex2). split.
      * rewrite Hp2, Hp1. now rewrite app_assoc.
      * apply Forall_app. split; [exact He1|]. now rewrite Hn in He2.
    + rewrite Hd', Hd. destruct (isSubmitDone a); simpl; [|reflexivity].
      now destruct (existsb isSubmitDone l).
Qed.

Lemma existsb_filter_split {X : Type} (f g : X -> bool) (l : list X) :
  existsb f l = existsb f (List.filter g l)
                || existsb f (List.filter (fun x => negb (g x)) l).
Proof.
  induction l as [|x l IH]; simpl; [reflexivity|].
  rewrite IH. destruct (g x); simpl; destruct (f x); simpl;
    rewrite ?orb_true_r; reflexivity.
Qed.

Lemma tick_notStuck (deadline : nat) (w : World) :
  notStuck deadline w ->
  notStuck deadline (tick fire w) /\ now (tick fire w) = S (now w).
Proof.
  intros (H3 & H1 & H2). unfold tick. cbv zeta.
  set (due := List.filter (isDue (S (now w))) (pending w)).
  set (rest := List.filter (fun p => negb (isDue (S (now w)) p)) (pending w)).
  destruct (fold_fire_button due {| now := S (now w); pending := rest; dom := dom w |})
    as (Hn & (extra & Hp & He) & Hd).
  simpl in Hn, Hp, He, Hd. unfold World in *. split; [|exact Hn].
  unfold notStuck. rewrite Hn, Hp, Hd. split; [|split].
  - destruct (existsb isSubmitDone due) eqn:Edue; [discriminate|].
    intros Hdis. specialize (H3 Hdis).
    rewrite (existsb_filter_split _ (isDue (S (now w)))) in H3.
    fold due in H3. fold rest in H3. rewrite Edue in H3. simpl in H3.
    rewrite existsb_app, H3. reflexivity.
  - apply Forall_app. split.
    + apply List.Forall_forall. intros x Hx. apply filter_In in Hx as [Hx _].
      rewrite List.Forall_forall in H1. now apply H1.
    + eapply List.Forall_impl; [|exact He]. intros x [_ Hx] Hx'. congruence.
  - apply Forall_app. split.
    + apply List.Forall_forall. intros x Hx. apply filter_In in Hx as [_ Hx].
      unfold isDue in Hx. apply negb_true_iff, Nat.leb_gt in Hx. exact Hx.
    + eapply List.Forall_impl; [|exact He]. intros x [Hx _]. simpl. lia.
Qed.

Lemma advance_notStuck (deadline n : nat) (w : World) :
  notStuck deadline w ->
  notStuck deadline (advance fire n w) /\ now (advance fire n w) = now w + n.
Proof.
  intros H. induction n as [|n [IH1 IH2]].
  - simpl. split; [exact H|lia].
  - rewrite advance_S. destruct (tick_notStuck deadline _ IH1) as [H1 H2].
    split; [exact H1|]. rewrite H2, IH2. lia.
Qed.

Lemma notStuck_mono (d d' : nat) (w : World) :
  d <= d' -> notStuck d w -> notStuck d' w.
Proof.
  intros Hd (H3 & H1 & H2). split; [exact H3|]. split; [|exact H2].
  eapply List.Forall_impl; [|exact H1]. intros x Hx Hs. specialize (Hx Hs). lia.
Qed.

Lemma notStuck_frame (d : nat) (w w' : World) :
  now w' = now w -> pending w' = pending w ->
  submitBtn (dom w') = submitBtn (dom w) ->
  notStuck d w -> notStuck d w'.
Proof.
  intros Hn Hp Hb. unfold notStuck, isDisabled. now rewrite Hn, Hp, Hb.
Qed.

Lemma step_notStuck (w : World) (ev : Event) :
  notStuck (now w + 2000) w -> notStuck (now (step w ev) + 2000) (step w ev).
Proof.
  intros H. destruct ev as [|i|i typed|]; cbn [step].
  - unfold handleContactForm.
    set (r := validateForm (fromEntries (formData (dom w))) (dom w)).
    destruct (validateForm_unchanged (fromEntries (formData (dom w))) (dom w))
      as (_ & _ & Hsb & _).
    fold r in Hsb.
    assert (H1 : notStuck (now w + 2000) (withDom (fun _ => snd r) w)).
    { now apply (notStuck_frame _ w). }
    destruct (negb (fst r)); [exact H1|].
    destruct (submitBtn (dom (withDom (fun _ => snd r) w))) as [b|]; [|exact H1].
    destruct H as (H3 & Hd & Hf). unfold notStuck, isDisabled. simpl.
    split; [|split].
    + intros _. rewrite existsb_app. simpl. now rewrite orb_true_r.
    + apply Forall_app. split; [exact Hd|]. repeat constructor.
    + apply Forall_app. split; [exact Hf|]. repeat constructor. simpl. lia.
  - apply (notStuck_frame _ w); try reflexivity; [|exact H].
    simpl. now destruct (validateField_unchanged i (dom w)) as (_ & _ & Hsb & _).
  - destruct (onInput_frame i typed w) as (_ & Hsb & _ & Hp & Hn).
    rewrite Hn. now apply (notStuck_frame _ w).
  - destruct (tick_notStuck _ _ H) as [H1 H2]. rewrite H2.
    apply (notStuck_mono (now w + 2000)); [lia|exact H1].
Qed.

(** X14.  The submit button does not stay disabled: on a page whose button
    is enabled at load, after any sequence of submits, blurs, inputs and
    clock ticks, 2000 ms without an event leave the button enabled. *)
Theorem X14_submit_button_is_enabled_after_2000ms_of_quiet
    (es : list Element) (ds : list (nat * string)) (btn : option Button)
    (events : list Event) :
  isDisabled (dom (load es ds btn)) = false ->
  isDisabled (dom (advance fire 2000 (run (load es ds btn) events))) = false.
Proof.
  intros H0.
  assert (Hrun : forall evs (w : World),
             notStuck (now w + 2000) w -> notStuck (now (run w evs) + 2000) (run w evs)).
  { unfold run. induction evs as [|ev evs IH]; intros w Hw; [exact Hw|].
    simpl. apply IH, step_notStuck, Hw. }
  assert (Hload : notStuck (now (load es ds btn) + 2000) (load es ds btn)).
  { split; [|split; constructor]. simpl in *. congruence. }
  pose proof (Hrun events _ Hload) as Hw.
  set (w := run (load es ds btn) events) in *.
  destruct (advance_notStuck _ 2000 w Hw) as [(H3 & Hd & Hf) Hn].
  destruct (isDisabled (dom (advance fire 2000 w))) eqn:E; [|reflexivity].
  specialize (H3 eq_refl). apply existsb_exists in H3 as (x & Hx & Hs).
  rewrite List.Forall_forall in Hd, Hf.
  specialize (Hd x Hx Hs). specialize (Hf x Hx). lia.
Qed.

Lemma X14_submit_button_is_enabled_after_2000ms_of_quiet_witness :
  isDisabled
    (dom (advance fire 2000
            (run (Examples.contactForm (lit "Ann") (lit "ann@example.org") (lit "Hi")
                    (lit "Hello"))
                 [Submit; Tick; Tick]))) = false.
Proof.
  apply (X14_submit_button_is_enabled_after_2000ms_of_quiet _ _ _ [Submit; Tick; Tick]).
  reflexivity.
Defined.
End FormMore.

(** ** More on the theme *)

Section ThemeMore.
Import ThemeManager.

(** What the constructor would read from the storage. *)
Local Abbreviation stored storage :=
  (match storage !! "theme" with
   | Some s => if String.eqb s "" then "light" else s
   | None => "light"
   end).

Lemma toggleTheme_stored (tm : t) :
  currentTheme (toggleTheme tm) = stored (localStorage (toggleTheme tm)).
Proof.
  unfold toggleTheme. simpl. rewrite lookup_insert_eq.
  now destruct (String.eqb (currentTheme tm) "light").
Qed.

Lemma run_stored (markupTheme : option string) (storage : gmap string string)
    (events : list Event) :
  let tm := run markupTheme storage events in
  currentTheme tm = stored (localStorage tm).
Proof.
  unfold run.
  assert (H0 : currentTheme (create markupTheme storage) =
               stored (localStorage (create markupTheme storage))) by reflexivity.
  revert H0. generalize (create markupTheme storage).
  induction events as [|ev events IH]; intros tm H; [exact H|].
  simpl. apply IH. destruct ev; simpl.
  - apply toggleTheme_stored.
  - exact H.
  - reflexivity.
Qed.

(** X7.  The theme survives a reload: after any sequence of toggles,
    scroll updates and reloads, whatever the storage held at first, a
    reload of the page comes up with the theme the page had before it, and
    writes it to the [data-theme] attribute.  A toggle writes no storage
    key but [theme]. *)
Theorem X7_reload_keeps_the_theme (markupTheme markupTheme' : option string)
    (storage : gmap string string) (events : list Event) :
  let tm := run markupTheme storage events in
  currentTheme (step tm (Reload markupTheme')) = currentTheme tm /\
  dataTheme (step tm (Reload markupTheme')) = Some (currentTheme tm) /\
  forall key, key <> "theme" ->
    localStorage (toggleTheme tm) !! key = localStorage tm !! key.
Proof.
  intros tm. pose proof (run_stored markupTheme storage events) as H.
  fold tm in H. simpl in H. split; [|split].
  - simpl. now rewrite H.
  - simpl. now rewrite H.
  - intros key Hk. unfold toggleTheme. simpl. now rewrite lookup_insert_ne.
Qed.

(** X8.  A foreign value in the storage lasts until the first toggle: once
    the theme has been toggled, the theme is [light] or [dark], the
    [data-theme] attribute carries it and the storage holds it, whatever
    the storage held at load and whatever happens afterwards. *)
Theorem X8_first_toggle_repairs_a_foreign_theme (markupTheme : option string)
    (storage : gmap string string) (before after : list Event) :
  let tm := run markupTheme storage (before ++ Toggle :: after) in
  known (currentTheme tm) /\
  dataTheme tm = Some (currentTheme tm) /\
  localStorage tm !! "theme" = Some (currentTheme tm).
Proof.
  intros tm. subst tm. unfold run. rewrite fold_left_app. simpl.
  set (tm0 := fold_left step before (create markupTheme storage)).
  assert (H : themeInv (toggleTheme tm0) /\
              localStorage (toggleTheme tm0) !! "theme" = Some (currentTheme (toggleTheme tm0))).
  { split; [apply toggleTheme_inv|]. unfold toggleTheme. simpl. apply lookup_insert_eq. }
  revert H. generalize (toggleTheme tm0).
  induction after as [|ev after IH]; intros tm [Hi Hs].
  - destruct Hi as (H1 & H2 & _). auto.
  - simpl. apply IH. split; [now apply step_inv|].
    destruct ev; simpl.
    + unfold toggleTheme. simpl. apply lookup_insert_eq.
    + exact Hs.
    + rewrite Hs. destruct Hi as ([->| ->] & _); reflexivity.
Qed.
End ThemeMore.

(** ** More on the navigation bar *)

Section NavigationMore.
Import ClassList Navigation.

Lemma updateActiveSection_frame (vp : Viewport) (nav : t) :
  navbar (updateActiveSection vp nav) = navbar nav /\
  scrollThreshold (updateActiveSection vp nav) = scrollThreshold nav.
Proof.
  unfold updateActiveSection.
  now destruct (bool_decide (Some (currentSection vp) = activeSection nav)).
Qed.

Lemma run_threshold (vp0 : Viewport) (cls : list string) (links : list Link)
    (scrolls : list Viewport) :
  scrollThreshold (run vp0 cls links scrolls) = 100%Q.
Proof.
  induction scrolls as [|vp scrolls IH] using rev_ind.
  - unfold run, create. cbn [fold_left]. unfold handleNavbarScroll. cbn [scrollThreshold].
    now rewrite (proj2 (updateActiveSection_frame _ _)).
  - rewrite run_snoc. unfold onScroll.
    now rewrite (proj2 (updateActiveSection_frame _ _)).
Qed.

(** X9.  After the load and after every scroll update the navigation bar
    carries the class [scrolled] if and only if the page is scrolled by
    more than 100 px; no other class of the bar is ever changed. *)
Theorem X9_navbar_is_scrolled_iff_beyond_100 (vp0 : Viewport) (cls : list string)
    (links : list Link) (scrolls : list Viewport) :
  let nav := run vp0 cls links scrolls in
  let vp := List.last scrolls vp0 in
  (contains (navbar nav) "scrolled" = true <-> (100 < pageYOffset vp)%Q) /\
  forall tok, tok <> "scrolled" -> contains (navbar nav) tok = contains cls tok.
Proof.
  simpl. rewrite <- Qlt_bool_iff.
  induction scrolls as [|vp scrolls IH] using rev_ind.
  - unfold run, create. cbn [fold_left List.last]. unfold handleNavbarScroll.
    cbn [navbar].
    rewrite (proj2 (updateActiveSection_frame _ _)),
      (proj1 (updateActiveSection_frame _ _)). cbn [navbar scrollThreshold]. split.
    + now rewrite contains_toggleForce.
    + intros tok Ht. unfold toggleForce.
      destruct (JSNum.Qlt_bool 100 (pageYOffset vp0));
        [apply contains_add_other|apply contains_remove_other]; congruence.
  - rewrite run_snoc, List.last_last. unfold onScroll.
    rewrite (proj1 (updateActiveSection_frame _ _)). unfold handleNavbarScroll.
    cbn [navbar]. rewrite run_threshold. split.
    + now rewrite contains_toggleForce.
    + intros tok Ht. destruct IH as [_ IH]. rewrite <- (IH tok Ht).
      unfold toggleForce.
      destruct (JSNum.Qlt_bool 100 (pageYOffset vp));
        [apply contains_add_other|apply contains_remove_other]; congruence.
Qed.



End NavigationMore.

(** ** Which elements wait for their reveal *)

Section RevealSetupFacts.
Import AnimationManager RevealSetup.

Lemma hide_idem (e : El) : hide (hide e) = hide e.
Proof. reflexivity. Qed.

(** The inner loop of [observeElements], seen from element [i]. *)
Lemma observe_list (l : list nat) (s : t) (i : nat) :
  let s' := fold_left
              (fun s2 element =>
                 {| observerOptions := observerOptions s2;
                    els := alter hide element (els s2);
                    observed := observed s2 ∪ {[element]} |}) l s in
  els s' !! i = (if existsb (Nat.eqb i) l then hide else fun e => e) <$> (els s !! i) /\
  (i ∈ observed s' <-> i ∈ observed s \/ In i l).
Proof.
  revert s. induction l as [|x l IH]; intros s; simpl.
  - split; [now destruct (els s !! i)|tauto].
  - destruct (IH {| observerOptions := observerOptions s;
                    els := alter hide x (els s);
                    observed := observed s ∪ {[x]} |}) as [H1 H2].
    simpl in H1, H2. split.
    + rewrite H1. destruct (Nat.eqb_spec i x) as [->|Hne]; simpl.
      * rewrite list_lookup_alter_eq. destruct (els s !! x); simpl; [|reflexivity].
        now destruct (existsb (Nat.eqb x) l).
      * now rewrite list_lookup_alter_ne by congruence.
    + rewrite H2. set_solver.
Qed.

Lemma querySelectorAll_In (cls : string) (page : list El) (i : nat) :
  In i (querySelectorAll cls page) <->
  exists e, page !! i = Some e /\ ClassList.contains (classes e) cls = true.
Proof.
  unfold querySelectorAll. rewrite filter_In, in_seq. split.
  - intros [_ H]. destruct (page !! i) as [e|]; [eauto|discriminate].
  - intros (e & He & Hc). split.
    + apply lookup_lt_Some in He. lia.
    + now rewrite He.
Qed.

(** The outer loop, seen from element [i] of the page: [seen] tells
    whether an earlier selector matched it. *)
Lemma observe_selectors (sels : list string) (s : t) (i : nat) (e : El) (seen : bool) :
  els s !! i = Some (if seen then hide e else e) ->
  (i ∈ observed s <-> seen = true) ->
  let s' := fold_left
              (fun s1 selector =>
                 fold_left
                   (fun s2 element =>
                      {| observerOptions := observerOptions s2;
                         els := alter hide element (els s2);
                         observed := observed s2 ∪ {[element]} |})
                   (querySelectorAll selector (els s1)) s1) sels s in
  let seen' := seen || existsb (ClassList.contains (classes e)) sels in
  els s' !! i = Some (if seen' then hide e else e) /\
  (i ∈ observed s' <-> seen' = true).
Proof.
  revert s seen. induction sels as [|sel sels IH]; intros s seen He Ho; simpl.
  - rewrite orb_false_r. split; assumption.
  - destruct (observe_list (querySelectorAll sel (els s)) s i) as [H1 H2].
    simpl in H1, H2.
    set (hit := ClassList.contains (classes e) sel).
    assert (Hq : In i (querySelectorAll sel (els s)) <-> hit = true).
    { rewrite querySelectorAll_In, He. split.
      - intros (e' & [= <-] & Hc). now destruct seen.
      - intros Hh. eexists. split; [reflexivity|]. now destruct seen. }
    assert (Hex : existsb (Nat.eqb i) (querySelectorAll sel (els s)) = hit).
    { destruct hit.
      - apply existsb_exists. exists i. split; [now apply Hq|apply Nat.eqb_refl].
      - apply not_true_iff_false. intros Hx. apply existsb_exists in Hx as (j & Hj & Hij).
        apply Nat.eqb_eq in Hij. subst j. apply Hq in Hj. discriminate. }
    rewrite Hex, He in H1.
    specialize (IH _ (seen || hit) (eq_trans H1 (f_equal Some
                  (match seen, hit return
                     (if hit then hide else fun e0 => e0) (if seen then hide e else e) =
                     (if seen || hit then hide e else e)
                   with
                   | true, true => eq_refl | true, false => eq_refl
                   | false, true => eq_refl | false, false => eq_refl
                   end)))).
    rewrite orb_assoc. apply IH.
    rewrite H2, Ho, Hq. destruct seen, hit; simpl; intuition congruence.
Qed.

Lemma reveal_callback_untouched (entries : list Entry) (s : t) (i : nat) :
  Forall (fun e => isIntersecting e = true -> target e <> i) entries ->
  els (callback entries s) !! i = els s !! i /\
  (i ∈ observed (callback entries s) <-> i ∈ observed s).
Proof.
  intros H. revert s. induction H as [|entry entries Hx _ IH]; intros s.
  - split; [reflexivity|tauto].
  - rewrite callback_cons. destruct (isIntersecting entry) eqn:E; [|apply IH].
    specialize (Hx eq_refl).
    destruct (IH (animateElement (target entry) s)) as [H1 H2].
    rewrite H1, H2. unfold animateElement. simpl.
    rewrite list_lookup_alter_ne by exact Hx. split; [reflexivity|set_solver].
Qed.

(** X25.  Which elements wait for their reveal: after the setup, and for
    as long as no notification reports the element as intersecting, an
    element that carries one of the six watched classes is hidden (opacity
    0, shifted by 30 px, with the transition set) and observed, and any
    other element has its inline styles as the markup has them and is not
    observed. *)
Theorem X25_watched_elements_stay_hidden_until_reported
    (page : list El) (batches : list (list Entry)) (i : nat) (e : El) :
  page !! i = Some e ->
  neverIntersects i batches ->
  let s := runCallbacks batches (setupIntersectionObserver page) in
  if watched e
  then els s !! i = Some (hide e) /\ i ∈ observed s
  else els s !! i = Some e /\ i ∉ observed s.
Proof.
  intros He Hn s.
  destruct (observe_selectors elementsToObserve
              {| observerOptions := options; els := page; observed := ∅ |} i e false)
    as [H1 H2]; [exact He|simpl; split; [set_solver|discriminate]|].
  cbn [orb] in H1, H2. fold (watched e) in H1, H2.
  change (fold_left _ elementsToObserve _) with (setupIntersectionObserver page) in H1, H2.
  assert (Hs : els s !! i = els (setupIntersectionObserver page) !! i /\
               (i ∈ observed s <-> i ∈ observed (setupIntersectionObserver page))).
  { subst s. unfold runCallbacks. generalize (setupIntersectionObserver page).
    induction Hn as [|entries batches Hx _ IH]; intros s0; simpl.
    - split; [reflexivity|tauto].
    - destruct (IH (callback entries s0)) as [Ha Hb].
      destruct (reveal_callback_untouched entries s0 i Hx) as [Hc Hd].
      rewrite Ha, Hb, Hc, Hd. split; [reflexivity|tauto]. }
  destruct Hs as [Hs1 Hs2]. rewrite Hs1, H1.
  destruct (watched e).
  - split; [reflexivity|]. now apply Hs2, H2.
  - split; [reflexivity|]. intros Hin. apply Hs2, H2 in Hin. discriminate.
Qed.

Lemma X25_watched_elements_stay_hidden_until_reported_witness :
  let s := runCallbacks [[{| target := 0; isIntersecting := false |}]]
             (setupIntersectionObserver Examples.twoElements) in
  els s !! 0 =
    Some (hide {| classes := ["project-card"]; opacity := ""; transform := "";
                  transition := "" |}) /\
  0 ∈ observed s.
Proof.
  assert (Hn : neverIntersects 0 [[{| target := 0; isIntersecting := false |}]]).
  { repeat constructor. simpl. discriminate. }
  exact (X25_watched_elements_stay_hidden_until_reported Examples.twoElements
           [[{| target := 0; isIntersecting := false |}]] 0 _ eq_refl Hn).
Defined.
End RevealSetupFacts.

(** ** The active filter button *)

Section FilterButtons.
Import Timers ProjectGallery.

Lemma filterCard_buttons (f : option string) (w : World) (j : nat) :
  filterButtons (dom (filterCard f w j)) = filterButtons (dom w).
Proof.
  unfold filterCard. destruct (projectCards (dom w) !! j) as [c|]; [|reflexivity].
  now destruct (bool_decide (f = Some "all") || bool_decide (category c = f)).
Qed.

Lemma filterLoop_buttons (f : option string) (js : list nat) (w : World) :
  filterButtons (dom (fold_left (filterCard f) js w)) = filterButtons (dom w).
Proof.
  revert w. induction js as [|j js IH]; intros w; [reflexivity|].
  simpl. now rewrite IH, filterCard_buttons.
Qed.

Lemma advance_buttons (k : nat) (w : World) :
  filterButtons (dom (advance fire k w)) = filterButtons (dom w).
Proof.
  induction k as [|k IH]; [reflexivity|].
  rewrite advance_S, <- IH. generalize (advance fire k w). intros w'.
  unfold tick. cbv zeta.
  generalize (List.filter (isDue (S (now w'))) (pending w')).
  generalize (List.filter (fun p => negb (isDue (S (now w')) p)) (pending w')).
  intros q l.
  change (filterButtons (dom w')) with
    (filterButtons (dom {| now := S (now w'); pending := q; dom := dom w' |})).
  generalize {| now := S (now w'); pending := q; dom := dom w' |}.
  induction l as [|p l IHl]; intros w0; [reflexivity|].
  simpl. rewrite IHl. apply fire_frame.
Qed.

Lemma activate_spec (btn j : nat) (buttons : list FilterBtn) (b' : FilterBtn) :
  activate btn buttons !! j = Some b' ->
  (ClassList.contains (classList b') "active" = true <-> j = btn) /\
  Some (filter b') = filter <$> (buttons !! j).
Proof.
  unfold activate.
  change (map ?f buttons) with (f <$> buttons).
  destruct (Nat.eq_dec j btn) as [->|Hne].
  - rewrite list_lookup_alter_eq, list_lookup_fmap.
    destruct (buttons !! btn) as [b|]; simpl; [|discriminate].
    intros [= <-]. simpl. rewrite contains_add_same. tauto.
  - rewrite list_lookup_alter_ne by congruence. rewrite list_lookup_fmap.
    destruct (buttons !! j) as [b|]; simpl; [|discriminate].
    intros [= <-]. simpl. rewrite contains_remove_same. split; [|reflexivity].
    split; [discriminate|contradiction].
Qed.

(** X26.  After a click on a filter button, and for as long as no other
    button is clicked, that button is the one and only filter button
    marked [active]; the filter values of the buttons are never changed. *)
Theorem X26_clicked_filter_button_is_the_only_active_one
    (w : World) (btn : nat) (b : FilterBtn) (k j : nat) (b' : FilterBtn) :
  filterButtons (dom w) !! btn = Some b ->
  filterButtons (dom (advance fire k (onClick btn w))) !! j = Some b' ->
  (ClassList.contains (classList b') "active" = true <-> j = btn) /\
  Some (filter b') = filter <$> (filterButtons (dom w) !! j).
Proof.
  intros Hb. rewrite advance_buttons. unfold onClick. rewrite Hb.
  rewrite filterLoop_buttons. simpl. apply activate_spec.
Qed.

Lemma X26_clicked_filter_button_is_the_only_active_one_witness :
  let w := advance fire 300 (onClick 1 Examples.gallery) in
  filterButtons (dom w) !! 1 = Some {| filter := Some "design"; classList := ["active"] |} /\
  (ClassList.contains ["active"] "active" = true <-> 1 = 1).
Proof.
  split; [reflexivity|].
  apply (X26_clicked_filter_button_is_the_only_active_one Examples.gallery 1
           {| filter := Some "design"; classList := [] |} 300 1
           {| filter := Some "design"; classList := ["active"] |});
    reflexivity.
Defined.
End FilterButtons.

(** ** Sample runs of the added properties *)

(** A subtitle of two characters is complete 1200 ms after the setup. *)
Lemma X19_typewriter_types_the_text_back_witness :
  1000 + 100 * length (JS.lit "Hi") <= 1200 /\
  Typewriter.shownText
    (Timers.advance Typewriter.fire 1200 (Typewriter.setupTypewriter 0 (Some (JS.lit "Hi"))))
  = JS.lit "Hi".
Proof.
  assert (H : 1000 + 100 * length (JS.lit "Hi") <= 1200) by (simpl; lia).
  split; [exact H|].
  destruct (X19_typewriter_types_the_text_back 0 (JS.lit "Hi") 1200) as [_ H1].
  exact (proj1 (H1 H)).
Defined.

(** A toggle leaves a language preference in the storage alone. *)
Lemma X7_reload_keeps_the_theme_witness :
  let tm := ThemeManager.run None (<["lang" := "en"]> ∅) [ThemeManager.Toggle] in
  "lang" <> "theme" /\
  ThemeManager.localStorage (ThemeManager.toggleTheme tm) !! "lang" =
  ThemeManager.localStorage tm !! "lang".
Proof.
  split; [discriminate|].
  destruct (X7_reload_keeps_the_theme None None (<["lang" := "en"]> ∅)
              [ThemeManager.Toggle]) as (_ & _ & H).
  apply H. discriminate.
Defined.

(** The bar keeps its own class through the load. *)
Lemma X9_navbar_is_scrolled_iff_beyond_100_witness :
  "navbar" <> "scrolled" /\
  ClassList.contains
    (Navigation.navbar (Navigation.run Examples.threeSections ["navbar"]
                          Examples.threeLinks []))
    "navbar" = ClassList.contains ["navbar"] "navbar".
Proof.
  split; [discriminate|].
  destruct (X9_navbar_is_scrolled_iff_beyond_100 Examples.threeSections ["navbar"]
              Examples.threeLinks []) as [_ H].
  apply H. discriminate.
Defined.
